(** * Madgwick orientation filter ([ahrs/filters/madgwick.py])

    A shallow embedding of [Madgwick.updateIMU] and [Madgwick.updateMARG].

    The Python code works on numpy arrays of floats that the caller owns
    and that the methods update in place ([a /= a_norm], [q += ...]).
    The embedding therefore has

    - a numeric interface [Number] with the operations the source applies
      to array elements, and two implementations of it: IEEE binary64
      ([PrimFloat], what numpy computes with) and the reals extended with
      an undefined value ([xreal], the arithmetic the algorithm is
      designed in, where [x / 0] and the square root of a negative number
      are undefined like numpy's [nan]);
    - a store of arrays addressed by object identity, and a state and
      exception monad over it in which the two methods are written
      statement by statement. *)

From Stdlib Require Import PrimFloat.
From Stdlib Require Import Reals Lra Psatz.
From stdpp Require Import base gmap strings list.

Set Default Proof Using "Type".

(** ** Numbers *)

Class Number (num : Type) : Type := {
  zero : num;    (* 0, 0.0 *)
  half : num;    (* 0.5 *)
  one : num;     (* 1.0 *)
  two : num;     (* 2, 2.0 *)
  four : num;    (* 4.0 *)
  tenth : num;   (* 0.1 *)
  n256 : num;    (* 256.0 *)
  nadd : num → num → num;
  nsub : num → num → num;
  nmul : num → num → num;
  ndiv : num → num → num;
  nneg : num → num;
  nsqrt : num → num;
  is_zero : num → bool    (* x == 0 *)
}.

Declare Scope num_scope.
Delimit Scope num_scope with num.
Infix "+" := nadd : num_scope.
Infix "-" := nsub : num_scope.
Infix "*" := nmul : num_scope.
Infix "/" := ndiv : num_scope.
Notation "- x" := (nneg x) : num_scope.

(** IEEE binary64, the element type of the numpy arrays.  The literal [0.1]
    denotes the nearest binary64 value, as it does in Python. *)
#[local] Set Warnings "-inexact-float".
#[export] Instance float_Number : Number float := {
  zero := 0%float;
  half := 0.5%float;
  one := 1%float;
  two := 2%float;
  four := 4%float;
  tenth := 0.1%float;
  n256 := 256%float;
  nadd := PrimFloat.add;
  nsub := PrimFloat.sub;
  nmul := PrimFloat.mul;
  ndiv := PrimFloat.div;
  nneg := PrimFloat.opp;
  nsqrt := PrimFloat.sqrt;
  is_zero := fun x => PrimFloat.eqb x 0%float
}.
#[local] Set Warnings "inexact-float".

(** A real number, or the undefined value that numpy writes [nan]. *)
Inductive xreal : Type :=
  | Fin (r : R)
  | NaN.

Definition xlift2 (f : R → R → R) (x y : xreal) : xreal :=
  match x, y with
  | Fin a, Fin b => Fin (f a b)
  | _, _ => NaN
  end.

Definition xdiv (x y : xreal) : xreal :=
  match x, y with
  | Fin a, Fin b => if Req_dec_T b 0 then NaN else Fin (a / b)
  | _, _ => NaN
  end.

Definition xneg (x : xreal) : xreal :=
  match x with
  | Fin a => Fin (- a)
  | NaN => NaN
  end.

Definition xsqrt (x : xreal) : xreal :=
  match x with
  | Fin a => if Rle_dec 0 a then Fin (R_sqrt.sqrt a) else NaN
  | NaN => NaN
  end.

Definition xis_zero (x : xreal) : bool :=
  match x with
  | Fin a => if Req_dec_T a 0 then true else false
  | NaN => false
  end.

#[export] Instance xreal_Number : Number xreal := {
  zero := Fin 0;
  half := Fin (1 / 2);
  one := Fin 1;
  two := Fin 2;
  four := Fin 4;
  tenth := Fin (1 / 10);
  n256 := Fin 256;
  nadd := xlift2 Rplus;
  nsub := xlift2 Rminus;
  nmul := xlift2 Rmult;
  ndiv := xdiv;
  nneg := xneg;
  nsqrt := xsqrt;
  is_zero := xis_zero
}.

(** ** Arrays, the store and the monad *)

(** Object identity of an array of floats. *)
Definition loc : Type := positive.

Inductive exn : Type :=
  | IndexError    (* index out of range *)
  | KeyError      (* missing dictionary key *)
  | ValueError    (* operands could not be broadcast together *)
  | TypeError.    (* the argument is not an array *)

Section Store.
Context {num : Type}.

(** A computation starts from the store of the arrays the caller can
    reach, [gmap loc (list num)], and either returns a value or raises an
    exception; in both cases it leaves a store, since the updates made
    before an exception stay. *)
Inductive outcome (A : Type) : Type :=
  | Returned (v : A) (h : gmap loc (list num))
  | Raised (e : exn) (h : gmap loc (list num)).
Global Arguments Returned {A} v h.
Global Arguments Raised {A} e h.

Definition M (A : Type) : Type := gmap loc (list num) → outcome A.

Definition raise {A : Type} (e : exn) : M A := fun h => Raised e h.
End Store.
Global Arguments outcome : clear implicits.
Global Arguments M : clear implicits.

#[export] Instance M_ret {num : Type} : MRet (M num) :=
  fun A v h => Returned v h.

#[export] Instance M_bind {num : Type} : MBind (M num) :=
  fun A B f m h =>
    match m h with
    | Returned v h' => f v h'
    | Raised e h' => Raised e h'
    end.

(** The array a call returned, with its contents when the call ended:
    the output of [updateIMU] and [updateMARG]. *)
Definition returned_array {num : Type} (o : outcome num loc) : option (list num) :=
  match o with
  | Returned r h => h !! r
  | Raised _ _ => None
  end.

Section Arrays.
Context {num : Type} `{Number num}.
Local Open Scope num_scope.

(** [x.dot(x)] and [np.linalg.norm(x)] of a one-dimensional array: the
    square root of the sum of the squares, summed from the left. *)
Definition dot (u v : list num) : num :=
  foldl (fun acc p => acc + p.1 * p.2) zero (zip u v).

Definition norm (v : list num) : num := nsqrt (dot v v).

(** [v / s], [v * s], [s * v], [u + v], [u - v] with a scalar [s]. *)
Definition vdiv (v : list num) (s : num) : list num := (fun x => x / s) <$> v.
Definition vmul (v : list num) (s : num) : list num := (fun x => x * s) <$> v.
Definition smul (s : num) (v : list num) : list num := (fun x => s * x) <$> v.
Definition vadd (u v : list num) : list num := zip_with nadd u v.
Definition vsub (u v : list num) : list num := zip_with nsub u v.

(** [J.T @ F]: entry [j] is the sum over the rows [i] of [J[i][j] * F[i]]. *)
Definition matT_vec (ncols : nat) (J : list (list num)) (F : list num) : list num :=
  foldl (fun acc rf => vadd acc (vmul rf.1 rf.2)) (replicate ncols zero) (zip J F).

(** [l[i]] on a sequence held in a local variable. *)
Definition getitem (l : list num) (i : nat) : M num num :=
  match l !! i with
  | Some x => mret x
  | None => raise IndexError
  end.

(** The contents of the array [r]. *)
Definition deref (r : loc) : M num (list num) :=
  fun h => match h !! r with
           | Some v => Returned v h
           | None => Raised TypeError h
           end.

(** [r[i]]. *)
Definition item (r : loc) (i : nat) : M num num :=
  v ← deref r; getitem v i.

(** [np.linalg.norm(r)]. *)
Definition linalg_norm (r : loc) : M num num :=
  v ← deref r; mret (norm v).

(** [r /= s]: every element of [r] is divided by [s], in place. *)
Definition idiv (r : loc) (s : num) : M num unit :=
  fun h => match h !! r with
           | Some v => Returned () (<[r := vdiv v s]> h)
           | None => Raised TypeError h
           end.

(** [r += v] for a one-dimensional [v] of more than one entry: in place;
    numpy raises unless [r] has the length of [v]. *)
Definition iadd (r : loc) (v : list num) : M num unit :=
  fun h => match h !! r with
           | Some u =>
               if decide (length u = length v)
               then Returned () (<[r := vadd u v]> h)
               else Raised ValueError h
           | None => Raised TypeError h
           end.
End Arrays.

(** ** Quaternion helpers ([ahrs.common.orientation]) *)

Section Orientation.
Context {num : Type} `{Number num}.
Local Open Scope num_scope.

(** Modelled from the spec: [q_prod] is imported from
    [ahrs.common.orientation], which is not among the sources; the
    specification describes it as the Hamilton product of two
    quaternions [(w, x, y, z)], non-commutative.  [hamilton] is the
    product on components; [q_prod] takes two sequences and returns a
    fresh array. *)
Definition hamilton (pw px py pz qw qx qy qz : num) : list num :=
  [ pw*qw - px*qx - py*qy - pz*qz;
    pw*qx + px*qw + py*qz - pz*qy;
    pw*qy - px*qz + py*qw + pz*qx;
    pw*qz + px*qy - py*qx + pz*qw ].

Definition q_prod (p q : list num) : M num (list num) :=
  pw ← getitem p 0; px ← getitem p 1; py ← getitem p 2; pz ← getitem p 3;
  qw ← getitem q 0; qx ← getitem q 1; qy ← getitem q 2; qz ← getitem q 3;
  mret (hamilton pw px py pz qw qx qy qz).

(** Modelled from the spec: [q_conj], from the same missing module, is
    the conjugate, which negates the vector part. *)
Definition q_conj (q : list num) : M num (list num) :=
  qw ← getitem q 0; qx ← getitem q 1; qy ← getitem q 2; qz ← getitem q 3;
  mret [ qw; - qx; - qy; - qz ].
End Orientation.

(** ** The filter *)

Section Madgwick.
Context {num : Type} `{Number num}.
Local Open Scope num_scope.

(** The class attribute [__dict__] (lines 22-25), as the class body leaves
    it. *)
Definition defaults : gmap string num :=
  {[ "beta" := tenth; "samplePeriod" := one / n256 ]}.

(** [__init__]: [self.__dict__.update(kwargs)], on the defaults; the result
    is the dictionary the methods read as [self.__dict__]. *)
Definition init (kwargs : gmap string num) : gmap string num :=
  kwargs ∪ defaults.

(** [kwargs[k] if k in kwargs.keys() else self.__dict__[k]]. *)
Definition param (self kwargs : gmap string num) (k : string) : M num num :=
  match kwargs !! k with
  | Some v => mret v
  | None => match self !! k with
            | Some v => mret v
            | None => raise KeyError
            end
  end.

(** [F] of [updateIMU] (lines 65-67); [qx**2] is the product [qx*qx]. *)
Definition F_IMU (qw qx qy qz a0 a1 a2 : num) : list num :=
  [ two*(qx*qz - qw*qy) - a0;
    two*(qw*qx + qy*qz) - a1;
    two*(half - qx*qx - qy*qy) - a2 ].

(** [J] of [updateIMU] (lines 68-70). *)
Definition J_IMU (qw qx qy qz : num) : list (list num) :=
  [ [ (- two)*qy;  two*qz;       (- two)*qw;   two*qx ];
    [ two*qx;      two*qw;       two*qz;       two*qy ];
    [ zero;        (- four)*qx;  (- four)*qy;  zero   ] ].

(** [step = J.T@F; step /= np.linalg.norm(step)] (lines 71-72, 139-140);
    [step] is a fresh array. *)
Definition descent (J : list (list num)) (F : list num) : list num :=
  let step := matT_vec 4 J F in
  vdiv step (norm step).

(** Lines 74-78 and 142-146, which the two methods share word for word. *)
Definition integrate (beta samplePeriod : num) (g q : loc) (step : list num)
  : M num loc :=
  qv ← deref q;
  g0 ← item g 0; g1 ← item g 1; g2 ← item g 2;
  p ← q_prod qv [zero; g0; g1; g2];
  let qDot := vsub (smul half p) (smul beta step) in
  iadd q (vmul qDot samplePeriod);;
  q_norm ← linalg_norm q;
  idiv q q_norm;;
  mret q.

Definition updateIMU (self : gmap string num) (g a q : loc)
    (kwargs : gmap string num) : M num loc :=
  beta ← param self kwargs "beta";
  samplePeriod ← param self kwargs "samplePeriod";
  a_norm ← linalg_norm a;
  if is_zero a_norm then mret q else
  idiv a a_norm;;
  q_norm ← linalg_norm q;
  idiv q q_norm;;
  qw ← item q 0; qx ← item q 1; qy ← item q 2; qz ← item q 3;
  a0 ← item a 0; a1 ← item a 1; a2 ← item a 2;
  let F := F_IMU qw qx qy qz a0 a1 a2 in
  let J := J_IMU qw qx qy qz in
  let step := descent J F in
  integrate beta samplePeriod g q step.

(** [h] of [updateMARG] (line 124), from the array contents [qv] and
    the magnetometer entries. *)
Definition field_h (qv : list num) (m0 m1 m2 : num) : M num (list num) :=
  qc ← q_conj qv;
  mq ← q_prod [zero; m0; m1; m2] qc;
  q_prod qv mq.

(** [b] of [updateMARG] (line 125). *)
Definition field_b (h : list num) : M num (list num) :=
  h1 ← getitem h 1; h2 ← getitem h 2; h3 ← getitem h 3;
  mret [zero; norm [h1; h2]; zero; h3].

(** [F] of [updateMARG] (lines 127-132). *)
Definition F_MARG (qw qx qy qz a0 a1 a2 b1 b3 m0 m1 m2 : num) : list num :=
  [ two*(qx*qz - qw*qy) - a0;
    two*(qw*qx + qy*qz) - a1;
    two*(half - qx*qx - qy*qy) - a2;
    two*b1*(half - qy*qy - qz*qz) + two*b3*(qx*qz - qw*qy) - m0;
    two*b1*(qx*qy - qw*qz) + two*b3*(qw*qx + qy*qz) - m1;
    two*b1*(qw*qy + qx*qz) + two*b3*(half - qx*qx - qy*qy) - m2 ].

(** [J] of [updateMARG] (lines 133-138). *)
Definition J_MARG (qw qx qy qz b1 b3 : num) : list (list num) :=
  [ [ (- two)*qy;  two*qz;  (- two)*qw;  two*qx ];
    [ two*qx;      two*qw;  two*qz;      two*qy ];
    [ zero;        (- four)*qx;  (- four)*qy;  zero ];
    [ (- two)*b3*qy;  two*b3*qz;
      (- four)*b1*qy - two*b3*qw;  (- four)*b1*qz + two*b3*qx ];
    [ (- two)*b1*qz + two*b3*qx;  two*b1*qy + two*b3*qw;
      two*b1*qx + two*b3*qz;  (- two)*b1*qw + two*b3*qy ];
    [ two*b1*qy;  two*b1*qz - four*b3*qx;
      two*b1*qw - four*b3*qy;  two*b1*qx ] ].

Definition updateMARG (self : gmap string num) (g a m q : loc)
    (kwargs : gmap string num) : M num loc :=
  beta ← param self kwargs "beta";
  samplePeriod ← param self kwargs "samplePeriod";
  a_norm ← linalg_norm a;
  if is_zero a_norm then mret q else
  idiv a a_norm;;
  m_norm ← linalg_norm m;
  if is_zero m_norm then mret q else
  idiv m m_norm;;
  q_norm ← linalg_norm q;
  idiv q q_norm;;
  qw ← item q 0; qx ← item q 1; qy ← item q 2; qz ← item q 3;
  qv ← deref q;
  m0 ← item m 0; m1 ← item m 1; m2 ← item m 2;
  h ← field_h qv m0 m1 m2;
  b ← field_b h;
  b1 ← getitem b 1; b3 ← getitem b 3;
  a0 ← item a 0; a1 ← item a 1; a2 ← item a 2;
  let F := F_MARG qw qx qy qz a0 a1 a2 b1 b3 m0 m1 m2 in
  let J := J_MARG qw qx qy qz b1 b3 in
  let step := descent J F in
  integrate beta samplePeriod g q step.
End Madgwick.

(** ** The values a call computes

    The same arithmetic as in the methods, on the entries of the arrays
    instead of on the store; the lemmas on [updateIMU] and [updateMARG]
    below state what the methods leave in the store in these terms. *)

Section Values.
Context {num : Type} `{Number num}.
Local Open Scope num_scope.

(** The Hamilton product and the conjugate of four-element lists. *)
Definition product (p q : list num) : list num :=
  match p, q with
  | [pw; px; py; pz], [qw; qx; qy; qz] => hamilton pw px py pz qw qx qy qz
  | _, _ => []
  end.

Definition conjugate (q : list num) : list num :=
  match q with
  | [qw; qx; qy; qz] => [qw; - qx; - qy; - qz]
  | _ => []
  end.

(** [v / np.linalg.norm(v)]. *)
Definition normalize (v : list num) : list num := vdiv v (norm v).

(** Lines 74 and 76: the integrated quaternion before it is renormalised,
    from the normalised prior [qw, qx, qy, qz], the gyroscope sample and
    the normalised [step]. *)
Definition q_raw (beta samplePeriod qw qx qy qz g0 g1 g2 : num)
    (step : list num) : list num :=
  let qDot := vsub (smul half (hamilton qw qx qy qz zero g0 g1 g2))
                   (smul beta step) in
  vadd [qw; qx; qy; qz] (vmul qDot samplePeriod).

(** The value lines 74-77 leave in [q]. *)
Definition q_next (beta samplePeriod qw qx qy qz g0 g1 g2 : num)
    (step : list num) : list num :=
  normalize (q_raw beta samplePeriod qw qx qy qz g0 g1 g2 step).

(** [J.T@F] in [updateIMU], and the normalised step, from the normalised
    quaternion and accelerometer entries. *)
Definition gradient_IMU (qw qx qy qz a0 a1 a2 : num) : list num :=
  matT_vec 4 (J_IMU qw qx qy qz) (F_IMU qw qx qy qz a0 a1 a2).

Definition step_IMU (qw qx qy qz a0 a1 a2 : num) : list num :=
  descent (J_IMU qw qx qy qz) (F_IMU qw qx qy qz a0 a1 a2).

(** [h] of [updateMARG] on components: the normalised magnetometer
    sample rotated by the normalised quaternion. *)
Definition h_MARG (qw qx qy qz m0 m1 m2 : num) : list num :=
  match hamilton zero m0 m1 m2 qw (- qx) (- qy) (- qz) with
  | [p0; p1; p2; p3] => hamilton qw qx qy qz p0 p1 p2 p3
  | _ => []
  end.

(** [J.T@F] in [updateMARG], and the normalised step, from the normalised
    quaternion, accelerometer and magnetometer entries. *)
Definition gradient_MARG (qw qx qy qz a0 a1 a2 m0 m1 m2 : num) : list num :=
  match h_MARG qw qx qy qz m0 m1 m2 with
  | [hw; hx; hy; hz] =>
      let b1 := norm [hx; hy] in
      let b3 := hz in
      matT_vec 4 (J_MARG qw qx qy qz b1 b3)
                 (F_MARG qw qx qy qz a0 a1 a2 b1 b3 m0 m1 m2)
  | _ => []
  end.

Definition step_MARG (qw qx qy qz a0 a1 a2 m0 m1 m2 : num) : list num :=
  match h_MARG qw qx qy qz m0 m1 m2 with
  | [hw; hx; hy; hz] =>
      let b1 := norm [hx; hy] in
      let b3 := hz in
      descent (J_MARG qw qx qy qz b1 b3)
              (F_MARG qw qx qy qz a0 a1 a2 b1 b3 m0 m1 m2)
  | _ => []
  end.

(** The reference field as the specification words it: the second entry
    is the norm of the pair [(hy, hz)] of the components [(hw, hx, hy, hz)]
    of [h], the fourth the vertical component [hz]. *)
Definition claimed_b (h : list num) : list num :=
  match h with
  | [hw; hx; hy; hz] => [zero; norm [hy; hz]; zero; hz]
  | _ => []
  end.

(** Gyroscope-only integration as the specification words it:
    [normalize(q + 0.5 * product(q, [0, gx, gy, gz]) * samplePeriod)]. *)
Definition gyro_integration (samplePeriod : num) (q g : list num) : list num :=
  normalize (vadd q (vmul (smul half (product q (zero :: g))) samplePeriod)).
End Values.

(** ** Shapes

    [shaped sh h]: every array listed in [sh] is in the store with the
    length listed; [returns sh c Q]: from every such store the computation
    [c] returns, raising nothing, a value that satisfies [Q], and leaves
    such a store. *)

Definition shaped {num : Type} (sh : list (loc * nat))
    (h : gmap loc (list num)) : Prop :=
  Forall (fun rn => ∃ v, h !! rn.1 = Some v ∧ length v = rn.2) sh.

Definition returns {num : Type} (sh : list (loc * nat)) {A : Type}
    (c : M num A) (Q : A → Prop) : Prop :=
  ∀ h, shaped sh h → ∃ v h', c h = Returned v h' ∧ shaped sh h' ∧ Q v.

(** ** Finite vectors of extended reals *)

Definition finite (x : xreal) : Prop :=
  match x with
  | Fin _ => True
  | NaN => False
  end.

Definition all_finite (v : list xreal) : Prop := Forall finite v.

(** The dot product of two lists of reals, summed as [dot] sums. *)
Definition Rdot (u v : list R) : R :=
  foldl (fun s p => (s + p.1 * p.2)%R) 0%R (zip u v).

(** The gravity-prediction map as the specification words it (section
    4.2, step 3), on the quaternion [[qw; qx; qy; qz]]. *)
Definition gravity_prediction (q : list R) : list R :=
  match q with
  | [qw; qx; qy; qz] =>
      [ 2 * (qx * qz - qw * qy);
        2 * (qw * qx + qy * qz);
        2 * (1 / 2 - qx ^ 2 - qy ^ 2) ]%R
  | _ => []
  end.

(** [J] is the Jacobian of [f] at [q]: it has a row for every component of
    [f] and, in every row, an entry for every coordinate of [q], which is
    the derivative of that component along that coordinate. *)
Definition is_jacobian (f : list R → list R) (q : list R)
    (J : list (list R)) : Prop :=
  length J = length (f q) ∧
  ∀ i row, J !! i = Some row →
    length row = length q ∧
    ∀ j d, row !! j = Some d →
      derivable_pt_lim (fun t => nth i (f (<[j := t]> q)) 0%R) (nth j q 0%R) d.

(** ** Example stores of binary64 arrays *)

Module Examples.
(** The slots of the arrays in the examples: gyroscope, accelerometer,
    magnetometer, quaternion. *)
Definition g : loc := 1%positive.
Definition a : loc := 2%positive.
Definition m : loc := 3%positive.
Definition q : loc := 4%positive.

Definition store {num : Type} (gv av mv qv : list num) : gmap loc (list num) :=
  <[q := qv]> (<[m := mv]> (<[a := av]> (<[g := gv]> ∅))).

(** A sensor dropout: both reference vectors are zero. *)
Definition dropout : gmap loc (list float) :=
  store [0.5; 0.25; 0.125]%float [0; 0; 0]%float [0; 0; 0]%float
        [2; 0; 0; 0]%float.

(** Accelerometer present, magnetometer dropped out. *)
Definition no_mag : gmap loc (list float) :=
  store [0.5; 0.25; 0.125]%float [0; 0; 2]%float [0; 0; 0]%float
        [2; 0; 0; 0]%float.

(** An ordinary sample, with an unnormalised quaternion. *)
Definition sample : gmap loc (list float) :=
  store [0.5; 0.25; 0.125]%float [3; 0; 4]%float [2; 0; 0]%float
        [2; 0; 0; 0]%float.

(** The estimate agrees with the measurements exactly. *)
Definition aligned : gmap loc (list float) :=
  store [0.5; 0.25; 0.125]%float [0; 0; 1]%float [1; 0; 0]%float
        [1; 0; 0; 0]%float.

(** The same kind of sample over the extended reals, and a configuration
    passed by keyword. *)
Definition real_sample : gmap loc (list xreal) :=
  store [Fin 1; Fin 0; Fin 0] [Fin 2; Fin 0; Fin 0] [Fin 2; Fin 0; Fin 0]
        [Fin 2; Fin 0; Fin 0; Fin 0].

Definition real_config : gmap string xreal :=
  {[ "beta" := Fin (1 / 10); "samplePeriod" := Fin (1 / 256) ]}.

(** A corrupted accelerometer sample. *)
Definition corrupted : gmap loc (list float) :=
  store [0.5; 0.25; 0.125]%float [nan; 0; 1]%float [1; 0; 0]%float
        [1; 0; 0; 0]%float.
End Examples.

(** ** The class dictionary over several constructions *)

Section History.
Context {num : Type} `{Number num}.

(** [__dict__] is an attribute of the class, so [self.__dict__] is the same
    dictionary for every instance, and [__init__] updates it in place:
    [construct cls kwargs] is the class dictionary after one more
    construction, [constructions kws] the one after the constructions with
    the keyword arguments [kws], in that order, since the class was
    defined. *)
Definition construct (cls kwargs : gmap string num) : gmap string num :=
  kwargs ∪ cls.

Definition constructions (kws : list (gmap string num)) : gmap string num :=
  foldl construct defaults kws.

(** [-v], entry by entry. *)
Definition vneg (v : list num) : list num := nneg <$> v.
End History.

(** * Input routines ([ahrs/utils/io.py])

    [find_index], [load], [loadETH] and the constructor of [Data].

    - A Python [str] is a [string]; its characters are the code points
      below 256, on which [str.lower] and [str.strip] act as written out
      below (beyond them [lower] may change the length of a string).
    - A dictionary keeps its entries in insertion order: a list of
      entries with distinct keys.
    - An [ndarray] is a shape and the elements in row-major order.
    - The file system, [scipy.io.loadmat], [numpy.loadtxt] and
      [numpy.genfromtxt] form the [world] the functions run in; each of
      them may raise. *)

Module io.
Import Stdlib.Strings.Ascii.

(** ** Text *)

Definition is_upper (c : ascii) : bool :=
  let n := N_of_ascii c in
  ((65 <=? n) && (n <=? 90)
   || (192 <=? n) && (n <=? 222) && negb (n =? 215))%N.

Definition lower_char (c : ascii) : ascii :=
  if is_upper c then ascii_of_N (N_of_ascii c + 32) else c.

(** [s.lower()] *)
Fixpoint lower (s : string) : string :=
  match s with
  | EmptyString => EmptyString
  | String c s' => String (lower_char c) (lower s')
  end.

Definition is_space (c : ascii) : bool :=
  let n := N_of_ascii c in
  ((9 <=? n) && (n <=? 13) || (28 <=? n) && (n <=? 32)
   || (n =? 133) || (n =? 160))%N.

Fixpoint lstrip (s : string) : string :=
  match s with
  | EmptyString => EmptyString
  | String c s' => if is_space c then lstrip s' else s
  end.

Fixpoint rstrip (s : string) : string :=
  match s with
  | EmptyString => EmptyString
  | String c s' =>
      match rstrip s' with
      | EmptyString => if is_space c then EmptyString else String c EmptyString
      | r => String c r
      end
  end.

(** [s.strip()] *)
Definition strip (s : string) : string := rstrip (lstrip s).

(** [t.startswith(s)] *)
Fixpoint startswith (t s : string) : bool :=
  match s, t with
  | EmptyString, _ => true
  | String _ _, EmptyString => false
  | String c s', String d t' => bool_decide (c = d) && startswith t' s'
  end.

(** [s in t] *)
Fixpoint contains (s t : string) : bool :=
  startswith t s
  || match t with
     | EmptyString => false
     | String _ t' => contains s t'
     end.

(** [t.endswith(s)] *)
Fixpoint endswith (t s : string) : bool :=
  bool_decide (t = s)
  || match t with
     | EmptyString => false
     | String _ t' => endswith t' s
     end.

(** [s.split(sep)] for a separator of one character. *)
Fixpoint split (sep : ascii) (s : string) : list string :=
  match s with
  | EmptyString => [EmptyString]
  | String c s' =>
      if bool_decide (c = sep) then EmptyString :: split sep s'
      else match split sep s' with
           | w :: ws => String c w :: ws
           | [] => [String c EmptyString]
           end
  end.

(** [os.path.join(path, name)] of [posixpath], for a [name] that does not
    start with a slash. *)
Definition path_join (path name : string) : string :=
  if bool_decide (path = "") || endswith path "/" then path +:+ name
  else path +:+ "/" +:+ name.

(** ** Exceptions *)

(** What [sys.exit] is handed.  The text of [loadETH]'s report joins the
    names in [missing] in the order Python lists a set in, which the
    program does not determine: the set stands for it. *)
Inductive exit_status : Type :=
  | Message (text : string)
  | Incomplete (missing : gset string).

Inductive raised : Type :=
  | IndexError
  | TypeError
  | ValueError
  | AttributeError
  | OSError
  | SystemExit (status : exit_status).

Inductive result (A : Type) : Type :=
  | Ok (a : A)
  | Raise (e : raised).
Arguments Ok {A} a.
Arguments Raise {A} e.

#[export] Instance result_ret : MRet result := @Ok.
#[export] Instance result_bind : MBind result := λ A B f m,
  match m with
  | Ok a => f a
  | Raise e => Raise e
  end.
#[export] Instance result_fmap : FMap result := λ A B f m,
  match m with
  | Ok a => Ok (f a)
  | Raise e => Raise e
  end.

(** [l[i]] and [l[-1]] on a list. *)
Definition list_item {A : Type} (l : list A) (i : nat) : result A :=
  match l !! i with
  | Some x => Ok x
  | None => Raise IndexError
  end.

Definition list_last {A : Type} (l : list A) : result A :=
  match last l with
  | Some x => Ok x
  | None => Raise IndexError
  end.

(** [l.index(x)]: the position of the first element equal to [x]. *)
Fixpoint index (l : list string) (x : string) : result nat :=
  match l with
  | [] => Raise ValueError
  | y :: l' => if bool_decide (y = x) then Ok 0 else S <$> index l' x
  end.

(** ** [find_index] *)

(** The loop of lines 14-17 over the entries [rest] still to visit. *)
Fixpoint find_index_loop (header rest : list string) (s : string)
  : result (option nat) :=
  match rest with
  | [] => Ok None
  | h :: rest' =>
      if contains s (lower h) then Some <$> index header h
      else find_index_loop header rest' s
  end.

Definition find_index (header : list string) (s : string)
  : result (option nat) :=
  find_index_loop header header s.

(** ** Arrays, values and dictionaries *)

Section Objects.
Context {num : Type}.

Record ndarray : Type := Ndarray { shape : list nat; flat : list num }.

(** The number of elements of an array of the shape [dims]. *)
Definition size (dims : list nat) : nat := foldr Nat.mul 1 dims.

(** From each of the [n] runs of [stride] elements, the [width] elements
    that start at [offset]. *)
Definition gather (n stride offset width : nat) (l : list num) : list num :=
  mjoin ((λ k, take width (drop (k * stride + offset) l)) <$> seq 0 n).

(** [a[:, i]] for [0 <= i]. *)
Definition column (a : ndarray) (i : nat) : result ndarray :=
  match shape a with
  | n :: c :: rest =>
      if i <? c then
        Ok {| shape := n :: rest;
              flat := gather n (c * size rest) (i * size rest) (size rest)
                             (flat a) |}
      else Raise IndexError
  | _ => Raise IndexError
  end.

(** [a[:, i:j]] for [0 <= i] and [0 <= j]. *)
Definition columns (a : ndarray) (i j : nat) : result ndarray :=
  match shape a with
  | n :: c :: rest =>
      let start := i `min` c in
      let stop := j `min` c in
      Ok {| shape := n :: (stop - start) :: rest;
            flat := gather n (c * size rest) (start * size rest)
                           ((stop - start) * size rest) (flat a) |}
  | _ => Raise IndexError
  end.

(** [a[:, i:]] for [0 <= i]. *)
Definition columns_from (a : ndarray) (i : nat) : result ndarray :=
  match shape a with
  | n :: c :: rest => columns a i c
  | _ => Raise IndexError
  end.

(** [a[:, idx:idx+width]] where [idx] is what [find_index] returned:
    [None + width] is a [TypeError]. *)
Definition columns_at (a : ndarray) (idx : option nat) (width : nat)
  : result ndarray :=
  match idx with
  | None => Raise TypeError
  | Some i => columns a i (i + width)
  end.

(** The objects found in the dictionaries: [None], a [bool], an array, or
    an object of another type (the strings and lists that [loadmat] files
    under [__header__], [__version__] and [__globals__]), which has no
    attribute [shape]. *)
Inductive value : Type :=
  | PyNone
  | PyBool (b : bool)
  | PyArray (a : ndarray)
  | PyObject (id : positive).

Definition dict : Type := list (string * value).

Definition keys (d : dict) : list string := d.*1.

(** [d.get(k, default)] *)
Fixpoint get (d : dict) (k : string) (default : value) : value :=
  match d with
  | [] => default
  | (k', v) :: d' => if bool_decide (k' = k) then v else get d' k default
  end.

(** [d.update({k: v})]: an existing key keeps its place. *)
Fixpoint update (d : dict) (k : string) (v : value) : dict :=
  match d with
  | [] => [(k, v)]
  | (k', v') :: d' =>
      if bool_decide (k' = k) then (k', v) :: d' else (k', v') :: update d' k v
  end.

(** ** [Data] *)

(** The attributes of a [Data] object; [time_ref] is [None] when the
    attribute is not set. *)
Record Data : Type := {
  qts : value;
  in_rads : value;
  time : value;
  time_ref : option value;
  acc : value;
  gyr : value;
  mag : value;
  q_ref : value;
  num_samples : nat;
  num_axes : nat }.

(** [list(s for s in data_keys if label in s.lower())] *)
Definition labelled (label : string) (data_keys : list string) : list string :=
  List.filter (λ s, contains label (lower s)) data_keys.

(** [data_dict.get(labels[0], None) if labels else None] *)
Definition first_labelled (data_dict : dict) (labels : list string) : value :=
  match labels with
  | l :: _ => get data_dict l PyNone
  | [] => PyNone
  end.

(** [n, c = v.shape] *)
Definition unpack_shape (v : value) : result (nat * nat) :=
  match v with
  | PyArray a =>
      match shape a with
      | [n; c] => Ok (n, c)
      | _ => Raise ValueError
      end
  | _ => Raise AttributeError
  end.

(** [Data(data_dict)], lines 111-131. *)
Definition Data_init (data_dict : dict) : result Data :=
  let data_keys := keys data_dict in
  let time_labels := labelled "time" data_keys in
  let acc_labels := labelled "acc" data_keys in
  let gyr_labels := labelled "gyr" data_keys in
  let mag_labels := labelled "mag" data_keys in
  let qts_labels := labelled "qts" data_keys in
  let rad_labels := labelled "rad" data_keys in
  rad ← list_item rad_labels 0;
  let in_rads := get data_dict rad (PyBool false) in
  let time := first_labelled data_dict time_labels in
  time_ref ← (if 1 <? length time_labels
              then l ← list_item time_labels 1; Ok (Some (get data_dict l PyNone))
              else Ok None);
  let acc := first_labelled data_dict acc_labels in
  let gyr := first_labelled data_dict gyr_labels in
  let mag := first_labelled data_dict mag_labels in
  let q_ref := first_labelled data_dict qts_labels in
  '(num_samples, num_axes) ← unpack_shape acc;
  Ok {| qts := PyNone; in_rads := in_rads; time := time; time_ref := time_ref;
        acc := acc; gyr := gyr; mag := mag; q_ref := q_ref;
        num_samples := num_samples; num_axes := num_axes |}.

(** ** [loadETH] and [load] *)

(** The file system and the library readers.  [loadtxt] is called with
    [delimiter=' '], [genfromtxt] on lines of text with [delimiter=';']. *)
Record world : Type := {
  isfile : string → bool;
  isdir : string → bool;
  listdir : string → result (list string);
  readlines : string → result (list string);
  loadmat : string → result dict;
  genfromtxt : list string → result ndarray;
  loadtxt : string → result ndarray }.

Definition expected_files : list string :=
  ["events.txt"; "images.txt"; "imu.txt"; "groundtruth.txt"; "calib.txt"].

(** [A.symmetric_difference(B)] *)
Definition symmetric_difference (A B : gset string) : gset string :=
  (A ∖ B) ∪ (B ∖ A).

Definition loadETH (w : world) (path : string) : result Data :=
  if isdir w path then
    names ← listdir w path;
    let files := List.filter (λ f, endswith f ".txt") names in
    let missing :=
      symmetric_difference (list_to_set files) (list_to_set expected_files) in
    if bool_decide (missing ≠ ∅) then Raise (SystemExit (Incomplete missing))
    else
      imu_data ← loadtxt w (path_join path "imu.txt");
      time_sensors ← column imu_data 0;
      let data := update [] "time_sensors" (PyArray time_sensors) in
      accs ← columns imu_data 1 4;
      let data := update data "accs" (PyArray accs) in
      gyros ← columns imu_data 4 7;
      let data := update data "gyros" (PyArray gyros) in
      let data := update data "rads" (PyBool false) in
      truth_data ← loadtxt w (path_join path "groundtruth.txt");
      time_truth ← column truth_data 0;
      let data := update data "time_truth" (PyArray time_truth) in
      quats ← columns_from truth_data 4;
      let data := update data "qts" (PyArray quats) in
      Data_init data
  else Raise (SystemExit (Message "Invalid path")).

(** [load] returns a [Data] object or [None]. *)
Definition load (w : world) (file_name : string) : result (option Data) :=
  if negb (isfile w file_name) then
    Raise (SystemExit (Message ("[ERROR] The file " +:+ file_name
                                +:+ " does not exist.")))
  else
    file_ext ← list_last (split "." (strip file_name));
    if bool_decide (file_ext = "mat") then
      d ← loadmat w file_name;
      let d := update d "rads" (PyBool false) in
      Some <$> Data_init d
    else if bool_decide (file_ext = "csv") then
      all_lines ← readlines w file_name;
      line ← list_item all_lines 0;
      let split_header := split ";" (strip line) in
      a_idx ← find_index split_header "acc";
      g_idx ← find_index split_header "gyr";
      m_idx ← find_index split_header "mag";
      q_idx ← find_index split_header "orient";
      data ← genfromtxt w (drop 2 all_lines);
      times ← column data 0;
      accs ← columns_at data a_idx 3;
      gyrs ← columns_at data g_idx 3;
      mags ← columns_at data m_idx 3;
      quats ← columns_at data q_idx 4;
      let d := [("time", PyArray times); ("acc", PyArray accs);
                ("gyr", PyArray gyrs); ("mag", PyArray mags);
                ("qts", PyArray quats)] in
      let d := update d "rads" (PyBool true) in
      Some <$> Data_init d
    else Ok None.
End Objects.

Arguments ndarray : clear implicits.
Arguments value : clear implicits.
Arguments dict : clear implicits.
Arguments Data : clear implicits.
Arguments world : clear implicits.
End io.

(** ** Example files *)

Module io_examples.
Import io.
Import Stdlib.Strings.Ascii.

Definition newline : string := String "010" "".

(** Two lines of [imu.txt] and of [groundtruth.txt]. *)
Definition imu : ndarray float :=
  {| shape := [2; 7];
     flat := [0; 0; 0; 1; 0.5; 0.25; 0.125;
              1; 0; 0; 1; 0.5; 0.25; 0.125]%float |}.

Definition truth : ndarray float :=
  {| shape := [2; 8];
     flat := [0; 0; 0; 0; 0; 0; 0; 1;
              1; 0; 0; 0; 0; 0; 0; 1]%float |}.

(** A directory [rec] that lists [names]. *)
Definition directory (names : list string) : world float :=
  {| isfile := λ _, false;
     isdir := λ p, bool_decide (p = "rec");
     listdir := λ _, Ok names;
     readlines := λ _, Raise OSError;
     loadmat := λ _, Raise OSError;
     genfromtxt := λ _, Raise OSError;
     loadtxt := λ p, if bool_decide (p = "rec/imu.txt") then Ok imu
                     else if bool_decide (p = "rec/groundtruth.txt")
                          then Ok truth
                          else Raise OSError |}.

Definition complete : list string :=
  ["calib.txt"; "events.txt"; "groundtruth.txt"; "images"; "images.txt";
   "imu.txt"].

(** Two samples of fourteen columns. *)
Definition table : ndarray float :=
  {| shape := [2; 14];
     flat := [0; 0; 0; 1; 0.5; 0.25; 0.125; 2; 0; 0; 1; 0; 0; 0;
              1; 0; 0; 1; 0.5; 0.25; 0.125; 2; 0; 0; 1; 0; 0; 0]%float |}.

(** A file [rec.csv] with the first line [header]; the file [notes.txt]
    exists as well. *)
Definition csv_file (header : string) : world float :=
  {| isfile := λ p, bool_decide (p = "rec.csv") || bool_decide (p = "notes.txt");
     isdir := λ _, false;
     listdir := λ _, Raise OSError;
     readlines := λ _, Ok [header +:+ newline; "s;g;g;g" +:+ newline;
                           "0;0;0;1" +:+ newline; "1;0;0;1" +:+ newline];
     loadmat := λ _, Raise OSError;
     genfromtxt := λ _, Ok table;
     loadtxt := λ _, Raise OSError |}.

Definition full_header : string :=
  "Time;Acc_X;Acc_Y;Acc_Z;Gyr_X;Gyr_Y;Gyr_Z;Mag_X;Mag_Y;Mag_Z;Orient_W;Orient_X;Orient_Y;Orient_Z".

Definition header_without_mag : string :=
  "Time;Acc_X;Acc_Y;Acc_Z;Gyr_X;Gyr_Y;Gyr_Z;Orient_W;Orient_X;Orient_Y;Orient_Z".

(** The variables of a file [rec.mat], which claims radians. *)
Definition variables : dict float :=
  [("__header__", PyObject 1); ("__version__", PyObject 2);
   ("__globals__", PyObject 3); ("acc", PyArray imu); ("rads", PyBool true)].

Definition mat_file : world float :=
  {| isfile := λ p, bool_decide (p = "rec.mat");
     isdir := λ _, false;
     listdir := λ _, Raise OSError;
     readlines := λ _, Raise OSError;
     loadmat := λ _, Ok variables;
     genfromtxt := λ _, Raise OSError;
     loadtxt := λ _, Raise OSError |}.
End io_examples.

(** ** Running the monad *)

Section Run.
Context {num : Type} `{Number num}.

Lemma run_bind {A B : Type} (m : M num A) (f : A → M num B) (h : gmap loc (list num)) :
  (m ≫= f) h =
  match m h with
  | Returned v h' => f v h'
  | Raised e h' => Raised e h'
  end.
Proof. reflexivity. Qed.

Lemma run_ret {A : Type} (v : A) (h : gmap loc (list num)) :
  (mret v : M num A) h = Returned v h.
Proof. reflexivity. Qed.

Lemma run_getitem (l : list num) (i : nat) (x : num) (h : gmap loc (list num)) :
  l !! i = Some x → getitem l i h = Returned x h.
Proof. intros Hl. unfold getitem. rewrite Hl. reflexivity. Qed.

Lemma run_deref (r : loc) (v : list num) (h : gmap loc (list num)) :
  h !! r = Some v → deref r h = Returned v h.
Proof. intros Hr. unfold deref. rewrite Hr. reflexivity. Qed.

Lemma run_item (r : loc) (i : nat) (v : list num) (x : num) (h : gmap loc (list num)) :
  h !! r = Some v → v !! i = Some x → item r i h = Returned x h.
Proof.
  intros Hr Hi. unfold item. rewrite run_bind, (run_deref _ _ _ Hr).
  apply run_getitem, Hi.
Qed.

Lemma run_linalg_norm (r : loc) (v : list num) (h : gmap loc (list num)) :
  h !! r = Some v → linalg_norm r h = Returned (norm v) h.
Proof.
  intros Hr. unfold linalg_norm. rewrite run_bind, (run_deref _ _ _ Hr).
  reflexivity.
Qed.

Lemma run_idiv (r : loc) (s : num) (v : list num) (h : gmap loc (list num)) :
  h !! r = Some v → idiv r s h = Returned () (<[r := vdiv v s]> h).
Proof. intros Hr. unfold idiv. rewrite Hr. reflexivity. Qed.

Lemma run_iadd (r : loc) (u v : list num) (h : gmap loc (list num)) :
  h !! r = Some u → length u = length v →
  iadd r v h = Returned () (<[r := vadd u v]> h).
Proof.
  intros Hr Hl. unfold iadd. rewrite Hr.
  destruct (decide (length u = length v)); [reflexivity | contradiction].
Qed.

Lemma run_param_init (kw0 kwargs : gmap string num) (k : string) (h : gmap loc (list num)) :
  k = "beta" ∨ k = "samplePeriod" →
  ∃ v, param (init kw0) kwargs k h = Returned v h.
Proof.
  intros Hk. unfold param.
  destruct (kwargs !! k) as [v|]; [by exists v|].
  assert (is_Some (init kw0 !! k)) as [v Hv].
  { unfold init. apply lookup_union_is_Some. right.
    destruct Hk as [-> | ->]; unfold defaults; by simplify_map_eq. }
  rewrite Hv. by exists v.
Qed.

Lemma run_param (self kwargs : gmap string num) (k : string) (v : num)
    (h : gmap loc (list num)) :
  (kwargs ∪ self) !! k = Some v → param self kwargs k h = Returned v h.
Proof.
  intros Hk. unfold param. apply lookup_union_Some_raw in Hk.
  destruct Hk as [-> | [-> ->]]; reflexivity.
Qed.

Lemma run_q_prod (pw px py pz qw qx qy qz : num) (h : gmap loc (list num)) :
  q_prod [pw; px; py; pz] [qw; qx; qy; qz] h
  = Returned (hamilton pw px py pz qw qx qy qz) h.
Proof. reflexivity. Qed.

Lemma run_integrate (beta samplePeriod : num) (g q : loc)
    (qw qx qy qz g0 g1 g2 : num) (grest step : list num)
    (h : gmap loc (list num)) :
  h !! q = Some [qw; qx; qy; qz] →
  h !! g = Some (g0 :: g1 :: g2 :: grest) →
  length step = 4 →
  integrate beta samplePeriod g q step h
  = Returned q (<[q := q_next beta samplePeriod qw qx qy qz g0 g1 g2 step]> h).
Proof.
  intros Hq Hg Hs. unfold integrate.
  rewrite run_bind, (run_deref _ _ _ Hq).
  rewrite run_bind, (run_item _ 0 _ g0 _ Hg) by reflexivity.
  rewrite run_bind, (run_item _ 1 _ g1 _ Hg) by reflexivity.
  rewrite run_bind, (run_item _ 2 _ g2 _ Hg) by reflexivity.
  rewrite run_bind, run_q_prod.
  destruct step as [|s0 [|s1 [|s2 [|s3 [|]]]]]; try discriminate Hs.
  rewrite run_bind, (run_iadd _ _ _ _ Hq) by reflexivity.
  rewrite run_bind, (run_linalg_norm _ _ _ (lookup_insert_eq _ _ _)).
  rewrite run_bind, (run_idiv _ _ _ _ (lookup_insert_eq _ _ _)).
  rewrite insert_insert_eq. reflexivity.
Qed.
End Run.

(** ** The configuration *)

Section Configuration.
Context {num : Type} `{Number num}.

Lemma init_has_param (kw0 kwargs : gmap string num) (k : string) :
  k = "beta" ∨ k = "samplePeriod" →
  ∃ v, (kwargs ∪ init kw0) !! k = Some v.
Proof.
  intros Hk. apply lookup_union_is_Some. right.
  unfold init. apply lookup_union_is_Some. right.
  destruct Hk as [-> | ->]; unfold defaults; by simplify_map_eq.
Qed.

End Configuration.

(** ** What a call computes on well-shaped, distinct arrays *)

Section Calls.
Context {num : Type} `{Number num}.
Local Open Scope num_scope.

Lemma run_updateIMU (self kwargs : gmap string num) (g a q : loc)
    (beta samplePeriod q0 q1 q2 q3 a0 a1 a2 g0 g1 g2 : num)
    (h : gmap loc (list num)) :
  (kwargs ∪ self) !! "beta" = Some beta →
  (kwargs ∪ self) !! "samplePeriod" = Some samplePeriod →
  a ≠ q → g ≠ a → g ≠ q →
  h !! g = Some [g0; g1; g2] →
  h !! a = Some [a0; a1; a2] →
  h !! q = Some [q0; q1; q2; q3] →
  is_zero (norm [a0; a1; a2]) = false →
  let a_norm := norm [a0; a1; a2] in
  let q_norm := norm [q0; q1; q2; q3] in
  updateIMU self g a q kwargs h
  = Returned q
      (<[q := q_next beta samplePeriod
                (q0 / q_norm) (q1 / q_norm) (q2 / q_norm) (q3 / q_norm)
                g0 g1 g2
                (step_IMU (q0 / q_norm) (q1 / q_norm) (q2 / q_norm) (q3 / q_norm)
                          (a0 / a_norm) (a1 / a_norm) (a2 / a_norm))]>
         (<[a := normalize [a0; a1; a2]]> h)).
Proof.
  intros Hb Hs Haq Hga Hgq Hg Ha Hq Hz a_norm q_norm. unfold updateIMU.
  rewrite run_bind, (run_param _ _ _ _ _ Hb).
  rewrite run_bind, (run_param _ _ _ _ _ Hs).
  rewrite run_bind, (run_linalg_norm _ _ _ Ha), Hz.
  rewrite run_bind, (run_idiv _ _ _ _ Ha).
  set (h1 := <[a := vdiv [a0; a1; a2] (norm [a0; a1; a2])]> h).
  assert (h1 !! q = Some [q0; q1; q2; q3]) as Hq1
    by (unfold h1; rewrite lookup_insert_ne by done; exact Hq).
  rewrite run_bind, (run_linalg_norm _ _ _ Hq1).
  rewrite run_bind, (run_idiv _ _ _ _ Hq1).
  set (h2 := <[q := _]> h1).
  assert (h2 !! q = Some [q0 / q_norm; q1 / q_norm; q2 / q_norm; q3 / q_norm])
    as Hq2 by (unfold h2; apply lookup_insert_eq).
  assert (h2 !! a = Some [a0 / norm [a0; a1; a2]; a1 / norm [a0; a1; a2];
                          a2 / norm [a0; a1; a2]]) as Ha2.
  { unfold h2, h1. rewrite lookup_insert_ne by done. apply lookup_insert_eq. }
  assert (h2 !! g = Some [g0; g1; g2]) as Hg2.
  { unfold h2, h1. rewrite !lookup_insert_ne by done. exact Hg. }
  rewrite run_bind, (run_item _ 0 _ _ _ Hq2) by reflexivity.
  rewrite run_bind, (run_item _ 1 _ _ _ Hq2) by reflexivity.
  rewrite run_bind, (run_item _ 2 _ _ _ Hq2) by reflexivity.
  rewrite run_bind, (run_item _ 3 _ _ _ Hq2) by reflexivity.
  rewrite run_bind, (run_item _ 0 _ _ _ Ha2) by reflexivity.
  rewrite run_bind, (run_item _ 1 _ _ _ Ha2) by reflexivity.
  rewrite run_bind, (run_item _ 2 _ _ _ Ha2) by reflexivity.
  rewrite (run_integrate _ _ _ _ _ _ _ _ _ _ _ _ _ _ Hq2 Hg2) by reflexivity.
  unfold h2. rewrite insert_insert_eq. reflexivity.
Qed.

Lemma run_field_h (qw qx qy qz m0 m1 m2 : num) (h : gmap loc (list num)) :
  field_h [qw; qx; qy; qz] m0 m1 m2 h
  = Returned (h_MARG qw qx qy qz m0 m1 m2) h.
Proof. reflexivity. Qed.

Lemma run_field_b (hw hx hy hz : num) (h : gmap loc (list num)) :
  field_b [hw; hx; hy; hz] h = Returned [zero; norm [hx; hy]; zero; hz] h.
Proof. reflexivity. Qed.

Lemma run_updateMARG (self kwargs : gmap string num) (g a m q : loc)
    (beta samplePeriod q0 q1 q2 q3 a0 a1 a2 m0 m1 m2 g0 g1 g2 : num)
    (h : gmap loc (list num)) :
  (kwargs ∪ self) !! "beta" = Some beta →
  (kwargs ∪ self) !! "samplePeriod" = Some samplePeriod →
  a ≠ m → a ≠ q → m ≠ q → g ≠ a → g ≠ m → g ≠ q →
  h !! g = Some [g0; g1; g2] →
  h !! a = Some [a0; a1; a2] →
  h !! m = Some [m0; m1; m2] →
  h !! q = Some [q0; q1; q2; q3] →
  is_zero (norm [a0; a1; a2]) = false →
  is_zero (norm [m0; m1; m2]) = false →
  let a_norm := norm [a0; a1; a2] in
  let m_norm := norm [m0; m1; m2] in
  let q_norm := norm [q0; q1; q2; q3] in
  updateMARG self g a m q kwargs h
  = Returned q
      (<[q := q_next beta samplePeriod
                (q0 / q_norm) (q1 / q_norm) (q2 / q_norm) (q3 / q_norm)
                g0 g1 g2
                (step_MARG (q0 / q_norm) (q1 / q_norm) (q2 / q_norm) (q3 / q_norm)
                           (a0 / a_norm) (a1 / a_norm) (a2 / a_norm)
                           (m0 / m_norm) (m1 / m_norm) (m2 / m_norm))]>
         (<[m := normalize [m0; m1; m2]]>
            (<[a := normalize [a0; a1; a2]]> h))).
Proof.
  intros Hb Hs Ham Haq Hmq Hga Hgm Hgq Hg Ha Hm Hq Hza Hzm a_norm m_norm q_norm.
  unfold updateMARG.
  rewrite run_bind, (run_param _ _ _ _ _ Hb).
  rewrite run_bind, (run_param _ _ _ _ _ Hs).
  rewrite run_bind, (run_linalg_norm _ _ _ Ha), Hza.
  rewrite run_bind, (run_idiv _ _ _ _ Ha).
  set (h1 := <[a := vdiv [a0; a1; a2] (norm [a0; a1; a2])]> h).
  assert (h1 !! m = Some [m0; m1; m2]) as Hm1
    by (unfold h1; rewrite lookup_insert_ne by done; exact Hm).
  rewrite run_bind, (run_linalg_norm _ _ _ Hm1), Hzm.
  rewrite run_bind, (run_idiv _ _ _ _ Hm1).
  set (h2 := <[m := _]> h1).
  assert (h2 !! q = Some [q0; q1; q2; q3]) as Hq2
    by (unfold h2, h1; rewrite !lookup_insert_ne by done; exact Hq).
  rewrite run_bind, (run_linalg_norm _ _ _ Hq2).
  rewrite run_bind, (run_idiv _ _ _ _ Hq2).
  set (h3 := <[q := _]> h2).
  assert (h3 !! q = Some [q0 / q_norm; q1 / q_norm; q2 / q_norm; q3 / q_norm])
    as Hq3 by (unfold h3; apply lookup_insert_eq).
  assert (h3 !! m = Some [m0 / m_norm; m1 / m_norm; m2 / m_norm]) as Hm3.
  { unfold h3, h2. rewrite lookup_insert_ne by done. apply lookup_insert_eq. }
  assert (h3 !! a = Some [a0 / a_norm; a1 / a_norm; a2 / a_norm]) as Ha3.
  { unfold h3, h2, h1. rewrite !lookup_insert_ne by done. apply lookup_insert_eq. }
  assert (h3 !! g = Some [g0; g1; g2]) as Hg3.
  { unfold h3, h2, h1. rewrite !lookup_insert_ne by done. exact Hg. }
  rewrite run_bind, (run_item _ 0 _ _ _ Hq3) by reflexivity.
  rewrite run_bind, (run_item _ 1 _ _ _ Hq3) by reflexivity.
  rewrite run_bind, (run_item _ 2 _ _ _ Hq3) by reflexivity.
  rewrite run_bind, (run_item _ 3 _ _ _ Hq3) by reflexivity.
  rewrite run_bind, (run_deref _ _ _ Hq3).
  rewrite run_bind, (run_item _ 0 _ _ _ Hm3) by reflexivity.
  rewrite run_bind, (run_item _ 1 _ _ _ Hm3) by reflexivity.
  rewrite run_bind, (run_item _ 2 _ _ _ Hm3) by reflexivity.
  rewrite run_bind, run_field_h.
  rewrite run_bind. unfold h_MARG at 1, hamilton at 1 2. rewrite run_field_b.
  rewrite run_bind, (run_getitem [_; _; _; _] 1 _ _ eq_refl).
  rewrite run_bind, (run_getitem [_; _; _; _] 3 _ _ eq_refl).
  rewrite run_bind, (run_item _ 0 _ _ _ Ha3) by reflexivity.
  rewrite run_bind, (run_item _ 1 _ _ _ Ha3) by reflexivity.
  rewrite run_bind, (run_item _ 2 _ _ _ Ha3) by reflexivity.
  rewrite (run_integrate _ _ _ _ _ _ _ _ _ _ _ _ _ _ Hq3 Hg3) by reflexivity.
  unfold h3. rewrite insert_insert_eq. reflexivity.
Qed.
End Calls.

(** ** Degenerate reference vectors *)

Section Degenerate.
Context {num : Type} `{Number num}.

Lemma updateIMU_zero_accel (kw0 kwargs : gmap string num) (g a q : loc)
    (va : list num) (h : gmap loc (list num)) :
  h !! a = Some va → is_zero (norm va) = true →
  updateIMU (init kw0) g a q kwargs h = Returned q h.
Proof.
  intros Ha Hz. unfold updateIMU.
  destruct (run_param_init kw0 kwargs "beta" h) as [b Hb]; [by left|].
  destruct (run_param_init kw0 kwargs "samplePeriod" h) as [s Hs]; [by right|].
  rewrite run_bind, Hb, run_bind, Hs.
  rewrite run_bind, (run_linalg_norm _ _ _ Ha), Hz. reflexivity.
Qed.

Lemma updateMARG_zero_accel (kw0 kwargs : gmap string num) (g a m q : loc)
    (va : list num) (h : gmap loc (list num)) :
  h !! a = Some va → is_zero (norm va) = true →
  updateMARG (init kw0) g a m q kwargs h = Returned q h.
Proof.
  intros Ha Hz. unfold updateMARG.
  destruct (run_param_init kw0 kwargs "beta" h) as [b Hb]; [by left|].
  destruct (run_param_init kw0 kwargs "samplePeriod" h) as [s Hs]; [by right|].
  rewrite run_bind, Hb, run_bind, Hs.
  rewrite run_bind, (run_linalg_norm _ _ _ Ha), Hz. reflexivity.
Qed.

Lemma updateMARG_zero_mag (kw0 kwargs : gmap string num) (g a m q : loc)
    (va vm : list num) (h : gmap loc (list num)) :
  h !! a = Some va → h !! m = Some vm →
  is_zero (norm va) = false → is_zero (norm vm) = true →
  updateMARG (init kw0) g a m q kwargs h
  = Returned q (<[a := normalize va]> h).
Proof.
  intros Ha Hm Hza Hzm.
  assert (a ≠ m) as Ham by (intros ->; congruence).
  unfold updateMARG.
  destruct (run_param_init kw0 kwargs "beta" h) as [b Hb]; [by left|].
  destruct (run_param_init kw0 kwargs "samplePeriod" h) as [s Hs]; [by right|].
  rewrite run_bind, Hb, run_bind, Hs.
  rewrite run_bind, (run_linalg_norm _ _ _ Ha), Hza.
  rewrite run_bind, (run_idiv _ _ _ _ Ha).
  assert (<[a := vdiv va (norm va)]> h !! m = Some vm) as Hm1
    by (rewrite lookup_insert_ne by done; exact Hm).
  rewrite run_bind, (run_linalg_norm _ _ _ Hm1), Hzm. reflexivity.
Qed.

(** C3: [updateIMU] returns the prior quaternion, the very array [q] with
    its contents untouched, whenever the norm of the accelerometer
    sample is zero, and so does [updateMARG] whenever the norm of the
    accelerometer sample or of the magnetometer sample is zero: for every
    gyroscope sample, every quaternion and every configuration, and
    without raising an exception. *)
Theorem degenerate_reference_is_noop :
  (∀ (kw0 kwargs : gmap string num) (g a q : loc) (va : list num)
     (h : gmap loc (list num)),
      h !! a = Some va → is_zero (norm va) = true →
      updateIMU (init kw0) g a q kwargs h = Returned q h) ∧
  (∀ (kw0 kwargs : gmap string num) (g a m q : loc) (va vm : list num)
     (h : gmap loc (list num)),
      h !! a = Some va → h !! m = Some vm → a ≠ q →
      is_zero (norm va) || is_zero (norm vm) = true →
      ∃ h', updateMARG (init kw0) g a m q kwargs h = Returned q h'
            ∧ h' !! q = h !! q).
Proof.
  split.
  - intros. by eapply updateIMU_zero_accel.
  - intros kw0 kwargs g a m q va vm h Ha Hm Haq Hz.
    destruct (is_zero (norm va)) eqn:Hza.
    + exists h. split; [|done]. by eapply updateMARG_zero_accel.
    + simpl in Hz. eexists. split.
      * by eapply updateMARG_zero_mag.
      * by rewrite lookup_insert_ne.
Qed.

(** C10: in [updateMARG], when the accelerometer norm is not zero and the
    magnetometer norm is, the call returns [q] but leaves the caller's
    accelerometer array divided by its norm: that is the only change to
    the store. *)
Theorem zero_mag_leaves_accel_normalized
    (kw0 kwargs : gmap string num) (g a m q : loc)
    (va vm : list num) (h : gmap loc (list num)) :
  h !! a = Some va → h !! m = Some vm →
  is_zero (norm va) = false → is_zero (norm vm) = true →
  ∃ h', updateMARG (init kw0) g a m q kwargs h = Returned q h'
        ∧ h' !! a = Some (vdiv va (norm va))
        ∧ ∀ r, r ≠ a → h' !! r = h !! r.
Proof.
  intros Ha Hm Hza Hzm. eexists. split; [|split].
  - by eapply updateMARG_zero_mag.
  - apply lookup_insert_eq.
  - intros r Hr. by rewrite lookup_insert_ne.
Qed.
End Degenerate.

(** ** The store after a call, and the formulas behind it *)

Section Effects.
Context {num : Type} `{Number num}.
Local Open Scope num_scope.

(** C9: when the zero-norm checks pass, the two methods change the
    caller's arrays in place: after the call the accelerometer array (and
    the magnetometer array, in [updateMARG]) holds its former contents
    divided by their norm, the quaternion array holds the normalised,
    integrated and renormalised estimate and is the array returned; no
    other array changes. *)
Theorem inputs_mutated_in_place :
  (∀ (self kwargs : gmap string num) (g a q : loc)
     (beta samplePeriod q0 q1 q2 q3 a0 a1 a2 g0 g1 g2 : num)
     (h : gmap loc (list num)),
      (kwargs ∪ self) !! "beta" = Some beta →
      (kwargs ∪ self) !! "samplePeriod" = Some samplePeriod →
      a ≠ q → g ≠ a → g ≠ q →
      h !! g = Some [g0; g1; g2] →
      h !! a = Some [a0; a1; a2] →
      h !! q = Some [q0; q1; q2; q3] →
      is_zero (norm [a0; a1; a2]) = false →
      let a_norm := norm [a0; a1; a2] in
      let q_norm := norm [q0; q1; q2; q3] in
      ∃ h', updateIMU self g a q kwargs h = Returned q h'
        ∧ h' !! a = Some (vdiv [a0; a1; a2] a_norm)
        ∧ h' !! q = Some (q_next beta samplePeriod
                            (q0 / q_norm) (q1 / q_norm) (q2 / q_norm) (q3 / q_norm)
                            g0 g1 g2
                            (step_IMU
                               (q0 / q_norm) (q1 / q_norm) (q2 / q_norm) (q3 / q_norm)
                               (a0 / a_norm) (a1 / a_norm) (a2 / a_norm)))
        ∧ ∀ r, r ≠ a → r ≠ q → h' !! r = h !! r) ∧
  (∀ (self kwargs : gmap string num) (g a m q : loc)
     (beta samplePeriod q0 q1 q2 q3 a0 a1 a2 m0 m1 m2 g0 g1 g2 : num)
     (h : gmap loc (list num)),
      (kwargs ∪ self) !! "beta" = Some beta →
      (kwargs ∪ self) !! "samplePeriod" = Some samplePeriod →
      a ≠ m → a ≠ q → m ≠ q → g ≠ a → g ≠ m → g ≠ q →
      h !! g = Some [g0; g1; g2] →
      h !! a = Some [a0; a1; a2] →
      h !! m = Some [m0; m1; m2] →
      h !! q = Some [q0; q1; q2; q3] →
      is_zero (norm [a0; a1; a2]) = false →
      is_zero (norm [m0; m1; m2]) = false →
      let a_norm := norm [a0; a1; a2] in
      let m_norm := norm [m0; m1; m2] in
      let q_norm := norm [q0; q1; q2; q3] in
      ∃ h', updateMARG self g a m q kwargs h = Returned q h'
        ∧ h' !! a = Some (vdiv [a0; a1; a2] a_norm)
        ∧ h' !! m = Some (vdiv [m0; m1; m2] m_norm)
        ∧ h' !! q = Some (q_next beta samplePeriod
                            (q0 / q_norm) (q1 / q_norm) (q2 / q_norm) (q3 / q_norm)
                            g0 g1 g2
                            (step_MARG
                               (q0 / q_norm) (q1 / q_norm) (q2 / q_norm) (q3 / q_norm)
                               (a0 / a_norm) (a1 / a_norm) (a2 / a_norm)
                               (m0 / m_norm) (m1 / m_norm) (m2 / m_norm)))
        ∧ ∀ r, r ≠ a → r ≠ m → r ≠ q → h' !! r = h !! r).
Proof.
  split.
  - intros * Hb Hs Haq Hga Hgq Hg Ha Hq Hz a_norm q_norm.
    eexists. split; [by eapply run_updateIMU|]. split; [|split].
    + rewrite lookup_insert_ne by done. apply lookup_insert_eq.
    + apply lookup_insert_eq.
    + intros r Hra Hrq. by rewrite !lookup_insert_ne.
  - intros * Hb Hs Ham Haq Hmq Hga Hgm Hgq Hg Ha Hm Hq Hza Hzm a_norm m_norm q_norm.
    eexists. split; [by eapply run_updateMARG|]. split; [|split; [|split]].
    + rewrite !lookup_insert_ne by done. apply lookup_insert_eq.
    + rewrite lookup_insert_ne by done. apply lookup_insert_eq.
    + apply lookup_insert_eq.
    + intros r Hra Hrm Hrq. by rewrite !lookup_insert_ne.
Qed.

(** C6: in both methods, with [qn] the normalised prior quaternion and
    [step] the normalised descent direction, the rate of change is
    [qDot = 0.5 * product(qn, [0, gx, gy, gz]) - beta * step] and the
    quaternion returned is [normalize(qn + qDot * samplePeriod)]. *)
Theorem rate_of_change_and_integration :
  (∀ (self kwargs : gmap string num) (g a q : loc)
     (beta samplePeriod q0 q1 q2 q3 a0 a1 a2 gx gy gz : num)
     (h : gmap loc (list num)),
      (kwargs ∪ self) !! "beta" = Some beta →
      (kwargs ∪ self) !! "samplePeriod" = Some samplePeriod →
      a ≠ q → g ≠ a → g ≠ q →
      h !! g = Some [gx; gy; gz] →
      h !! a = Some [a0; a1; a2] →
      h !! q = Some [q0; q1; q2; q3] →
      is_zero (norm [a0; a1; a2]) = false →
      let a_norm := norm [a0; a1; a2] in
      let q_norm := norm [q0; q1; q2; q3] in
      let qn := normalize [q0; q1; q2; q3] in
      let step := step_IMU (q0 / q_norm) (q1 / q_norm) (q2 / q_norm) (q3 / q_norm)
                           (a0 / a_norm) (a1 / a_norm) (a2 / a_norm) in
      let qDot := vsub (smul half (product qn [zero; gx; gy; gz]))
                       (smul beta step) in
      ∃ h', updateIMU self g a q kwargs h = Returned q h'
        ∧ h' !! q = Some (normalize (vadd qn (vmul qDot samplePeriod)))) ∧
  (∀ (self kwargs : gmap string num) (g a m q : loc)
     (beta samplePeriod q0 q1 q2 q3 a0 a1 a2 m0 m1 m2 gx gy gz : num)
     (h : gmap loc (list num)),
      (kwargs ∪ self) !! "beta" = Some beta →
      (kwargs ∪ self) !! "samplePeriod" = Some samplePeriod →
      a ≠ m → a ≠ q → m ≠ q → g ≠ a → g ≠ m → g ≠ q →
      h !! g = Some [gx; gy; gz] →
      h !! a = Some [a0; a1; a2] →
      h !! m = Some [m0; m1; m2] →
      h !! q = Some [q0; q1; q2; q3] →
      is_zero (norm [a0; a1; a2]) = false →
      is_zero (norm [m0; m1; m2]) = false →
      let a_norm := norm [a0; a1; a2] in
      let m_norm := norm [m0; m1; m2] in
      let q_norm := norm [q0; q1; q2; q3] in
      let qn := normalize [q0; q1; q2; q3] in
      let step := step_MARG (q0 / q_norm) (q1 / q_norm) (q2 / q_norm) (q3 / q_norm)
                            (a0 / a_norm) (a1 / a_norm) (a2 / a_norm)
                            (m0 / m_norm) (m1 / m_norm) (m2 / m_norm) in
      let qDot := vsub (smul half (product qn [zero; gx; gy; gz]))
                       (smul beta step) in
      ∃ h', updateMARG self g a m q kwargs h = Returned q h'
        ∧ h' !! q = Some (normalize (vadd qn (vmul qDot samplePeriod)))).
Proof.
  split.
  - intros * Hb Hs Haq Hga Hgq Hg Ha Hq Hz a_norm q_norm qn step qDot.
    eexists. split; [by eapply run_updateIMU|]. apply lookup_insert_eq.
  - intros * Hb Hs Ham Haq Hmq Hga Hgm Hgq Hg Ha Hm Hq Hza Hzm.
    intros a_norm m_norm q_norm qn step qDot.
    eexists. split; [by eapply run_updateMARG|]. apply lookup_insert_eq.
Qed.

(** C4, as the code has it: in [updateMARG], after [m] and [q] are
    normalised, [h = product(q, product([0, mx, my, mz], conjugate(q)))]
    and, with [(hw, hx, hy, hz)] the components of [h], the reference
    field whose entries [b[1]] and [b[3]] enter the magnetic rows of [F]
    and [J] is [b = [0, norm (hx, hy), 0, hz]]: its second entry is the
    norm of the pair [(hx, hy)]. *)
Theorem reference_field_from_hx_hy
    (self kwargs : gmap string num) (g a m q : loc)
    (beta samplePeriod q0 q1 q2 q3 a0 a1 a2 m0 m1 m2 g0 g1 g2 hw hx hy hz : num)
    (h : gmap loc (list num)) :
  (kwargs ∪ self) !! "beta" = Some beta →
  (kwargs ∪ self) !! "samplePeriod" = Some samplePeriod →
  a ≠ m → a ≠ q → m ≠ q → g ≠ a → g ≠ m → g ≠ q →
  h !! g = Some [g0; g1; g2] →
  h !! a = Some [a0; a1; a2] →
  h !! m = Some [m0; m1; m2] →
  h !! q = Some [q0; q1; q2; q3] →
  is_zero (norm [a0; a1; a2]) = false →
  is_zero (norm [m0; m1; m2]) = false →
  let a_norm := norm [a0; a1; a2] in
  let m_norm := norm [m0; m1; m2] in
  let q_norm := norm [q0; q1; q2; q3] in
  let qw := q0 / q_norm in let qx := q1 / q_norm in
  let qy := q2 / q_norm in let qz := q3 / q_norm in
  let mx := m0 / m_norm in let my := m1 / m_norm in let mz := m2 / m_norm in
  product [qw; qx; qy; qz]
          (product [zero; mx; my; mz] (conjugate [qw; qx; qy; qz]))
  = [hw; hx; hy; hz] →
  let b := [zero; norm [hx; hy]; zero; hz] in
  (∀ h0, field_h [qw; qx; qy; qz] mx my mz h0 = Returned [hw; hx; hy; hz] h0) ∧
  (∀ h0, field_b [hw; hx; hy; hz] h0 = Returned b h0) ∧
  ∃ h', updateMARG self g a m q kwargs h = Returned q h'
    ∧ h' !! q = Some (q_next beta samplePeriod qw qx qy qz g0 g1 g2
                        (descent
                           (J_MARG qw qx qy qz (norm [hx; hy]) hz)
                           (F_MARG qw qx qy qz
                              (a0 / a_norm) (a1 / a_norm) (a2 / a_norm)
                              (norm [hx; hy]) hz mx my mz))).
Proof.
  intros Hb Hs Ham Haq Hmq Hga Hgm Hgq Hg Ha Hm Hq Hza Hzm.
  intros a_norm m_norm q_norm qw qx qy qz mx my mz Hh b.
  split; [|split].
  - intros h0. rewrite run_field_h. f_equal. exact Hh.
  - intros h0. apply run_field_b.
  - eexists. split; [by eapply run_updateMARG|].
    rewrite lookup_insert_eq. do 2 f_equal.
    unfold step_MARG.
    change (h_MARG _ _ _ _ _ _ _)
      with (product [qw; qx; qy; qz]
              (product [zero; mx; my; mz] (conjugate [qw; qx; qy; qz]))).
    rewrite Hh. reflexivity.
Qed.
End Effects.

(** ** Calls on arrays of the expected lengths return *)

Section Safety.
Context {num : Type} `{Number num}.

Lemma shaped_insert (sh : list (loc * nat)) (h : gmap loc (list num))
    (r : loc) (v v' : list num) :
  shaped sh h → h !! r = Some v → length v' = length v →
  shaped sh (<[r := v']> h).
Proof.
  intros Hsh Hr Hlen. eapply Forall_impl; [exact Hsh|].
  intros [r' n] (u & Hu & Hn). simpl in *.
  destruct (decide (r = r')) as [<- | Hne].
  - exists v'. rewrite lookup_insert_eq. split; [done|]. congruence.
  - exists u. by rewrite lookup_insert_ne.
Qed.

Lemma shaped_lookup (sh : list (loc * nat)) (h : gmap loc (list num))
    (r : loc) (n : nat) :
  shaped sh h → (r, n) ∈ sh → ∃ v, h !! r = Some v ∧ length v = n.
Proof.
  intros Hsh Hin. unfold shaped in Hsh. rewrite Forall_forall in Hsh.
  exact (Hsh _ Hin).
Qed.

Lemma returns_ret (sh : list (loc * nat)) {A : Type} (v : A) (Q : A → Prop) :
  Q v → returns sh (mret v : M num A) Q.
Proof. intros HQ h Hsh. by exists v, h. Qed.

Lemma returns_bind (sh : list (loc * nat)) {A B : Type}
    (c : M num A) (f : A → M num B) (Q : A → Prop) (R : B → Prop) :
  returns sh c Q → (∀ v, Q v → returns sh (f v) R) →
  returns sh (c ≫= f) R.
Proof.
  intros Hc Hf h Hsh. destruct (Hc h Hsh) as (v & h1 & Hrun & Hsh1 & HQ).
  rewrite run_bind, Hrun. by apply Hf.
Qed.

Lemma returns_getitem (sh : list (loc * nat)) (l : list num) (i : nat) :
  i < length l → returns (A := num) sh (getitem l i) (fun _ => True).
Proof.
  intros Hi h Hsh. destruct (lookup_lt_is_Some_2 l i Hi) as [x Hx].
  exists x, h. by rewrite (run_getitem _ _ _ _ Hx).
Qed.

Lemma returns_deref (sh : list (loc * nat)) (r : loc) (n : nat) :
  (r, n) ∈ sh → returns (A := list num) sh (deref r) (fun v => length v = n).
Proof.
  intros Hin h Hsh. destruct (shaped_lookup _ _ _ _ Hsh Hin) as (v & Hv & Hn).
  exists v, h. by rewrite (run_deref _ _ _ Hv).
Qed.

Lemma returns_item (sh : list (loc * nat)) (r : loc) (n i : nat) :
  (r, n) ∈ sh → i < n → returns (A := num) sh (item r i) (fun _ => True).
Proof.
  intros Hin Hi. unfold item.
  eapply returns_bind; [by apply returns_deref|].
  intros v <-. by apply returns_getitem.
Qed.

Lemma returns_linalg_norm (sh : list (loc * nat)) (r : loc) (n : nat) :
  (r, n) ∈ sh → returns (A := num) sh (linalg_norm r) (fun _ => True).
Proof.
  intros Hin. unfold linalg_norm.
  eapply returns_bind; [by apply returns_deref|].
  intros v _. by apply returns_ret.
Qed.

Lemma returns_idiv (sh : list (loc * nat)) (r : loc) (n : nat) (s : num) :
  (r, n) ∈ sh → returns (A := unit) sh (idiv r s) (fun _ => True).
Proof.
  intros Hin h Hsh. destruct (shaped_lookup _ _ _ _ Hsh Hin) as (v & Hv & Hn).
  exists (), (<[r := vdiv v s]> h). rewrite (run_idiv _ _ _ _ Hv).
  split; [done|]. split; [|done].
  eapply shaped_insert; [done..|]. unfold vdiv. by rewrite length_fmap.
Qed.

Lemma length_vadd (u v : list num) :
  length u = length v → length (vadd u v) = length u.
Proof. intros Hl. unfold vadd. rewrite length_zip_with. lia. Qed.

Lemma returns_iadd (sh : list (loc * nat)) (r : loc) (n : nat) (v : list num) :
  (r, n) ∈ sh → length v = n → returns (A := unit) sh (iadd r v) (fun _ => True).
Proof.
  intros Hin Hlen h Hsh.
  destruct (shaped_lookup _ _ _ _ Hsh Hin) as (u & Hu & Hn).
  exists (), (<[r := vadd u v]> h).
  rewrite (run_iadd _ _ _ _ Hu) by congruence.
  split; [done|]. split; [|done].
  eapply shaped_insert; [done..|]. apply length_vadd. congruence.
Qed.

Lemma returns_param (sh : list (loc * nat)) (kw0 kwargs : gmap string num)
    (k : string) :
  k = "beta" ∨ k = "samplePeriod" →
  returns (A := num) sh (param (init kw0) kwargs k) (fun _ => True).
Proof.
  intros Hk h Hsh. destruct (init_has_param kw0 kwargs k Hk) as [v Hv].
  exists v, h. by rewrite (run_param _ _ _ _ _ Hv).
Qed.

Lemma returns_q_prod (sh : list (loc * nat)) (p q : list num) :
  length p = 4 → length q = 4 →
  returns (A := list num) sh (q_prod p q) (fun v => length v = 4).
Proof.
  intros Hp Hq h Hsh.
  destruct p as [|pw [|px [|py [|pz [|]]]]]; try discriminate Hp.
  destruct q as [|qw [|qx [|qy [|qz [|]]]]]; try discriminate Hq.
  by exists (hamilton pw px py pz qw qx qy qz), h.
Qed.

Lemma returns_field_h (sh : list (loc * nat)) (qv : list num) (m0 m1 m2 : num) :
  length qv = 4 → returns (A := list num) sh (field_h qv m0 m1 m2) (fun v => length v = 4).
Proof.
  intros Hq h Hsh.
  destruct qv as [|qw [|qx [|qy [|qz [|]]]]]; try discriminate Hq.
  by exists (h_MARG qw qx qy qz m0 m1 m2), h.
Qed.

Lemma returns_field_b (sh : list (loc * nat)) (hv : list num) :
  length hv = 4 → returns (A := list num) sh (field_b hv) (fun v => length v = 4).
Proof.
  intros Hh h Hsh.
  destruct hv as [|hw [|hx [|hy [|hz [|]]]]]; try discriminate Hh.
  by exists [zero; norm [hx; hy]; zero; hz], h.
Qed.

Lemma length_smul (s : num) (v : list num) : length (smul s v) = length v.
Proof. unfold smul. by rewrite length_fmap. Qed.

Lemma length_vmul (v : list num) (s : num) : length (vmul v s) = length v.
Proof. unfold vmul. by rewrite length_fmap. Qed.

Lemma length_vsub (u v : list num) :
  length u = length v → length (vsub u v) = length u.
Proof. intros Hl. unfold vsub. rewrite length_zip_with. lia. Qed.

Lemma returns_integrate (sh : list (loc * nat)) (beta samplePeriod : num)
    (g q : loc) (step : list num) :
  (g, 3) ∈ sh → (q, 4) ∈ sh → length step = 4 →
  returns (A := loc) sh (integrate beta samplePeriod g q step) (fun r => r = q).
Proof.
  intros Hg Hq Hstep. unfold integrate.
  eapply returns_bind; [by apply returns_deref|]. intros qv Hqv.
  eapply returns_bind; [eapply (returns_item _ g 3); [done | lia]|]. intros g0 _.
  eapply returns_bind; [eapply (returns_item _ g 3); [done | lia]|]. intros g1 _.
  eapply returns_bind; [eapply (returns_item _ g 3); [done | lia]|]. intros g2 _.
  eapply returns_bind; [by apply returns_q_prod|]. intros p Hp.
  eapply returns_bind.
  { eapply returns_iadd; [done|].
    rewrite length_vmul, length_vsub, length_smul; [done|].
    rewrite !length_smul. congruence. }
  intros _ _.
  eapply returns_bind; [by eapply returns_linalg_norm|]. intros q_norm _.
  eapply returns_bind; [by eapply returns_idiv|]. intros _ _.
  by apply returns_ret.
Qed.

(** The array is among those listed. *)
Ltac listed :=
  solve [ repeat first [ apply list_elem_of_here | apply list_elem_of_further ] ].

Lemma returns_updateIMU (kw0 kwargs : gmap string num) (g a q : loc) :
  returns (A := loc) [(g, 3); (a, 3); (q, 4)]
          (updateIMU (init kw0) g a q kwargs) (fun r => r = q).
Proof.
  unfold updateIMU.
  eapply returns_bind; [apply returns_param; by left|]. intros beta _.
  eapply returns_bind; [apply returns_param; by right|]. intros samplePeriod _.
  eapply returns_bind; [eapply returns_linalg_norm; listed|].
  intros a_norm _.
  destruct (is_zero a_norm); [by apply returns_ret|].
  eapply returns_bind; [eapply returns_idiv; listed|]. intros _ _.
  eapply returns_bind; [eapply returns_linalg_norm; listed|].
  intros q_norm _.
  eapply returns_bind; [eapply returns_idiv; listed|]. intros _ _.
  eapply returns_bind; [eapply (returns_item _ q 4); [listed | lia]|].
  intros qw _.
  eapply returns_bind; [eapply (returns_item _ q 4); [listed | lia]|].
  intros qx _.
  eapply returns_bind; [eapply (returns_item _ q 4); [listed | lia]|].
  intros qy _.
  eapply returns_bind; [eapply (returns_item _ q 4); [listed | lia]|].
  intros qz _.
  eapply returns_bind; [eapply (returns_item _ a 3); [listed | lia]|].
  intros a0 _.
  eapply returns_bind; [eapply (returns_item _ a 3); [listed | lia]|].
  intros a1 _.
  eapply returns_bind; [eapply (returns_item _ a 3); [listed | lia]|].
  intros a2 _.
  apply returns_integrate; [listed | listed | reflexivity].
Qed.

Lemma returns_updateMARG (kw0 kwargs : gmap string num) (g a m q : loc) :
  returns (A := loc) [(g, 3); (a, 3); (m, 3); (q, 4)]
          (updateMARG (init kw0) g a m q kwargs) (fun r => r = q).
Proof.
  unfold updateMARG.
  eapply returns_bind; [apply returns_param; by left|]. intros beta _.
  eapply returns_bind; [apply returns_param; by right|]. intros samplePeriod _.
  eapply returns_bind; [eapply returns_linalg_norm; listed|].
  intros a_norm _.
  destruct (is_zero a_norm); [by apply returns_ret|].
  eapply returns_bind; [eapply returns_idiv; listed|]. intros _ _.
  eapply returns_bind; [eapply returns_linalg_norm; listed|].
  intros m_norm _.
  destruct (is_zero m_norm); [by apply returns_ret|].
  eapply returns_bind; [eapply returns_idiv; listed|]. intros _ _.
  eapply returns_bind; [eapply returns_linalg_norm; listed|].
  intros q_norm _.
  eapply returns_bind; [eapply returns_idiv; listed|]. intros _ _.
  eapply returns_bind; [eapply (returns_item _ q 4); [listed | lia]|].
  intros qw _.
  eapply returns_bind; [eapply (returns_item _ q 4); [listed | lia]|].
  intros qx _.
  eapply returns_bind; [eapply (returns_item _ q 4); [listed | lia]|].
  intros qy _.
  eapply returns_bind; [eapply (returns_item _ q 4); [listed | lia]|].
  intros qz _.
  eapply returns_bind; [eapply (returns_deref _ q 4); listed|].
  intros qv Hqv.
  eapply returns_bind; [eapply (returns_item _ m 3); [listed | lia]|].
  intros m0 _.
  eapply returns_bind; [eapply (returns_item _ m 3); [listed | lia]|].
  intros m1 _.
  eapply returns_bind; [eapply (returns_item _ m 3); [listed | lia]|].
  intros m2 _.
  eapply returns_bind; [by apply returns_field_h|]. intros hv Hhv.
  eapply returns_bind; [by apply returns_field_b|]. intros b Hb.
  eapply returns_bind; [apply returns_getitem; rewrite Hb; lia|]. intros b1 _.
  eapply returns_bind; [apply returns_getitem; rewrite Hb; lia|]. intros b3 _.
  eapply returns_bind; [eapply (returns_item _ a 3); [listed | lia]|].
  intros a0 _.
  eapply returns_bind; [eapply (returns_item _ a 3); [listed | lia]|].
  intros a1 _.
  eapply returns_bind; [eapply (returns_item _ a 3); [listed | lia]|].
  intros a2 _.
  apply returns_integrate; [listed | listed | reflexivity].
Qed.

(** C7, as the code has it: neither method inspects its inputs for
    non-finite values or reports them.  On arrays of the expected lengths,
    whatever their entries (in binary64 these include [nan] and the
    infinities) and whatever the configuration, the call raises no
    exception and returns the quaternion array. *)
Theorem non_finite_input_is_not_reported :
  (∀ (kw0 kwargs : gmap string num) (g a q : loc) (h : gmap loc (list num)),
      shaped [(g, 3); (a, 3); (q, 4)] h →
      ∃ h', updateIMU (init kw0) g a q kwargs h = Returned q h') ∧
  (∀ (kw0 kwargs : gmap string num) (g a m q : loc) (h : gmap loc (list num)),
      shaped [(g, 3); (a, 3); (m, 3); (q, 4)] h →
      ∃ h', updateMARG (init kw0) g a m q kwargs h = Returned q h').
Proof.
  split.
  - intros * Hsh.
    destruct (returns_updateIMU kw0 kwargs g a q h Hsh) as (r & h' & Hrun & _ & ->).
    by exists h'.
  - intros * Hsh.
    destruct (returns_updateMARG kw0 kwargs g a m q h Hsh)
      as (r & h' & Hrun & _ & ->).
    by exists h'.
Qed.
End Safety.

(** ** Arithmetic on the extended reals *)

Section ExtendedReals.
Local Open Scope R_scope.

Lemma finite_Fin (r : R) : finite (Fin r).
Proof. exact I. Qed.

Lemma finite_inv (x : xreal) : finite x → ∃ r, x = Fin r.
Proof. destruct x as [r|]; [by exists r | intros []]. Qed.

Lemma finite_add (x y : xreal) : finite x → finite y → finite (nadd x y).
Proof. by destruct x, y. Qed.

Lemma finite_sub (x y : xreal) : finite x → finite y → finite (nsub x y).
Proof. by destruct x, y. Qed.

Lemma finite_mul (x y : xreal) : finite x → finite y → finite (nmul x y).
Proof. by destruct x, y. Qed.

Lemma finite_neg (x : xreal) : finite x → finite (nneg x).
Proof. by destruct x. Qed.

Lemma finite_div (x y : xreal) :
  finite x → finite y → is_zero y = false → finite (ndiv x y).
Proof.
  destruct x as [a|], y as [b|]; try done. simpl.
  by destruct (Req_dec_T b 0).
Qed.

Lemma xdiv_Fin (a b : R) : b ≠ 0 → xdiv (Fin a) (Fin b) = Fin (a / b).
Proof. intros Hb. simpl. by destruct (Req_dec_T b 0). Qed.

Lemma xsqrt_Fin (a : R) : 0 <= a → xsqrt (Fin a) = Fin (R_sqrt.sqrt a).
Proof. intros Ha. simpl. by destruct (Rle_dec 0 a). Qed.

Lemma xis_zero_Fin (a : R) : xis_zero (Fin a) = false ↔ a ≠ 0.
Proof. simpl. destruct (Req_dec_T a 0); split; (done || congruence). Qed.

Lemma all_finite_reals (v : list xreal) : all_finite v → ∃ l, v = Fin <$> l.
Proof.
  induction 1 as [|x v Hx _ [l ->]].
  - by exists [].
  - destruct (finite_inv x Hx) as [r ->]. by exists (r :: l).
Qed.

Lemma all_finite_fmap (l : list R) : all_finite (Fin <$> l).
Proof. induction l; constructor; done. Qed.

Lemma foldl_dot_Fin (u v : list R) (acc : R) :
  foldl (fun s p => nadd s (nmul p.1 p.2)) (Fin acc) (zip (Fin <$> u) (Fin <$> v))
  = Fin (foldl (fun s p => s + p.1 * p.2) acc (zip u v)).
Proof.
  revert v acc. induction u as [|x u IH]; intros [|y v] acc; try reflexivity.
  simpl. apply IH.
Qed.

Lemma dot_Fin (u v : list R) : dot (Fin <$> u) (Fin <$> v) = Fin (Rdot u v).
Proof. apply foldl_dot_Fin. Qed.

Lemma foldl_sq_nonneg (l : list R) (acc : R) :
  0 <= acc → acc <= foldl (fun s p => s + p.1 * p.2) acc (zip l l).
Proof.
  revert acc. induction l as [|x l IH]; intros acc Hacc; simpl; [lra|].
  etransitivity; [|apply IH]; nra.
Qed.

Lemma Rdot_nonneg (l : list R) : 0 <= Rdot l l.
Proof. apply foldl_sq_nonneg. lra. Qed.

Lemma norm_Fin (l : list R) : norm (Fin <$> l) = Fin (R_sqrt.sqrt (Rdot l l)).
Proof. unfold norm. rewrite dot_Fin. apply xsqrt_Fin, Rdot_nonneg. Qed.

Lemma is_zero_norm_Fin (l : list R) :
  is_zero (norm (Fin <$> l)) = false ↔ Rdot l l ≠ 0.
Proof.
  rewrite norm_Fin. etransitivity; [apply xis_zero_Fin|].
  pose proof (Rdot_nonneg l) as Hl. split; intros Hn Hz; apply Hn.
  - rewrite Hz. apply sqrt_0.
  - by apply sqrt_eq_0.
Qed.

Lemma finite_norm (v : list xreal) : all_finite v → finite (norm v).
Proof. intros [l ->]%all_finite_reals. by rewrite norm_Fin. Qed.

Lemma vdiv_Fin (l : list R) (n : R) :
  n ≠ 0 → vdiv (Fin <$> l) (Fin n) = Fin <$> ((fun x => x / n) <$> l).
Proof.
  intros Hn. unfold vdiv. rewrite <- !list_fmap_compose.
  apply list_fmap_ext. intros _ x _. simpl. by destruct (Req_dec_T n 0).
Qed.

Lemma foldl_sq_scale (l : list R) (k acc : R) :
  foldl (fun s p => s + p.1 * p.2) (acc * (k * k))
        (zip ((fun x => x * k) <$> l) ((fun x => x * k) <$> l))
  = foldl (fun s p => s + p.1 * p.2) acc (zip l l) * (k * k).
Proof.
  revert acc. induction l as [|x l IH]; intros acc; simpl; [reflexivity|].
  rewrite <- IH. f_equal. ring.
Qed.

Lemma Rdot_scale (l : list R) (k : R) :
  Rdot ((fun x => x * k) <$> l) ((fun x => x * k) <$> l) = Rdot l l * (k * k).
Proof.
  unfold Rdot. rewrite <- foldl_sq_scale. f_equal. ring.
Qed.

Lemma Rdot_div (l : list R) (n : R) :
  n ≠ 0 →
  Rdot ((fun x => x / n) <$> l) ((fun x => x / n) <$> l) = Rdot l l / (n * n).
Proof.
  intros Hn.
  change (fun x => x / n) with (fun x => x * / n).
  rewrite Rdot_scale. by field.
Qed.

(** Normalising a finite vector whose norm is not zero gives a vector of
    norm one. *)
Lemma norm_normalize (v : list xreal) :
  all_finite v → is_zero (norm v) = false →
  all_finite (normalize v) ∧ norm (normalize v) = Fin 1.
Proof.
  intros [l ->]%all_finite_reals Hz.
  apply is_zero_norm_Fin in Hz.
  pose proof (Rdot_nonneg l) as Hl.
  assert (R_sqrt.sqrt (Rdot l l) ≠ 0) as Hs
    by (intros Hs; by apply sqrt_eq_0 in Hs).
  unfold normalize. rewrite norm_Fin, vdiv_Fin by done. split.
  - apply all_finite_fmap.
  - rewrite norm_Fin, Rdot_div by done.
    rewrite sqrt_sqrt by done.
    replace (Rdot l l / Rdot l l) with 1 by (by field). by rewrite sqrt_1.
Qed.
End ExtendedReals.

(** ** Finiteness is preserved by the arithmetic of the filter *)

Section FiniteVectors.
Local Open Scope num_scope.

Lemma all_finite_vdiv (v : list xreal) (s : xreal) :
  all_finite v → finite s → is_zero s = false → all_finite (vdiv v s).
Proof.
  intros Hv Hs Hz. unfold vdiv, all_finite. rewrite Forall_fmap.
  eapply Forall_impl; [exact Hv|]. intros x Hx. by apply finite_div.
Qed.

Lemma all_finite_vmul (v : list xreal) (s : xreal) :
  all_finite v → finite s → all_finite (vmul v s).
Proof.
  intros Hv Hs. unfold vmul, all_finite. rewrite Forall_fmap.
  eapply Forall_impl; [exact Hv|]. intros x Hx. by apply finite_mul.
Qed.

Lemma all_finite_smul (s : xreal) (v : list xreal) :
  finite s → all_finite v → all_finite (smul s v).
Proof.
  intros Hs Hv. unfold smul, all_finite. rewrite Forall_fmap.
  eapply Forall_impl; [exact Hv|]. intros x Hx. by apply finite_mul.
Qed.

Lemma all_finite_vadd (u v : list xreal) :
  all_finite u → all_finite v → all_finite (vadd u v).
Proof.
  intros Hu. revert v. induction Hu as [|x u Hx Hu IH]; intros v Hv; [constructor|].
  destruct Hv as [|y v Hy Hv]; constructor; [by apply finite_add | by apply IH].
Qed.

Lemma all_finite_vsub (u v : list xreal) :
  all_finite u → all_finite v → all_finite (vsub u v).
Proof.
  intros Hu. revert v. induction Hu as [|x u Hx Hu IH]; intros v Hv; [constructor|].
  destruct Hv as [|y v Hy Hv]; constructor; [by apply finite_sub | by apply IH].
Qed.

Lemma all_finite_matT_vec (n : nat) (J : list (list xreal)) (F : list xreal) :
  Forall all_finite J → all_finite F → all_finite (matT_vec n J F).
Proof.
  intros HJ HF. unfold matT_vec.
  assert (all_finite (replicate n (zero : xreal))) as Hacc
    by (apply Forall_replicate; exact I).
  revert F HF. generalize dependent (replicate n (zero : xreal)).
  induction HJ as [|row J Hrow HJ IH]; intros acc Hacc F HF; [done|].
  destruct HF as [|f F Hf HF]; [done|]. simpl. apply IH; [|done].
  apply all_finite_vadd; [done|]. by apply all_finite_vmul.
Qed.

Lemma finite_zero : finite (zero : xreal).
Proof. exact I. Qed.
Lemma finite_half : finite (half : xreal).
Proof. exact I. Qed.
Lemma finite_two : finite (two : xreal).
Proof. exact I. Qed.
Lemma finite_four : finite (four : xreal).
Proof. exact I. Qed.

End FiniteVectors.

(** Finiteness of an expression built from finite values. *)
Ltac finite_step :=
  lazymatch goal with
  | H : finite ?x |- finite ?x => exact H
  | H : all_finite ?v |- all_finite ?v => exact H
  | |- finite (Fin _) => exact I
  | |- finite zero => exact I
  | |- finite half => exact I
  | |- finite two => exact I
  | |- finite four => exact I
  | |- finite (nadd _ _) => apply finite_add
  | |- finite (nsub _ _) => apply finite_sub
  | |- finite (nmul _ _) => apply finite_mul
  | |- finite (nneg _) => apply finite_neg
  | |- finite (ndiv _ _) => apply finite_div
  | |- is_zero _ = false => assumption
  | |- all_finite (vdiv _ _) => apply all_finite_vdiv
  | |- finite (norm _) => apply finite_norm
  | |- all_finite [] => apply List.Forall_nil
  | |- all_finite (_ :: _) => apply List.Forall_cons
  | |- Forall finite [] => apply List.Forall_nil
  | |- Forall finite (_ :: _) => apply List.Forall_cons
  | |- Forall all_finite [] => apply List.Forall_nil
  | |- Forall all_finite (_ :: _) => apply List.Forall_cons
  | |- all_finite (vadd _ _) => apply all_finite_vadd
  | |- all_finite (vsub _ _) => apply all_finite_vsub
  | |- all_finite (vmul _ _) => apply all_finite_vmul
  | |- all_finite (smul _ _) => apply all_finite_smul
  | |- all_finite (matT_vec _ _ _) => apply all_finite_matT_vec
  end.

Ltac finite_tac := repeat finite_step.

Section FiniteValues.
Local Open Scope num_scope.

Lemma all_finite_hamilton (pw px py pz qw qx qy qz : xreal) :
  finite pw → finite px → finite py → finite pz →
  finite qw → finite qx → finite qy → finite qz →
  all_finite (hamilton pw px py pz qw qx qy qz).
Proof. intros. unfold hamilton. finite_tac. Qed.

Lemma all_finite_gradient_IMU (qw qx qy qz a0 a1 a2 : xreal) :
  finite qw → finite qx → finite qy → finite qz →
  finite a0 → finite a1 → finite a2 →
  all_finite (gradient_IMU qw qx qy qz a0 a1 a2).
Proof.
  intros. unfold gradient_IMU, J_IMU, F_IMU. finite_tac.
Qed.

Lemma all_finite_gradient_MARG (qw qx qy qz a0 a1 a2 m0 m1 m2 : xreal) :
  finite qw → finite qx → finite qy → finite qz →
  finite a0 → finite a1 → finite a2 →
  finite m0 → finite m1 → finite m2 →
  all_finite (gradient_MARG qw qx qy qz a0 a1 a2 m0 m1 m2).
Proof.
  intros. unfold gradient_MARG, h_MARG, hamilton, J_MARG, F_MARG. finite_tac.
Qed.

Lemma all_finite_q_raw (beta samplePeriod qw qx qy qz g0 g1 g2 : xreal)
    (step : list xreal) :
  finite beta → finite samplePeriod →
  finite qw → finite qx → finite qy → finite qz →
  finite g0 → finite g1 → finite g2 → all_finite step →
  all_finite (q_raw beta samplePeriod qw qx qy qz g0 g1 g2 step).
Proof. intros. unfold q_raw, hamilton. finite_tac. Qed.

End FiniteValues.

(** ** The unit-norm invariant *)

Section UnitNormInvariant.
Local Open Scope num_scope.

(** The renormalised quaternion has norm one as soon as the values that
    enter the integration are finite and the integrated quaternion is not
    zero. *)
Lemma norm_q_next (beta samplePeriod qw qx qy qz g0 g1 g2 : xreal)
    (step : list xreal) :
  finite beta → finite samplePeriod →
  finite qw → finite qx → finite qy → finite qz →
  finite g0 → finite g1 → finite g2 → all_finite step →
  is_zero (norm (q_raw beta samplePeriod qw qx qy qz g0 g1 g2 step)) = false →
  norm (q_next beta samplePeriod qw qx qy qz g0 g1 g2 step) = one.
Proof.
  intros. unfold q_next. apply norm_normalize; [|done].
  by apply all_finite_q_raw.
Qed.

(** C2: for finite inputs on which no normalisation of the update meets a
    zero norm (accelerometer, magnetometer, prior quaternion, descent
    direction, integrated quaternion), [updateIMU] and [updateMARG] return
    a quaternion of norm one, whether or not the prior quaternion had norm
    one. *)
Theorem returned_quaternion_has_unit_norm :
  (∀ (self kwargs : gmap string xreal) (g a q : loc)
     (beta samplePeriod q0 q1 q2 q3 a0 a1 a2 g0 g1 g2 : R)
     (h : gmap loc (list xreal)),
      (kwargs ∪ self) !! "beta" = Some (Fin beta) →
      (kwargs ∪ self) !! "samplePeriod" = Some (Fin samplePeriod) →
      a ≠ q → g ≠ a → g ≠ q →
      h !! g = Some [Fin g0; Fin g1; Fin g2] →
      h !! a = Some [Fin a0; Fin a1; Fin a2] →
      h !! q = Some [Fin q0; Fin q1; Fin q2; Fin q3] →
      let a_norm := norm [Fin a0; Fin a1; Fin a2] in
      let q_norm := norm [Fin q0; Fin q1; Fin q2; Fin q3] in
      let qw := Fin q0 / q_norm in let qx := Fin q1 / q_norm in
      let qy := Fin q2 / q_norm in let qz := Fin q3 / q_norm in
      let ax := Fin a0 / a_norm in let ay := Fin a1 / a_norm in
      let az := Fin a2 / a_norm in
      is_zero a_norm = false →
      is_zero q_norm = false →
      is_zero (norm (gradient_IMU qw qx qy qz ax ay az)) = false →
      is_zero (norm (q_raw (Fin beta) (Fin samplePeriod) qw qx qy qz
                       (Fin g0) (Fin g1) (Fin g2)
                       (step_IMU qw qx qy qz ax ay az))) = false →
      ∃ h' v, updateIMU self g a q kwargs h = Returned q h'
              ∧ h' !! q = Some v ∧ norm v = one) ∧
  (∀ (self kwargs : gmap string xreal) (g a m q : loc)
     (beta samplePeriod q0 q1 q2 q3 a0 a1 a2 m0 m1 m2 g0 g1 g2 : R)
     (h : gmap loc (list xreal)),
      (kwargs ∪ self) !! "beta" = Some (Fin beta) →
      (kwargs ∪ self) !! "samplePeriod" = Some (Fin samplePeriod) →
      a ≠ m → a ≠ q → m ≠ q → g ≠ a → g ≠ m → g ≠ q →
      h !! g = Some [Fin g0; Fin g1; Fin g2] →
      h !! a = Some [Fin a0; Fin a1; Fin a2] →
      h !! m = Some [Fin m0; Fin m1; Fin m2] →
      h !! q = Some [Fin q0; Fin q1; Fin q2; Fin q3] →
      let a_norm := norm [Fin a0; Fin a1; Fin a2] in
      let m_norm := norm [Fin m0; Fin m1; Fin m2] in
      let q_norm := norm [Fin q0; Fin q1; Fin q2; Fin q3] in
      let qw := Fin q0 / q_norm in let qx := Fin q1 / q_norm in
      let qy := Fin q2 / q_norm in let qz := Fin q3 / q_norm in
      let ax := Fin a0 / a_norm in let ay := Fin a1 / a_norm in
      let az := Fin a2 / a_norm in
      let mx := Fin m0 / m_norm in let my := Fin m1 / m_norm in
      let mz := Fin m2 / m_norm in
      is_zero a_norm = false →
      is_zero m_norm = false →
      is_zero q_norm = false →
      is_zero (norm (gradient_MARG qw qx qy qz ax ay az mx my mz)) = false →
      is_zero (norm (q_raw (Fin beta) (Fin samplePeriod) qw qx qy qz
                       (Fin g0) (Fin g1) (Fin g2)
                       (step_MARG qw qx qy qz ax ay az mx my mz))) = false →
      ∃ h' v, updateMARG self g a m q kwargs h = Returned q h'
              ∧ h' !! q = Some v ∧ norm v = one).
Proof.
  split.
  - intros * Hb Hs Haq Hga Hgq Hg Ha Hq.
    intros a_norm q_norm qw qx qy qz ax ay az Hza Hzq Hzs Hzr.
    assert (finite a_norm) by (unfold a_norm; finite_tac).
    assert (finite q_norm) by (unfold q_norm; finite_tac).
    do 2 eexists. split; [by eapply run_updateIMU|].
    split; [apply lookup_insert_eq|].
    apply norm_q_next; try done; try (unfold qw, qx, qy, qz; by finite_tac).
    change (all_finite (vdiv (gradient_IMU qw qx qy qz ax ay az)
                          (norm (gradient_IMU qw qx qy qz ax ay az)))).
    apply all_finite_vdiv; [|apply finite_norm|done];
      apply all_finite_gradient_IMU;
      unfold qw, qx, qy, qz, ax, ay, az; by finite_tac.
  - intros * Hb Hs Ham Haq Hmq Hga Hgm Hgq Hg Ha Hm Hq.
    intros a_norm m_norm q_norm qw qx qy qz ax ay az mx my mz.
    intros Hza Hzm Hzq Hzs Hzr.
    assert (finite a_norm) by (unfold a_norm; finite_tac).
    assert (finite m_norm) by (unfold m_norm; finite_tac).
    assert (finite q_norm) by (unfold q_norm; finite_tac).
    do 2 eexists. split; [by eapply run_updateMARG|].
    split; [apply lookup_insert_eq|].
    apply norm_q_next; try done; try (unfold qw, qx, qy, qz; by finite_tac).
    change (all_finite (vdiv (gradient_MARG qw qx qy qz ax ay az mx my mz)
                          (norm (gradient_MARG qw qx qy qz ax ay az mx my mz)))).
    apply all_finite_vdiv; [|apply finite_norm|done];
      apply all_finite_gradient_MARG;
      unfold qw, qx, qy, qz, ax, ay, az, mx, my, mz; by finite_tac.
Qed.
End UnitNormInvariant.

(** ** A small gain keeps the integrated quaternion away from zero *)

Section SmallGain.
Local Open Scope R_scope.

Lemma norm_one_Rdot (l : list R) : norm (Fin <$> l) = Fin 1 → Rdot l l = 1.
Proof.
  rewrite norm_Fin. intros [= Hs].
  rewrite <- (sqrt_sqrt (Rdot l l)) by apply Rdot_nonneg.
  rewrite Hs. ring.
Qed.

Lemma sum_squares_zero (u0 u1 u2 u3 : R) :
  0 + u0 * u0 + u1 * u1 + u2 * u2 + u3 * u3 = 0 →
  u0 = 0 ∧ u1 = 0 ∧ u2 = 0 ∧ u3 = 0.
Proof. intros Hu. repeat split; nra. Qed.

(** When the product of the gain and the sample period is below one in
    absolute value, a unit quaternion moved along the gyroscope rate and
    against a unit step is never the zero quaternion. *)
Lemma small_gain_q_raw (beta samplePeriod g0 g1 g2 : R)
    (qw qx qy qz : xreal) (step : list xreal) :
  all_finite [qw; qx; qy; qz] → norm [qw; qx; qy; qz] = Fin 1 →
  all_finite step → norm step = Fin 1 → length step = 4%nat →
  (beta * samplePeriod) * (beta * samplePeriod) < 1 →
  is_zero (norm (q_raw (Fin beta) (Fin samplePeriod) qw qx qy qz
                   (Fin g0) (Fin g1) (Fin g2) step)) = false.
Proof.
  intros Hq Hqn Hs Hsn Hlen Hgain.
  apply all_finite_reals in Hq as [lq Hlq].
  destruct lq as [|r0 [|r1 [|r2 [|r3 [|]]]]]; try discriminate Hlq.
  injection Hlq as -> -> -> ->.
  apply all_finite_reals in Hs as [ls ->].
  rewrite length_fmap in Hlen.
  destruct ls as [|s0 [|s1 [|s2 [|s3 [|]]]]]; try discriminate Hlen.
  apply (norm_one_Rdot [r0; r1; r2; r3]) in Hqn.
  apply (norm_one_Rdot [s0; s1; s2; s3]) in Hsn.
  unfold Rdot in Hqn, Hsn. simpl in Hqn, Hsn.
  match goal with
  | |- is_zero (norm ?v) = false => let v' := eval cbn in v in change v with v'
  end.
  apply (is_zero_norm_Fin [_; _; _; _]).
  unfold Rdot. cbn [zip zip_with foldl fst snd].
  intros (U0 & U1 & U2 & U3)%sum_squares_zero.
  set (p0 := r0 * 0 - r1 * g0 - r2 * g1 - r3 * g2) in *.
  set (p1 := r0 * g0 + r1 * 0 + r2 * g2 - r3 * g1) in *.
  set (p2 := r0 * g1 - r1 * g2 + r2 * 0 + r3 * g0) in *.
  set (p3 := r0 * g2 + r1 * g1 - r2 * g0 + r3 * 0) in *.
  set (k := beta * samplePeriod) in *.
  assert (r0 + samplePeriod / 2 * p0 = k * s0) as E0
    by (rewrite <- (Rplus_0_r (k * s0)), <- U0; unfold k; field).
  assert (r1 + samplePeriod / 2 * p1 = k * s1) as E1
    by (rewrite <- (Rplus_0_r (k * s1)), <- U1; unfold k; field).
  assert (r2 + samplePeriod / 2 * p2 = k * s2) as E2
    by (rewrite <- (Rplus_0_r (k * s2)), <- U2; unfold k; field).
  assert (r3 + samplePeriod / 2 * p3 = k * s3) as E3
    by (rewrite <- (Rplus_0_r (k * s3)), <- U3; unfold k; field).
  assert ((r0 + samplePeriod / 2 * p0) * (r0 + samplePeriod / 2 * p0)
          + (r1 + samplePeriod / 2 * p1) * (r1 + samplePeriod / 2 * p1)
          + (r2 + samplePeriod / 2 * p2) * (r2 + samplePeriod / 2 * p2)
          + (r3 + samplePeriod / 2 * p3) * (r3 + samplePeriod / 2 * p3)
          = k * k * (0 + s0 * s0 + s1 * s1 + s2 * s2 + s3 * s3)) as Hy
    by (rewrite E0, E1, E2, E3; ring).
  assert ((r0 + samplePeriod / 2 * p0) * (r0 + samplePeriod / 2 * p0)
          + (r1 + samplePeriod / 2 * p1) * (r1 + samplePeriod / 2 * p1)
          + (r2 + samplePeriod / 2 * p2) * (r2 + samplePeriod / 2 * p2)
          + (r3 + samplePeriod / 2 * p3) * (r3 + samplePeriod / 2 * p3)
          = (0 + r0 * r0 + r1 * r1 + r2 * r2 + r3 * r3)
            + (samplePeriod / 2) * (samplePeriod / 2)
              * (p0 * p0 + p1 * p1 + p2 * p2 + p3 * p3)) as Hx
    by (unfold p0, p1, p2, p3; field).
  rewrite Hx, Hqn, Hsn in Hy.
  assert (0 <= (samplePeriod / 2) * (samplePeriod / 2)
               * (p0 * p0 + p1 * p1 + p2 * p2 + p3 * p3)) as Hp.
  { apply Rmult_le_pos; nra. }
  lra.
Qed.

Lemma small_gain_IMU (beta samplePeriod q0 q1 q2 q3 a0 a1 a2 g0 g1 g2 : R) :
  let a_norm := norm [Fin a0; Fin a1; Fin a2] in
  let q_norm := norm [Fin q0; Fin q1; Fin q2; Fin q3] in
  let qw := ndiv (Fin q0) q_norm in let qx := ndiv (Fin q1) q_norm in
  let qy := ndiv (Fin q2) q_norm in let qz := ndiv (Fin q3) q_norm in
  let ax := ndiv (Fin a0) a_norm in let ay := ndiv (Fin a1) a_norm in
  let az := ndiv (Fin a2) a_norm in
  is_zero a_norm = false →
  is_zero q_norm = false →
  is_zero (norm (gradient_IMU qw qx qy qz ax ay az)) = false →
  (beta * samplePeriod) * (beta * samplePeriod) < 1 →
  is_zero (norm (q_raw (Fin beta) (Fin samplePeriod) qw qx qy qz
                   (Fin g0) (Fin g1) (Fin g2)
                   (step_IMU qw qx qy qz ax ay az))) = false.
Proof.
  intros a_norm q_norm qw qx qy qz ax ay az Hza Hzq Hzs Hgain.
  assert (finite a_norm) by (unfold a_norm; finite_tac).
  assert (finite q_norm) by (unfold q_norm; finite_tac).
  destruct (norm_normalize [Fin q0; Fin q1; Fin q2; Fin q3]) as [Hq Hqn];
    [finite_tac | done |].
  destruct (norm_normalize (gradient_IMU qw qx qy qz ax ay az)) as [Hs Hsn];
    [|done|].
  { apply all_finite_gradient_IMU;
      unfold qw, qx, qy, qz, ax, ay, az; by finite_tac. }
  by apply small_gain_q_raw.
Qed.

Lemma small_gain_MARG
    (beta samplePeriod q0 q1 q2 q3 a0 a1 a2 m0 m1 m2 g0 g1 g2 : R) :
  let a_norm := norm [Fin a0; Fin a1; Fin a2] in
  let m_norm := norm [Fin m0; Fin m1; Fin m2] in
  let q_norm := norm [Fin q0; Fin q1; Fin q2; Fin q3] in
  let qw := ndiv (Fin q0) q_norm in let qx := ndiv (Fin q1) q_norm in
  let qy := ndiv (Fin q2) q_norm in let qz := ndiv (Fin q3) q_norm in
  let ax := ndiv (Fin a0) a_norm in let ay := ndiv (Fin a1) a_norm in
  let az := ndiv (Fin a2) a_norm in
  let mx := ndiv (Fin m0) m_norm in let my := ndiv (Fin m1) m_norm in
  let mz := ndiv (Fin m2) m_norm in
  is_zero a_norm = false →
  is_zero m_norm = false →
  is_zero q_norm = false →
  is_zero (norm (gradient_MARG qw qx qy qz ax ay az mx my mz)) = false →
  (beta * samplePeriod) * (beta * samplePeriod) < 1 →
  is_zero (norm (q_raw (Fin beta) (Fin samplePeriod) qw qx qy qz
                   (Fin g0) (Fin g1) (Fin g2)
                   (step_MARG qw qx qy qz ax ay az mx my mz))) = false.
Proof.
  intros a_norm m_norm q_norm qw qx qy qz ax ay az mx my mz.
  intros Hza Hzm Hzq Hzs Hgain.
  assert (finite a_norm) by (unfold a_norm; finite_tac).
  assert (finite m_norm) by (unfold m_norm; finite_tac).
  assert (finite q_norm) by (unfold q_norm; finite_tac).
  destruct (norm_normalize [Fin q0; Fin q1; Fin q2; Fin q3]) as [Hq Hqn];
    [finite_tac | done |].
  destruct (norm_normalize (gradient_MARG qw qx qy qz ax ay az mx my mz))
    as [Hs Hsn]; [|done|].
  { apply all_finite_gradient_MARG;
      unfold qw, qx, qy, qz, ax, ay, az, mx, my, mz; by finite_tac. }
  by apply small_gain_q_raw.
Qed.
End SmallGain.

(** ** Scale invariance *)

Section Scaling.
Local Open Scope R_scope.

Lemma foldl_dot_NaN (l : list (xreal * xreal)) :
  foldl (fun s p => nadd s (nmul p.1 p.2)) NaN l = NaN.
Proof. induction l as [|p l IH]; [reflexivity | exact IH]. Qed.

Lemma foldl_dot_not_finite (v : list xreal) (acc : xreal) :
  ¬ all_finite v →
  foldl (fun s p => nadd s (nmul p.1 p.2)) acc (zip v v) = NaN.
Proof.
  revert acc. induction v as [|x v IH]; intros acc Hv.
  - destruct Hv. constructor.
  - simpl. destruct x as [r|].
    + apply IH. intros Hf. apply Hv. by constructor.
    + destruct acc; apply foldl_dot_NaN.
Qed.

Lemma norm_not_finite (v : list xreal) : ¬ all_finite v → norm v = NaN.
Proof.
  intros Hv. unfold norm, dot. by rewrite foldl_dot_not_finite.
Qed.

Lemma vdiv_NaN (v : list xreal) : vdiv v NaN = replicate (length v) NaN.
Proof.
  induction v as [|x v IH]; [reflexivity|]. simpl. f_equal; [|exact IH].
  by destruct x.
Qed.

Lemma smul_Fin (c : R) (l : list R) :
  smul (Fin c) (Fin <$> l) = Fin <$> ((fun x => x * c) <$> l).
Proof.
  unfold smul. rewrite <- !list_fmap_compose. apply list_fmap_ext.
  intros _ x _. simpl. f_equal. ring.
Qed.

Lemma smul_all_finite (c : R) (v : list xreal) :
  all_finite (smul (Fin c) v) → all_finite v.
Proof.
  unfold smul, all_finite. rewrite Forall_fmap. intros Hf.
  eapply Forall_impl; [exact Hf|]. intros x. by destruct x.
Qed.

Lemma Rdot_zero (l : list R) : Rdot l l = 0 → Forall (fun x => x = 0) l.
Proof.
  unfold Rdot. induction l as [|x l IH]; intros Hl; [constructor|].
  simpl in Hl.
  pose proof (foldl_sq_nonneg l (0 + x * x)) as Hle.
  assert (x = 0) as -> by nra.
  constructor; [reflexivity|]. apply IH.
  replace (0 + 0 * 0) with 0 in Hl by ring. exact Hl.
Qed.

Lemma all_finite_or_not (v : list xreal) : all_finite v ∨ ¬ all_finite v.
Proof.
  induction v as [|x v [IH | IH]].
  - left. constructor.
  - destruct x as [r|].
    + left. by constructor.
    + right. intros Hf. by inversion Hf.
  - right. intros Hf. apply IH. by inversion Hf.
Qed.

(** Normalisation does not see a positive factor: the zero test gives the
    same answer, the normalised vectors agree, and a vector that fails the
    zero test is unchanged by the factor. *)
Lemma normalize_scale (c : R) (v : list xreal) :
  0 < c →
  is_zero (norm (smul (Fin c) v)) = is_zero (norm v)
  ∧ (is_zero (norm v) = false →
     vdiv (smul (Fin c) v) (norm (smul (Fin c) v)) = vdiv v (norm v))
  ∧ (is_zero (norm v) = true → smul (Fin c) v = v).
Proof.
  intros Hc. destruct (all_finite_or_not v) as [Hv | Hv].
  - apply all_finite_reals in Hv as [l ->].
    pose proof (Rdot_nonneg l) as Hl.
    pose proof (sqrt_pos (Rdot l l)) as Hs.
    assert (norm (smul (Fin c) (Fin <$> l))
            = Fin (R_sqrt.sqrt (Rdot l l) * c)) as Hn.
    { rewrite smul_Fin, norm_Fin, Rdot_scale. f_equal.
      rewrite sqrt_mult by nra. f_equal. apply sqrt_square. lra. }
    rewrite Hn, norm_Fin. simpl.
    destruct (Req_dec_T (R_sqrt.sqrt (Rdot l l)) 0) as [Hz | Hz].
    + rewrite Hz, Rmult_0_l.
      destruct (Req_dec_T 0 0) as [_|]; [|done].
      split; [done|]. split; [done|]. intros _.
      apply sqrt_eq_0 in Hz; [|done]. apply Rdot_zero in Hz.
      rewrite smul_Fin. f_equal. clear Hl Hs Hn.
      induction Hz as [|x l -> _ IH]; [reflexivity|].
      simpl. f_equal; [ring | exact IH].
    + destruct (Req_dec_T (R_sqrt.sqrt (Rdot l l) * c) 0) as [Hz' | Hz'].
      { exfalso. apply Rmult_integral in Hz'. lra. }
      split; [done|]. split; [|done]. intros _.
      rewrite smul_Fin.
      rewrite (vdiv_Fin _ _ Hz'), (vdiv_Fin _ _ Hz). f_equal.
      rewrite <- list_fmap_compose. apply list_fmap_ext.
      intros _ x _. simpl. field. repeat split; (assumption || lra).
  - assert (¬ all_finite (smul (Fin c) v)) as Hv'
      by (intros Hf; by apply Hv, (smul_all_finite c)).
    rewrite !norm_not_finite by done. simpl.
    split; [done|]. split; [|done]. intros _.
    rewrite !vdiv_NaN. unfold smul. by rewrite length_fmap.
Qed.

Lemma updateIMU_scale (kw0 kwargs : gmap string xreal) (g a q : loc)
    (c : R) (va : list xreal) (h : gmap loc (list xreal)) :
  0 < c → h !! a = Some va →
  updateIMU (init kw0) g a q kwargs (<[a := smul (Fin c) va]> h)
  = updateIMU (init kw0) g a q kwargs h.
Proof.
  intros Hc Ha. destruct (normalize_scale c va Hc) as (Hz & Hnz & Hzero).
  destruct (init_has_param kw0 kwargs "beta") as [b Hb]; [by left|].
  destruct (init_has_param kw0 kwargs "samplePeriod") as [s Hs]; [by right|].
  unfold updateIMU.
  rewrite !run_bind, !(run_param _ _ _ _ _ Hb).
  rewrite !run_bind, !(run_param _ _ _ _ _ Hs).
  rewrite !run_bind, (run_linalg_norm _ _ _ Ha),
    (run_linalg_norm _ _ _ (lookup_insert_eq _ _ _)), Hz.
  destruct (is_zero (norm va)) eqn:Hza.
  - rewrite Hzero by done. by rewrite (insert_id _ _ _ Ha).
  - rewrite !run_bind, (run_idiv _ _ _ _ Ha),
      (run_idiv _ _ _ _ (lookup_insert_eq _ _ _)).
    rewrite Hnz by done. by rewrite insert_insert_eq.
Qed.

(** C8: scaling the accelerometer sample (and, for [updateMARG], the
    magnetometer sample) by positive constants does not change the
    quaternion a call returns, all other arguments being equal. *)
Theorem positive_scaling_is_invisible :
  (∀ (kw0 kwargs : gmap string xreal) (g a q : loc) (c : R)
     (va : list xreal) (h : gmap loc (list xreal)),
      0 < c → h !! a = Some va →
      returned_array
        (updateIMU (init kw0) g a q kwargs (<[a := smul (Fin c) va]> h))
      = returned_array (updateIMU (init kw0) g a q kwargs h)) ∧
  (∀ (kw0 kwargs : gmap string xreal) (g a m q : loc) (ca cm : R)
     (va vm : list xreal) (h : gmap loc (list xreal)),
      0 < ca → 0 < cm → a ≠ m → a ≠ q → m ≠ q →
      h !! a = Some va → h !! m = Some vm →
      returned_array
        (updateMARG (init kw0) g a m q kwargs
           (<[m := smul (Fin cm) vm]> (<[a := smul (Fin ca) va]> h)))
      = returned_array (updateMARG (init kw0) g a m q kwargs h)).
Proof.
  split.
  - intros * Hc Ha. by rewrite updateIMU_scale.
  - intros * Hca Hcm Ham Haq Hmq Ha Hm.
    destruct (normalize_scale ca va Hca) as (Hza & Hnza & _).
    destruct (normalize_scale cm vm Hcm) as (Hzm & Hnzm & _).
    destruct (init_has_param kw0 kwargs "beta") as [b Hb]; [by left|].
    destruct (init_has_param kw0 kwargs "samplePeriod") as [s Hs]; [by right|].
    set (h0 := <[m := smul (Fin cm) vm]> (<[a := smul (Fin ca) va]> h)).
    assert (h0 !! a = Some (smul (Fin ca) va)) as Ha0.
    { unfold h0. rewrite lookup_insert_ne by done. apply lookup_insert_eq. }
    assert (h0 !! q = h !! q) as Hq0
      by (unfold h0; by rewrite !lookup_insert_ne).
    unfold updateMARG.
    rewrite !run_bind, !(run_param _ _ _ _ _ Hb).
    rewrite !run_bind, !(run_param _ _ _ _ _ Hs).
    rewrite !run_bind, (run_linalg_norm _ _ _ Ha), (run_linalg_norm _ _ _ Ha0), Hza.
    destruct (is_zero (norm va)) eqn:Ea; [exact Hq0|].
    rewrite !run_bind, (run_idiv _ _ _ _ Ha), (run_idiv _ _ _ _ Ha0).
    rewrite Hnza by done.
    set (an := vdiv va (norm va)).
    assert (<[a := an]> h0 !! m = Some (smul (Fin cm) vm)) as Hm1.
    { unfold h0. rewrite lookup_insert_ne by done. apply lookup_insert_eq. }
    assert (<[a := an]> h !! m = Some vm) as Hm2
      by (by rewrite lookup_insert_ne).
    rewrite !run_bind, (run_linalg_norm _ _ _ Hm1), (run_linalg_norm _ _ _ Hm2), Hzm.
    destruct (is_zero (norm vm)) eqn:Em.
    { simpl. by rewrite !lookup_insert_ne. }
    rewrite !run_bind, (run_idiv _ _ _ _ Hm1), (run_idiv _ _ _ _ Hm2).
    rewrite Hnzm by done.
    assert (<[m := vdiv vm (norm vm)]> (<[a := an]> h0)
            = <[m := vdiv vm (norm vm)]> (<[a := an]> h)) as ->; [|done].
    apply map_eq. intros r. unfold h0.
    rewrite !lookup_insert. repeat case_decide; congruence.
Qed.
End Scaling.

(** ** The error vector and the Jacobian of [updateIMU] *)

Section Jacobian.
Local Open Scope R_scope.

Lemma derivable_pt_lim_value (f : R → R) (x l l' : R) :
  derivable_pt_lim f x l' → l' = l → derivable_pt_lim f x l.
Proof. by intros Hf <-. Qed.

(** The derivative of a polynomial expression, rule by rule. *)
Ltac derive_step :=
  lazymatch goal with
  | |- derivable_pt_lim (fun _ => ?c) _ _ => apply derivable_pt_lim_const
  | |- derivable_pt_lim (fun t => t) _ _ => apply derivable_pt_lim_id
  | |- derivable_pt_lim (fun t => @?f t + @?g t) ?x _ =>
      apply (derivable_pt_lim_plus f g x)
  | |- derivable_pt_lim (fun t => @?f t - @?g t) ?x _ =>
      apply (derivable_pt_lim_minus f g x)
  | |- derivable_pt_lim (fun t => @?f t * @?g t) ?x _ =>
      apply (derivable_pt_lim_mult f g x)
  end.

Ltac derive :=
  cbn [pow];
  eapply derivable_pt_lim_value; [repeat derive_step | cbn beta; ring].

(** C5: on real entries, [F] of [updateIMU] is the predicted gravity
    direction minus the normalised accelerometer sample,
    [[2(qx qz - qw qy) - ax, 2(qw qx + qy qz) - ay, 2(0.5 - qx² - qy²) - az]],
    and [J] is the 3-by-4 matrix of the partial derivatives of the
    gravity-prediction map with respect to [(qw, qx, qy, qz)]. *)
Theorem error_vector_and_jacobian (qw qx qy qz ax ay az : R) :
  F_IMU (Fin qw) (Fin qx) (Fin qy) (Fin qz) (Fin ax) (Fin ay) (Fin az)
  = [ Fin (2 * (qx * qz - qw * qy) - ax);
      Fin (2 * (qw * qx + qy * qz) - ay);
      Fin (2 * (1 / 2 - qx ^ 2 - qy ^ 2) - az) ]
  ∧ ∃ J : list (list R),
      J_IMU (Fin qw) (Fin qx) (Fin qy) (Fin qz) = map (map Fin) J
      ∧ is_jacobian gravity_prediction [qw; qx; qy; qz] J.
Proof.
  split.
  - unfold F_IMU. cbn. repeat f_equal; ring.
  - eexists [[_; _; _; _]; [_; _; _; _]; [_; _; _; _]].
    split; [unfold J_IMU; cbn; reflexivity|].
    split; [reflexivity|].
    intros [|[|[|i]]] row Hrow; simplify_eq/=; (split; [reflexivity|]);
      intros [|[|[|[|j]]]] d Hd; simplify_eq/=; derive.
Qed.
End Jacobian.

(** ** A zero descent direction *)

Section ZeroStep.

Lemma is_zero_true (x : xreal) : is_zero x = true → x = Fin 0.
Proof.
  destruct x as [r|]; simpl; [|discriminate].
  destruct (Req_dec_T r 0) as [-> |]; [reflexivity | discriminate].
Qed.

Lemma vdiv_zero (v : list xreal) : vdiv v (Fin 0) = replicate (length v) NaN.
Proof.
  induction v as [|x v IH]; [reflexivity|]. simpl. f_equal; [|exact IH].
  destruct x as [r|]; [|reflexivity]. simpl.
  destruct (Req_dec_T 0 0); [reflexivity | contradiction].
Qed.

Lemma nadd_NaN_r (x : xreal) : nadd x NaN = NaN.
Proof. by destruct x. Qed.

Lemma nsub_NaN_r (x : xreal) : nsub x NaN = NaN.
Proof. by destruct x. Qed.

Lemma nmul_NaN_r (x : xreal) : nmul x NaN = NaN.
Proof. by destruct x. Qed.

(** Integration against a step of undefined entries leaves only undefined
    entries. *)
Lemma q_next_NaN (beta samplePeriod qw qx qy qz g0 g1 g2 : xreal) :
  q_next beta samplePeriod qw qx qy qz g0 g1 g2 [NaN; NaN; NaN; NaN]
  = [NaN; NaN; NaN; NaN].
Proof.
  unfold q_next, q_raw, hamilton.
  cbn [vsub vadd vmul smul zip_with fmap list_fmap].
  rewrite !nmul_NaN_r, !nsub_NaN_r. cbn [nmul xreal_Number xlift2].
  rewrite !nadd_NaN_r. reflexivity.
Qed.

(** Whenever the descent direction [J.T@F] has zero norm, the unguarded
    division [step /= np.linalg.norm(step)] makes every entry of the
    returned quaternion undefined, for every input and not only at the
    one evaluated in binary64 below. *)
Lemma zero_gradient_gives_NaN_IMU (self kwargs : gmap string xreal)
    (g a q : loc)
    (beta samplePeriod q0 q1 q2 q3 a0 a1 a2 g0 g1 g2 : xreal)
    (h : gmap loc (list xreal)) :
  (kwargs ∪ self) !! "beta" = Some beta →
  (kwargs ∪ self) !! "samplePeriod" = Some samplePeriod →
  a ≠ q → g ≠ a → g ≠ q →
  h !! g = Some [g0; g1; g2] →
  h !! a = Some [a0; a1; a2] →
  h !! q = Some [q0; q1; q2; q3] →
  is_zero (norm [a0; a1; a2]) = false →
  let a_norm := norm [a0; a1; a2] in
  let q_norm := norm [q0; q1; q2; q3] in
  is_zero (norm (gradient_IMU
                   (ndiv q0 q_norm) (ndiv q1 q_norm) (ndiv q2 q_norm)
                   (ndiv q3 q_norm)
                   (ndiv a0 a_norm) (ndiv a1 a_norm) (ndiv a2 a_norm))) = true →
  updateIMU self g a q kwargs h
  = Returned q (<[q := [NaN; NaN; NaN; NaN]]>
                  (<[a := normalize [a0; a1; a2]]> h)).
Proof.
  intros Hb Hs Haq Hga Hgq Hg Ha Hq Hza a_norm q_norm Hz.
  rewrite (run_updateIMU _ _ _ _ _ _ _ _ _ _ _ _ _ _ _ _ _ _
             Hb Hs Haq Hga Hgq Hg Ha Hq Hza).
  do 2 f_equal. fold a_norm q_norm.
  change (step_IMU ?qw ?qx ?qy ?qz ?ax ?ay ?az)
    with (vdiv (gradient_IMU qw qx qy qz ax ay az)
               (norm (gradient_IMU qw qx qy qz ax ay az))).
  rewrite (is_zero_true _ Hz), vdiv_zero. apply q_next_NaN.
Qed.

Lemma zero_gradient_gives_NaN_MARG (self kwargs : gmap string xreal)
    (g a m q : loc)
    (beta samplePeriod q0 q1 q2 q3 a0 a1 a2 m0 m1 m2 g0 g1 g2 : xreal)
    (h : gmap loc (list xreal)) :
  (kwargs ∪ self) !! "beta" = Some beta →
  (kwargs ∪ self) !! "samplePeriod" = Some samplePeriod →
  a ≠ m → a ≠ q → m ≠ q → g ≠ a → g ≠ m → g ≠ q →
  h !! g = Some [g0; g1; g2] →
  h !! a = Some [a0; a1; a2] →
  h !! m = Some [m0; m1; m2] →
  h !! q = Some [q0; q1; q2; q3] →
  is_zero (norm [a0; a1; a2]) = false →
  is_zero (norm [m0; m1; m2]) = false →
  let a_norm := norm [a0; a1; a2] in
  let m_norm := norm [m0; m1; m2] in
  let q_norm := norm [q0; q1; q2; q3] in
  is_zero (norm (gradient_MARG
                   (ndiv q0 q_norm) (ndiv q1 q_norm) (ndiv q2 q_norm)
                   (ndiv q3 q_norm)
                   (ndiv a0 a_norm) (ndiv a1 a_norm) (ndiv a2 a_norm)
                   (ndiv m0 m_norm) (ndiv m1 m_norm) (ndiv m2 m_norm))) = true →
  updateMARG self g a m q kwargs h
  = Returned q (<[q := [NaN; NaN; NaN; NaN]]>
                  (<[m := normalize [m0; m1; m2]]>
                     (<[a := normalize [a0; a1; a2]]> h))).
Proof.
  intros Hb Hs Ham Haq Hmq Hga Hgm Hgq Hg Ha Hm Hq Hza Hzm.
  intros a_norm m_norm q_norm Hz.
  rewrite (run_updateMARG _ _ _ _ _ _ _ _ _ _ _ _ _ _ _ _ _ _ _ _ _ _
             Hb Hs Ham Haq Hmq Hga Hgm Hgq Hg Ha Hm Hq Hza Hzm).
  do 2 f_equal. fold a_norm m_norm q_norm.
  change (step_MARG ?qw ?qx ?qy ?qz ?ax ?ay ?az ?mx ?my ?mz)
    with (vdiv (gradient_MARG qw qx qy qz ax ay az mx my mz)
               (norm (gradient_MARG qw qx qy qz ax ay az mx my mz))).
  rewrite (is_zero_true _ Hz), vdiv_zero. apply q_next_NaN.
Qed.
End ZeroStep.

(** ** Calls evaluated in binary64 *)

Section Binary64.
Import Examples.
Local Open Scope float_scope.
#[local] Set Warnings "-inexact-float".

(** An ordinary call: what [updateIMU] leaves in the store for {!sample},
    and a call with the magnetometer dropped out. *)
Example updateIMU_sample :
  updateIMU (init ∅) g a q ∅ sample
  = Returned q
      (store [0.5; 0.25; 0.125]
             [0.59999999999999998; 0; 0.80000000000000004]
             [2; 0; 0]
             [0.99999948859254006; 0.00097656200057865241;
              9.7656200057865214e-05; 0.0002441405001446631]).
Proof. vm_compute. reflexivity. Qed.

Example updateMARG_no_mag :
  updateMARG (init ∅) g a m q ∅ no_mag
  = Returned q (store [0.5; 0.25; 0.125] [0; 0; 1] [0; 0; 0] [2; 0; 0; 0]).
Proof. vm_compute. reflexivity. Qed.

(** In binary64 the unit norm of the result holds up to rounding: here the
    norm of the returned quaternion is one unit in the last place below 1. *)
Example updateIMU_sample_norm :
  norm <$> returned_array (updateIMU (init ∅) g a q ∅ sample)
  = Some 0.99999999999999989.
Proof. vm_compute. reflexivity. Qed.

(** The accelerometer sample of {!sample} scaled by 0.3 gives the same
    quaternion, entry for entry. *)
Example updateIMU_sample_scaled :
  returned_array (updateIMU (init ∅) g a q ∅ (<[a := [0.9; 0; 1.2]]> sample))
  = returned_array (updateIMU (init ∅) g a q ∅ sample).
Proof. vm_compute. reflexivity. Qed.

(** C1, at the input of the specification's own test: with
    [accel = [0, 0, 1]] and the identity quaternion the raw step [J.T@F]
    is zero; the code divides it by its zero norm, and returns a
    quaternion of [nan]s where gyroscope-only integration gives a finite
    one.  The same happens in [updateMARG] when the magnetometer sample
    [[1, 0, 0]] also agrees with the estimate. *)
Theorem zero_step_yields_nan :
  gradient_IMU 1 0 0 0 0 0 1 = [0; 0; 0; 0]
  ∧ gradient_MARG 1 0 0 0 0 0 1 1 0 0 = [0; 0; 0; 0]
  ∧ updateIMU (init ∅) g a q ∅ aligned
    = Returned q (<[q := [nan; nan; nan; nan]]> aligned)
  ∧ updateMARG (init ∅) g a m q ∅ aligned
    = Returned q (<[q := [nan; nan; nan; nan]]> aligned)
  ∧ gyro_integration (one / n256)%num [1; 0; 0; 0] [0.5; 0.25; 0.125]
    = [0.99999937415181739; 0.00097656188882013417;
       0.00048828094441006708; 0.00024414047220503354].
Proof. repeat split; vm_compute; reflexivity. Qed.

(** *** Counterexamples and instances of the theorems above *)

(** C4, at the identity quaternion and the magnetometer sample
    [[1, 0, 0]]: [h = [0, 1, 0, 0]], so the norm of [(hy, hz)] is 0,
    while the code's [b] has second entry 1, the norm of [(hx, hy)]. *)
Lemma reference_field_is_not_norm_of_hy_hz :
  field_h [1; 0; 0; 0] 1 0 0 ∅ = Returned [0; 1; 0; 0] ∅
  ∧ field_b [0; 1; 0; 0] ∅ = Returned [0; 1; 0; 0] ∅
  ∧ claimed_b [0; 1; 0; 0] = [0; 0; 0; 0]
  ∧ field_b [0; 1; 0; 0] ∅ ≠ Returned (claimed_b [0; 1; 0; 0]) ∅.
Proof.
  repeat split; try (vm_compute; reflexivity).
  vm_compute. discriminate.
Qed.

(** C7, at an accelerometer sample that contains [nan]: both methods
    return normally, with a quaternion of [nan]s, and raise nothing. *)
Lemma nan_input_returns_nan :
  updateIMU (init ∅) g a q ∅ corrupted
  = Returned q (<[q := [nan; nan; nan; nan]]>
                  (<[a := [nan; nan; nan]]> corrupted))
  ∧ updateMARG (init ∅) g a m q ∅ corrupted
    = Returned q (<[q := [nan; nan; nan; nan]]>
                    (<[a := [nan; nan; nan]]> corrupted))
  ∧ ¬ (∃ e h', updateIMU (init ∅) g a q ∅ corrupted = Raised e h')
  ∧ ¬ (∃ e h', updateMARG (init ∅) g a m q ∅ corrupted = Raised e h').
Proof.
  repeat split; try (vm_compute; reflexivity).
  - intros (e & h' & He). vm_compute in He. discriminate He.
  - intros (e & h' & He). vm_compute in He. discriminate He.
Qed.

(** The no-op at a sensor dropout, and with the magnetometer alone dropped
    out. *)
Lemma degenerate_reference_is_noop_witness :
  updateIMU (init ∅) g a q ∅ dropout
  = Returned q dropout
  ∧ ∃ h', updateMARG (init ∅) g a m q ∅
            no_mag = Returned q h'
          ∧ h' !! q = no_mag !! q.
Proof.
  split.
  - apply (proj1 degenerate_reference_is_noop ∅ ∅ g a
             q [0; 0; 0]); reflexivity.
  - apply (proj2 degenerate_reference_is_noop ∅ ∅ g a
             m q [0; 0; 2] [0; 0; 0]);
      try reflexivity; discriminate.
Defined.

(** The accelerometer array [[0, 0, 2]] after the early return. *)
Lemma zero_mag_leaves_accel_normalized_witness :
  ∃ h', updateMARG (init ∅) g a m q ∅
          no_mag = Returned q h'
        ∧ h' !! a = Some (vdiv [0; 0; 2] (norm [0; 0; 2]))
        ∧ ∀ r, r ≠ a → h' !! r = no_mag !! r.
Proof.
  apply (zero_mag_leaves_accel_normalized ∅ ∅ g a
           m q [0; 0; 2] [0; 0; 0]);
    try reflexivity; discriminate.
Defined.

(** The corrupted sample has the expected shapes. *)
Lemma non_finite_input_is_not_reported_witness :
  (∃ h', updateIMU (init ∅) g a q ∅ corrupted = Returned q h')
  ∧ (∃ h', updateMARG (init ∅) g a m q ∅ corrupted = Returned q h').
Proof.
  split.
  - apply (proj1 non_finite_input_is_not_reported ∅ ∅ g a q corrupted).
    repeat constructor; eexists; (split; [vm_compute|]; reflexivity).
  - apply (proj2 non_finite_input_is_not_reported ∅ ∅ g a m q corrupted).
    repeat constructor; eexists; (split; [vm_compute|]; reflexivity).
Defined.

(** The three theorems on the store, at the ordinary sample. *)
Lemma inputs_mutated_in_place_witness :
  (let a_norm := norm [3; 0; 4] in
   let q_norm := norm [2; 0; 0; 0] in
   ∃ h', updateIMU (init ∅) g a q ∅ sample = Returned q h'
     ∧ h' !! a = Some (vdiv [3; 0; 4] a_norm)
     ∧ h' !! q = Some (q_next tenth (one / n256)
                         (2 / q_norm) (0 / q_norm) (0 / q_norm) (0 / q_norm)
                         0.5 0.25 0.125
                         (step_IMU
                            (2 / q_norm) (0 / q_norm) (0 / q_norm) (0 / q_norm)
                            (3 / a_norm) (0 / a_norm) (4 / a_norm)))
     ∧ ∀ r, r ≠ a → r ≠ q → h' !! r = sample !! r)%num
  ∧ (let a_norm := norm [3; 0; 4] in
     let m_norm := norm [2; 0; 0] in
     let q_norm := norm [2; 0; 0; 0] in
     ∃ h', updateMARG (init ∅) g a m q ∅ sample = Returned q h'
     ∧ h' !! a = Some (vdiv [3; 0; 4] a_norm)
     ∧ h' !! m = Some (vdiv [2; 0; 0] m_norm)
     ∧ h' !! q = Some (q_next tenth (one / n256)
                         (2 / q_norm) (0 / q_norm) (0 / q_norm) (0 / q_norm)
                         0.5 0.25 0.125
                         (step_MARG
                            (2 / q_norm) (0 / q_norm) (0 / q_norm) (0 / q_norm)
                            (3 / a_norm) (0 / a_norm) (4 / a_norm)
                            (2 / m_norm) (0 / m_norm) (0 / m_norm)))
     ∧ ∀ r, r ≠ a → r ≠ m → r ≠ q → h' !! r = sample !! r)%num.
Proof.
  split.
  - apply (proj1 inputs_mutated_in_place (init ∅) ∅ g a q
             tenth (one / n256)%num 2 0 0 0 3 0 4 0.5 0.25 0.125 sample);
      first [ discriminate | vm_compute; reflexivity ].
  - apply (proj2 inputs_mutated_in_place (init ∅) ∅ g a m q
             tenth (one / n256)%num 2 0 0 0 3 0 4 2 0 0 0.5 0.25 0.125 sample);
      first [ discriminate | vm_compute; reflexivity ].
Defined.

Lemma rate_of_change_and_integration_witness :
  (let a_norm := norm [3; 0; 4] in
   let q_norm := norm [2; 0; 0; 0] in
   let qn := normalize [2; 0; 0; 0] in
   let step := step_IMU (2 / q_norm) (0 / q_norm) (0 / q_norm) (0 / q_norm)
                        (3 / a_norm) (0 / a_norm) (4 / a_norm) in
   let qDot := vsub (smul half (product qn [zero; 0.5; 0.25; 0.125]))
                    (smul tenth step) in
   ∃ h', updateIMU (init ∅) g a q ∅ sample = Returned q h'
     ∧ h' !! q = Some (normalize (vadd qn (vmul qDot (one / n256)))))%num
  ∧ (let a_norm := norm [3; 0; 4] in
     let m_norm := norm [2; 0; 0] in
     let q_norm := norm [2; 0; 0; 0] in
     let qn := normalize [2; 0; 0; 0] in
     let step := step_MARG (2 / q_norm) (0 / q_norm) (0 / q_norm) (0 / q_norm)
                           (3 / a_norm) (0 / a_norm) (4 / a_norm)
                           (2 / m_norm) (0 / m_norm) (0 / m_norm) in
     let qDot := vsub (smul half (product qn [zero; 0.5; 0.25; 0.125]))
                      (smul tenth step) in
     ∃ h', updateMARG (init ∅) g a m q ∅ sample = Returned q h'
       ∧ h' !! q = Some (normalize (vadd qn (vmul qDot (one / n256)))))%num.
Proof.
  split.
  - apply (proj1 rate_of_change_and_integration (init ∅) ∅ g a q
             tenth (one / n256)%num 2 0 0 0 3 0 4 0.5 0.25 0.125 sample);
      first [ discriminate | vm_compute; reflexivity ].
  - apply (proj2 rate_of_change_and_integration (init ∅) ∅ g a m q
             tenth (one / n256)%num 2 0 0 0 3 0 4 2 0 0 0.5 0.25 0.125 sample);
      first [ discriminate | vm_compute; reflexivity ].
Defined.

Lemma reference_field_from_hx_hy_witness :
  (let a_norm := norm [3; 0; 4] in
   let m_norm := norm [2; 0; 0] in
   let q_norm := norm [2; 0; 0; 0] in
   let qw := 2 / q_norm in let qx := 0 / q_norm in
   let qy := 0 / q_norm in let qz := 0 / q_norm in
   let mx := 2 / m_norm in let my := 0 / m_norm in let mz := 0 / m_norm in
   let b := [zero; norm [1; 0]; zero; 0] in
   (∀ h0, field_h [qw; qx; qy; qz] mx my mz h0 = Returned [0; 1; 0; 0] h0) ∧
   (∀ h0, field_b [0; 1; 0; 0] h0 = Returned b h0) ∧
   ∃ h', updateMARG (init ∅) g a m q ∅ sample = Returned q h'
     ∧ h' !! q = Some (q_next tenth (one / n256) qw qx qy qz 0.5 0.25 0.125
                         (descent
                            (J_MARG qw qx qy qz (norm [1; 0]) 0)
                            (F_MARG qw qx qy qz
                               (3 / a_norm) (0 / a_norm) (4 / a_norm)
                               (norm [1; 0]) 0 mx my mz))))%num.
Proof.
  apply (reference_field_from_hx_hy (init ∅) ∅ g a m q
           tenth (one / n256)%num 2 0 0 0 3 0 4 2 0 0 0.5 0.25 0.125
           0 1 0 0 sample);
    first [ discriminate | vm_compute; reflexivity ].
Defined.
End Binary64.

(** ** The theorems on the extended reals at a sample *)

Section RealWitnesses.
Import Examples.
Local Open Scope R_scope.

Lemma norm_Fin_value (l : list R) (n : R) :
  0 <= n → Rdot l l = n * n → norm (Fin <$> l) = Fin n.
Proof. intros Hn Hl. rewrite norm_Fin, Hl. f_equal. by apply sqrt_square. Qed.

Lemma norm_2_0_0 : norm [Fin 2; Fin 0; Fin 0] = Fin 2.
Proof.
  apply (norm_Fin_value [2; 0; 0] 2); [lra | unfold Rdot; simpl; lra].
Qed.

Lemma norm_2_0_0_0 : norm [Fin 2; Fin 0; Fin 0; Fin 0] = Fin 2.
Proof.
  apply (norm_Fin_value [2; 0; 0; 0] 2); [lra | unfold Rdot; simpl; lra].
Qed.

Lemma is_zero_Fin_2 : is_zero (Fin 2) = false.
Proof. apply xis_zero_Fin. lra. Qed.

Lemma gradient_IMU_real_sample :
  let a_norm := norm [Fin 2; Fin 0; Fin 0] in
  let q_norm := norm [Fin 2; Fin 0; Fin 0; Fin 0] in
  is_zero (norm (gradient_IMU
                   (ndiv (Fin 2) q_norm) (ndiv (Fin 0) q_norm)
                   (ndiv (Fin 0) q_norm) (ndiv (Fin 0) q_norm)
                   (ndiv (Fin 2) a_norm) (ndiv (Fin 0) a_norm)
                   (ndiv (Fin 0) a_norm))) = false.
Proof.
  cbv zeta. rewrite norm_2_0_0, norm_2_0_0_0.
  change ndiv with xdiv. rewrite !xdiv_Fin by lra.
  match goal with
  | |- is_zero (norm ?v) = false => let v' := eval cbn in v in change v with v'
  end.
  apply (is_zero_norm_Fin [_; _; _; _]). unfold Rdot. simpl. lra.
Qed.

Lemma gradient_MARG_real_sample :
  let a_norm := norm [Fin 2; Fin 0; Fin 0] in
  let q_norm := norm [Fin 2; Fin 0; Fin 0; Fin 0] in
  is_zero (norm (gradient_MARG
                   (ndiv (Fin 2) q_norm) (ndiv (Fin 0) q_norm)
                   (ndiv (Fin 0) q_norm) (ndiv (Fin 0) q_norm)
                   (ndiv (Fin 2) a_norm) (ndiv (Fin 0) a_norm)
                   (ndiv (Fin 0) a_norm)
                   (ndiv (Fin 2) a_norm) (ndiv (Fin 0) a_norm)
                   (ndiv (Fin 0) a_norm))) = false.
Proof.
  cbv zeta. rewrite norm_2_0_0, norm_2_0_0_0.
  change ndiv with xdiv. rewrite !xdiv_Fin by lra.
  unfold gradient_MARG, h_MARG, hamilton.
  cbn [nadd nsub nmul nneg xreal_Number xlift2 xneg zero].
  match goal with
  | |- context [norm [Fin ?x; Fin ?y]] =>
      replace (norm [Fin x; Fin y]) with (Fin 1)
        by (symmetry; apply (norm_Fin_value [x; y] 1);
            [lra | unfold Rdot; simpl; lra])
  end.
  match goal with
  | |- is_zero (norm ?v) = false => let v' := eval cbn in v in change v with v'
  end.
  apply (is_zero_norm_Fin [_; _; _; _]). unfold Rdot. simpl. lra.
Qed.

(** The unit norm of the result for the sample {!Examples.real_sample}:
    its norms are 2, the descent direction is not zero, and the gain is
    small. *)
Lemma returned_quaternion_has_unit_norm_witness :
  (∃ h' v, updateIMU (init ∅) g a q real_config real_sample = Returned q h'
           ∧ h' !! q = Some v ∧ norm v = one)
  ∧ (∃ h' v, updateMARG (init ∅) g a m q real_config real_sample = Returned q h'
             ∧ h' !! q = Some v ∧ norm v = one).
Proof.
  pose proof norm_2_0_0 as Ha. pose proof norm_2_0_0_0 as Hq.
  pose proof is_zero_Fin_2 as H2.
  split.
  - apply (proj1 returned_quaternion_has_unit_norm (init ∅) real_config g a q
             (1 / 10) (1 / 256) 2 0 0 0 2 0 0 1 0 0 real_sample);
      try done.
    + by rewrite Ha.
    + by rewrite Hq.
    + apply gradient_IMU_real_sample.
    + apply small_gain_IMU.
      * by rewrite Ha.
      * by rewrite Hq.
      * apply gradient_IMU_real_sample.
      * lra.
  - apply (proj2 returned_quaternion_has_unit_norm (init ∅) real_config g a m q
             (1 / 10) (1 / 256) 2 0 0 0 2 0 0 2 0 0 1 0 0 real_sample);
      try done.
    + by rewrite Ha.
    + by rewrite Ha.
    + by rewrite Hq.
    + apply gradient_MARG_real_sample.
    + apply small_gain_MARG.
      * by rewrite Ha.
      * by rewrite Ha.
      * by rewrite Hq.
      * apply gradient_MARG_real_sample.
      * lra.
Defined.

(** Accelerometer scaled by 3, magnetometer by 5. *)
Lemma positive_scaling_is_invisible_witness :
  returned_array
    (updateIMU (init ∅) g a q real_config
       (<[a := smul (Fin 3) [Fin 2; Fin 0; Fin 0]]> real_sample))
  = returned_array (updateIMU (init ∅) g a q real_config real_sample)
  ∧ returned_array
      (updateMARG (init ∅) g a m q real_config
         (<[m := smul (Fin 5) [Fin 2; Fin 0; Fin 0]]>
            (<[a := smul (Fin 3) [Fin 2; Fin 0; Fin 0]]> real_sample)))
    = returned_array (updateMARG (init ∅) g a m q real_config real_sample).
Proof.
  split.
  - apply (proj1 positive_scaling_is_invisible ∅ real_config g a q 3
             [Fin 2; Fin 0; Fin 0] real_sample); [lra | reflexivity].
  - apply (proj2 positive_scaling_is_invisible ∅ real_config g a m q 3 5
             [Fin 2; Fin 0; Fin 0] [Fin 2; Fin 0; Fin 0] real_sample);
      first [ lra | discriminate | reflexivity ].
Defined.
End RealWitnesses.

(** ** Arrays that are too short *)

Section ShortArrays.
Context {num : Type} `{Number num}.

Lemma run_item_fail (r : loc) (i : nat) (v : list num) (h : gmap loc (list num)) :
  h !! r = Some v → v !! i = None → item r i h = Raised IndexError h.
Proof.
  intros Hr Hi. unfold item. rewrite run_bind, (run_deref _ _ _ Hr).
  unfold getitem. rewrite Hi. reflexivity.
Qed.

(** Reading the entries [0 .. n-1] of an array that has fewer than [n]
    entries raises [IndexError], whatever would follow. *)
Lemma run_items_short {A : Type} (r : loc) (v : list num) (h : gmap loc (list num))
    (k4 : num → num → num → num → M num A) :
  h !! r = Some v → length v < 4 →
  (item r 0 ≫= (fun x0 => item r 1 ≫= (fun x1 =>
     item r 2 ≫= (fun x2 => item r 3 ≫= (fun x3 => k4 x0 x1 x2 x3))))) h
  = Raised IndexError h.
Proof.
  intros Hr Hlen.
  destruct v as [|x0 [|x1 [|x2 [|x3 v]]]]; simpl in Hlen; try lia.
  - by rewrite run_bind, (run_item_fail _ 0 _ _ Hr).
  - rewrite run_bind, (run_item _ 0 _ x0 _ Hr) by done.
    by rewrite run_bind, (run_item_fail _ 1 _ _ Hr).
  - rewrite run_bind, (run_item _ 0 _ x0 _ Hr) by done.
    rewrite run_bind, (run_item _ 1 _ x1 _ Hr) by done.
    by rewrite run_bind, (run_item_fail _ 2 _ _ Hr).
  - rewrite run_bind, (run_item _ 0 _ x0 _ Hr) by done.
    rewrite run_bind, (run_item _ 1 _ x1 _ Hr) by done.
    rewrite run_bind, (run_item _ 2 _ x2 _ Hr) by done.
    by rewrite run_bind, (run_item_fail _ 3 _ _ Hr).
Qed.

Lemma run_items_short3 {A : Type} (r : loc) (v : list num) (h : gmap loc (list num))
    (k3 : num → num → num → M num A) :
  h !! r = Some v → length v < 3 →
  (item r 0 ≫= (fun x0 => item r 1 ≫= (fun x1 =>
     item r 2 ≫= (fun x2 => k3 x0 x1 x2)))) h
  = Raised IndexError h.
Proof.
  intros Hr Hlen.
  destruct v as [|x0 [|x1 [|x2 v]]]; simpl in Hlen; try lia.
  - by rewrite run_bind, (run_item_fail _ 0 _ _ Hr).
  - rewrite run_bind, (run_item _ 0 _ x0 _ Hr) by done.
    by rewrite run_bind, (run_item_fail _ 1 _ _ Hr).
  - rewrite run_bind, (run_item _ 0 _ x0 _ Hr) by done.
    rewrite run_bind, (run_item _ 1 _ x1 _ Hr) by done.
    by rewrite run_bind, (run_item_fail _ 2 _ _ Hr).
Qed.

(** X1: an array that is too short makes [updateIMU] raise [IndexError],
    but only after the in-place normalisations: when the exception
    reaches the caller, the accelerometer array and the quaternion array
    have been divided by their norms (and [q] has not been integrated).
    This holds for a quaternion of fewer than four entries, for an
    accelerometer sample of one or two entries, and for a gyroscope
    sample of fewer than three. *)
Theorem updateIMU_short_array_raises_after_normalizing :
  (∀ (kw0 kwargs : gmap string num) (g a q : loc) (va vq : list num)
     (h : gmap loc (list num)),
      a ≠ q → h !! a = Some va → h !! q = Some vq →
      is_zero (norm va) = false → length vq < 4 →
      updateIMU (init kw0) g a q kwargs h
      = Raised IndexError
          (<[q := vdiv vq (norm vq)]> (<[a := vdiv va (norm va)]> h))) ∧
  (∀ (kw0 kwargs : gmap string num) (g a q : loc) (va : list num)
     (q0 q1 q2 q3 : num) (h : gmap loc (list num)),
      a ≠ q → h !! a = Some va → h !! q = Some [q0; q1; q2; q3] →
      is_zero (norm va) = false → length va < 3 →
      updateIMU (init kw0) g a q kwargs h
      = Raised IndexError
          (<[q := vdiv [q0; q1; q2; q3] (norm [q0; q1; q2; q3])]>
             (<[a := vdiv va (norm va)]> h))) ∧
  (∀ (kw0 kwargs : gmap string num) (g a q : loc) (vg : list num)
     (a0 a1 a2 q0 q1 q2 q3 : num) (h : gmap loc (list num)),
      a ≠ q → g ≠ a → g ≠ q →
      h !! g = Some vg →
      h !! a = Some [a0; a1; a2] → h !! q = Some [q0; q1; q2; q3] →
      is_zero (norm [a0; a1; a2]) = false → length vg < 3 →
      updateIMU (init kw0) g a q kwargs h
      = Raised IndexError
          (<[q := vdiv [q0; q1; q2; q3] (norm [q0; q1; q2; q3])]>
             (<[a := vdiv [a0; a1; a2] (norm [a0; a1; a2])]> h))).
Proof.
  split; [|split].
  - intros * Haq Ha Hq Hz Hlen.
    destruct (init_has_param kw0 kwargs "beta") as [b Hb]; [by left|].
    destruct (init_has_param kw0 kwargs "samplePeriod") as [s Hs]; [by right|].
    unfold updateIMU.
    rewrite run_bind, (run_param _ _ _ _ _ Hb), run_bind, (run_param _ _ _ _ _ Hs).
    rewrite run_bind, (run_linalg_norm _ _ _ Ha), Hz.
    rewrite run_bind, (run_idiv _ _ _ _ Ha).
    assert (<[a := vdiv va (norm va)]> h !! q = Some vq) as Hq1
      by (by rewrite lookup_insert_ne).
    rewrite run_bind, (run_linalg_norm _ _ _ Hq1).
    rewrite run_bind, (run_idiv _ _ _ _ Hq1).
    apply run_items_short with (v := vdiv vq (norm vq)).
    + apply lookup_insert_eq.
    + unfold vdiv. by rewrite length_fmap.
  - intros * Haq Ha Hq Hz Hlen.
    destruct (init_has_param kw0 kwargs "beta") as [b Hb]; [by left|].
    destruct (init_has_param kw0 kwargs "samplePeriod") as [s Hs]; [by right|].
    unfold updateIMU.
    rewrite run_bind, (run_param _ _ _ _ _ Hb), run_bind, (run_param _ _ _ _ _ Hs).
    rewrite run_bind, (run_linalg_norm _ _ _ Ha), Hz.
    rewrite run_bind, (run_idiv _ _ _ _ Ha).
    assert (<[a := vdiv va (norm va)]> h !! q = Some [q0; q1; q2; q3]) as Hq1
      by (by rewrite lookup_insert_ne).
    rewrite run_bind, (run_linalg_norm _ _ _ Hq1).
    rewrite run_bind, (run_idiv _ _ _ _ Hq1).
    set (h2 := <[q := _]> _).
    assert (h2 !! q = Some (vdiv [q0; q1; q2; q3] (norm [q0; q1; q2; q3])))
      as Hq2 by apply lookup_insert_eq.
    rewrite run_bind, (run_item _ 0 _ _ _ Hq2) by reflexivity.
    rewrite run_bind, (run_item _ 1 _ _ _ Hq2) by reflexivity.
    rewrite run_bind, (run_item _ 2 _ _ _ Hq2) by reflexivity.
    rewrite run_bind, (run_item _ 3 _ _ _ Hq2) by reflexivity.
    apply run_items_short3 with (v := vdiv va (norm va)).
    + unfold h2. rewrite lookup_insert_ne by done. apply lookup_insert_eq.
    + unfold vdiv. by rewrite length_fmap.
  - intros * Haq Hga Hgq Hg Ha Hq Hz Hlen.
    destruct (init_has_param kw0 kwargs "beta") as [b Hb]; [by left|].
    destruct (init_has_param kw0 kwargs "samplePeriod") as [s Hs]; [by right|].
    unfold updateIMU.
    rewrite run_bind, (run_param _ _ _ _ _ Hb), run_bind, (run_param _ _ _ _ _ Hs).
    rewrite run_bind, (run_linalg_norm _ _ _ Ha), Hz.
    rewrite run_bind, (run_idiv _ _ _ _ Ha).
    assert (<[a := vdiv [a0; a1; a2] (norm [a0; a1; a2])]> h !! q
            = Some [q0; q1; q2; q3]) as Hq1 by (by rewrite lookup_insert_ne).
    rewrite run_bind, (run_linalg_norm _ _ _ Hq1).
    rewrite run_bind, (run_idiv _ _ _ _ Hq1).
    set (h2 := <[q := _]> _).
    assert (h2 !! q = Some (vdiv [q0; q1; q2; q3] (norm [q0; q1; q2; q3])))
      as Hq2 by apply lookup_insert_eq.
    assert (h2 !! a = Some (vdiv [a0; a1; a2] (norm [a0; a1; a2]))) as Ha2.
    { unfold h2. rewrite lookup_insert_ne by done. apply lookup_insert_eq. }
    assert (h2 !! g = Some vg) as Hg2
      by (unfold h2; by rewrite !lookup_insert_ne).
    rewrite run_bind, (run_item _ 0 _ _ _ Hq2) by reflexivity.
    rewrite run_bind, (run_item _ 1 _ _ _ Hq2) by reflexivity.
    rewrite run_bind, (run_item _ 2 _ _ _ Hq2) by reflexivity.
    rewrite run_bind, (run_item _ 3 _ _ _ Hq2) by reflexivity.
    rewrite run_bind, (run_item _ 0 _ _ _ Ha2) by reflexivity.
    rewrite run_bind, (run_item _ 1 _ _ _ Ha2) by reflexivity.
    rewrite run_bind, (run_item _ 2 _ _ _ Ha2) by reflexivity.
    unfold integrate. rewrite run_bind, (run_deref _ _ _ Hq2).
    by apply run_items_short3 with (v := vg).
Qed.
End ShortArrays.

(** ** The class dictionary after several constructions *)

Section HistoryFacts.
Context {num : Type} `{Number num}.

Lemma foldl_construct_union (acc cls : gmap string num)
    (kws : list (gmap string num)) :
  foldl construct (acc ∪ cls) kws = foldl construct acc kws ∪ cls.
Proof.
  revert acc. induction kws as [|kw kws IH]; intros acc; [reflexivity|].
  simpl. unfold construct at 2 4. rewrite (assoc_L (∪)). apply IH.
Qed.

Lemma lookup_foldl_construct_None (cls : gmap string num)
    (kws : list (gmap string num)) (k : string) :
  Forall (fun kw => kw !! k = None) kws →
  foldl construct cls kws !! k = cls !! k.
Proof.
  intros Hk. revert cls. induction Hk as [|kw kws Hkw _ IH]; intros cls.
  - reflexivity.
  - simpl. rewrite IH. unfold construct. by apply lookup_union_r.
Qed.

(** X2: whatever instances were constructed before, with whatever keyword
    arguments, the class dictionary is the one a single construction with
    the merged arguments leaves; it always holds ["beta"] and
    ["samplePeriod"], so that the look-ups at the head of [updateIMU] and
    [updateMARG] never raise [KeyError]. *)
Theorem configuration_is_never_missing (kws : list (gmap string num)) :
  constructions kws = init (foldl construct ∅ kws)
  ∧ ∀ (kwargs : gmap string num) (k : string) (h : gmap loc (list num)),
      k = "beta" ∨ k = "samplePeriod" →
      ∃ v, param (constructions kws) kwargs k h = Returned v h.
Proof.
  assert (constructions kws = init (foldl construct ∅ kws)) as Heq.
  { unfold constructions, init.
    rewrite <- foldl_construct_union. by rewrite (left_id_L ∅ (∪)). }
  split; [exact Heq|]. intros kwargs k h Hk. rewrite Heq.
  by apply run_param_init.
Qed.

(** X3: the settings are global and sticky.  A value passed for a key to
    any constructor is what the methods of every instance read, until a
    later construction passes that key again or the call overrides it by
    keyword; and when no construction has passed the key, the class
    default is read. *)
Theorem constructor_settings_are_shared :
  (∀ (kws1 kws2 : list (gmap string num)) (kw kwargs : gmap string num)
     (k : string) (v : num) (h : gmap loc (list num)),
      kw !! k = Some v →
      Forall (fun kw' => kw' !! k = None) kws2 →
      kwargs !! k = None →
      param (constructions (kws1 ++ kw :: kws2)) kwargs k h = Returned v h) ∧
  (∀ (kws : list (gmap string num)) (kwargs : gmap string num)
     (k : string) (h : gmap loc (list num)),
      Forall (fun kw' => kw' !! k = None) kws →
      kwargs !! k = None →
      param (constructions kws) kwargs k h = param defaults ∅ k h).
Proof.
  split.
  - intros * Hkw Hkws2 Hkwargs. apply run_param.
    rewrite lookup_union_r by done.
    unfold constructions. rewrite foldl_app. simpl.
    rewrite lookup_foldl_construct_None by done.
    unfold construct at 1. by apply lookup_union_Some_l.
  - intros * Hkws Hkwargs. unfold param.
    rewrite Hkwargs, lookup_empty.
    unfold constructions. by rewrite lookup_foldl_construct_None.
Qed.
End HistoryFacts.

(** ** The two quaternions of one rotation *)

Section Antipodal.

Lemma nmul_neg_neg (x y : xreal) : nmul (nneg x) (nneg y) = nmul x y.
Proof. destruct x, y; simpl; try done. f_equal. ring. Qed.

Lemma nmul_neg_l (x y : xreal) : nmul (nneg x) y = nneg (nmul x y).
Proof. destruct x, y; simpl; try done. f_equal. ring. Qed.

Lemma nmul_neg_r (x y : xreal) : nmul x (nneg y) = nneg (nmul x y).
Proof. destruct x, y; simpl; try done. f_equal. ring. Qed.

Lemma nadd_neg_neg (x y : xreal) : nadd (nneg x) (nneg y) = nneg (nadd x y).
Proof. destruct x, y; simpl; try done. f_equal. ring. Qed.

Lemma nsub_neg_neg (x y : xreal) : nsub (nneg x) (nneg y) = nneg (nsub x y).
Proof. destruct x, y; simpl; try done. f_equal. ring. Qed.

Lemma ndiv_neg_l (x y : xreal) : ndiv (nneg x) y = nneg (ndiv x y).
Proof.
  destruct x as [a|], y as [b|]; simpl; try done.
  destruct (Req_dec_T b 0); [done|]. simpl. f_equal. by field.
Qed.

Lemma nneg_zero : nneg (zero : xreal) = zero.
Proof. simpl. f_equal. ring. Qed.

Lemma norm_vneg (v : list xreal) : norm (vneg v) = norm v.
Proof.
  unfold norm, dot. f_equal. generalize (zero : xreal).
  induction v as [|x v IH]; intros acc; [reflexivity|].
  unfold vneg in *. cbn [fmap list_fmap zip zip_with foldl fst snd].
  rewrite nmul_neg_neg. apply IH.
Qed.

Lemma vdiv_vneg (v : list xreal) (s : xreal) :
  vdiv (vneg v) s = vneg (vdiv v s).
Proof.
  unfold vdiv, vneg. rewrite <- !list_fmap_compose.
  apply list_fmap_ext. intros _ x _. apply ndiv_neg_l.
Qed.

Lemma vmul_vneg (v : list xreal) (s : xreal) :
  vmul (vneg v) s = vneg (vmul v s).
Proof.
  unfold vmul, vneg. rewrite <- !list_fmap_compose.
  apply list_fmap_ext. intros _ x _. apply nmul_neg_l.
Qed.

Lemma smul_vneg (s : xreal) (v : list xreal) :
  smul s (vneg v) = vneg (smul s v).
Proof.
  unfold smul, vneg. rewrite <- !list_fmap_compose.
  apply list_fmap_ext. intros _ x _. apply nmul_neg_r.
Qed.

Lemma vadd_vneg (u v : list xreal) :
  vadd (vneg u) (vneg v) = vneg (vadd u v).
Proof.
  revert v. induction u as [|x u IH]; intros [|y v]; try reflexivity.
  simpl. f_equal; [apply nadd_neg_neg | apply IH].
Qed.

Lemma vsub_vneg (u v : list xreal) :
  vsub (vneg u) (vneg v) = vneg (vsub u v).
Proof.
  revert v. induction u as [|x u IH]; intros [|y v]; try reflexivity.
  simpl. f_equal; [apply nsub_neg_neg | apply IH].
Qed.

Lemma normalize_vneg (v : list xreal) :
  normalize (vneg v) = vneg (normalize v).
Proof. unfold normalize. by rewrite norm_vneg, vdiv_vneg. Qed.

Lemma foldl_rows_vneg (J : list (list xreal)) (F acc : list xreal) :
  foldl (fun u rf => vadd u (vmul rf.1 rf.2)) (vneg acc) (zip (vneg <$> J) F)
  = vneg (foldl (fun u rf => vadd u (vmul rf.1 rf.2)) acc (zip J F)).
Proof.
  revert F acc. induction J as [|row J IH]; intros [|f F] acc; try reflexivity.
  cbn [fmap list_fmap zip zip_with foldl fst snd].
  rewrite vmul_vneg, vadd_vneg. apply IH.
Qed.

Lemma matT_vec_vneg (n : nat) (J : list (list xreal)) (F : list xreal) :
  matT_vec n (vneg <$> J) F = vneg (matT_vec n J F).
Proof.
  unfold matT_vec. rewrite <- foldl_rows_vneg. f_equal.
  unfold vneg. rewrite fmap_replicate. by rewrite nneg_zero.
Qed.

(** Rewriting a sum of negated terms into the negation of the sum. *)
Ltac push_neg :=
  repeat first [ rewrite nsub_neg_neg | rewrite nadd_neg_neg ].

Lemma hamilton_neg_l (pw px py pz qw qx qy qz : xreal) :
  hamilton (nneg pw) (nneg px) (nneg py) (nneg pz) qw qx qy qz
  = vneg (hamilton pw px py pz qw qx qy qz).
Proof.
  unfold hamilton, vneg. cbn [fmap list_fmap].
  rewrite !nmul_neg_l. by push_neg.
Qed.

Lemma hamilton_neg_r (pw px py pz qw qx qy qz : xreal) :
  hamilton pw px py pz (nneg qw) (nneg qx) (nneg qy) (nneg qz)
  = vneg (hamilton pw px py pz qw qx qy qz).
Proof.
  unfold hamilton, vneg. cbn [fmap list_fmap].
  rewrite !nmul_neg_r. by push_neg.
Qed.

Lemma hamilton_neg_neg (pw px py pz qw qx qy qz : xreal) :
  hamilton (nneg pw) (nneg px) (nneg py) (nneg pz)
           (nneg qw) (nneg qx) (nneg qy) (nneg qz)
  = hamilton pw px py pz qw qx qy qz.
Proof. unfold hamilton. by rewrite !nmul_neg_neg. Qed.

Lemma F_IMU_neg (qw qx qy qz a0 a1 a2 : xreal) :
  F_IMU (nneg qw) (nneg qx) (nneg qy) (nneg qz) a0 a1 a2
  = F_IMU qw qx qy qz a0 a1 a2.
Proof. unfold F_IMU. by rewrite !nmul_neg_neg. Qed.

Lemma J_IMU_neg (qw qx qy qz : xreal) :
  J_IMU (nneg qw) (nneg qx) (nneg qy) (nneg qz)
  = vneg <$> J_IMU qw qx qy qz.
Proof.
  unfold J_IMU, vneg. cbn [fmap list_fmap].
  rewrite !nmul_neg_r, !nneg_zero. reflexivity.
Qed.

Lemma step_IMU_neg (qw qx qy qz a0 a1 a2 : xreal) :
  step_IMU (nneg qw) (nneg qx) (nneg qy) (nneg qz) a0 a1 a2
  = vneg (step_IMU qw qx qy qz a0 a1 a2).
Proof.
  unfold step_IMU, descent.
  by rewrite F_IMU_neg, J_IMU_neg, matT_vec_vneg, norm_vneg, vdiv_vneg.
Qed.

Lemma q_next_neg (beta samplePeriod qw qx qy qz g0 g1 g2 : xreal)
    (step : list xreal) :
  q_next beta samplePeriod (nneg qw) (nneg qx) (nneg qy) (nneg qz)
         g0 g1 g2 (vneg step)
  = vneg (q_next beta samplePeriod qw qx qy qz g0 g1 g2 step).
Proof.
  unfold q_next, q_raw. rewrite hamilton_neg_l, !smul_vneg, vsub_vneg, vmul_vneg.
  change [nneg qw; nneg qx; nneg qy; nneg qz] with (vneg [qw; qx; qy; qz]).
  by rewrite vadd_vneg, normalize_vneg.
Qed.

Lemma h_MARG_neg (qw qx qy qz m0 m1 m2 : xreal) :
  h_MARG (nneg qw) (nneg qx) (nneg qy) (nneg qz) m0 m1 m2
  = h_MARG qw qx qy qz m0 m1 m2.
Proof.
  unfold h_MARG.
  pose proof (hamilton_neg_r zero m0 m1 m2 qw (nneg qx) (nneg qy) (nneg qz))
    as Hin.
  rewrite Hin. unfold hamilton at 2 4. unfold vneg. cbn [fmap list_fmap].
  apply hamilton_neg_neg.
Qed.

Lemma F_MARG_neg (qw qx qy qz a0 a1 a2 b1 b3 m0 m1 m2 : xreal) :
  F_MARG (nneg qw) (nneg qx) (nneg qy) (nneg qz) a0 a1 a2 b1 b3 m0 m1 m2
  = F_MARG qw qx qy qz a0 a1 a2 b1 b3 m0 m1 m2.
Proof. unfold F_MARG. by rewrite !nmul_neg_neg. Qed.

Lemma J_MARG_neg (qw qx qy qz b1 b3 : xreal) :
  J_MARG (nneg qw) (nneg qx) (nneg qy) (nneg qz) b1 b3
  = vneg <$> J_MARG qw qx qy qz b1 b3.
Proof.
  unfold J_MARG, vneg. cbn [fmap list_fmap].
  rewrite !nmul_neg_r, !nneg_zero. by push_neg.
Qed.

Lemma step_MARG_neg (qw qx qy qz a0 a1 a2 m0 m1 m2 : xreal) :
  step_MARG (nneg qw) (nneg qx) (nneg qy) (nneg qz) a0 a1 a2 m0 m1 m2
  = vneg (step_MARG qw qx qy qz a0 a1 a2 m0 m1 m2).
Proof.
  unfold step_MARG. rewrite h_MARG_neg.
  unfold h_MARG, hamilton. cbv iota beta. unfold descent.
  by rewrite F_MARG_neg, J_MARG_neg, matT_vec_vneg, norm_vneg, vdiv_vneg.
Qed.

(** X4: in exact arithmetic the update commutes with negating the prior
    quaternion: for every content of the arrays, handing [-q] instead of
    [q] to [updateIMU] or [updateMARG] gives the negated result.  The
    two quaternions [q] and [-q] of one rotation therefore lead to the two
    quaternions of one rotation again. *)
Theorem negated_quaternion_gives_negated_result :
  (∀ (kw0 kwargs : gmap string xreal) (g a q : loc)
     (q0 q1 q2 q3 a0 a1 a2 g0 g1 g2 : xreal) (h : gmap loc (list xreal)),
      a ≠ q → g ≠ a → g ≠ q →
      h !! g = Some [g0; g1; g2] →
      h !! a = Some [a0; a1; a2] →
      h !! q = Some [q0; q1; q2; q3] →
      returned_array
        (updateIMU (init kw0) g a q kwargs (<[q := vneg [q0; q1; q2; q3]]> h))
      = vneg <$> returned_array (updateIMU (init kw0) g a q kwargs h)) ∧
  (∀ (kw0 kwargs : gmap string xreal) (g a m q : loc)
     (q0 q1 q2 q3 a0 a1 a2 m0 m1 m2 g0 g1 g2 : xreal)
     (h : gmap loc (list xreal)),
      a ≠ m → a ≠ q → m ≠ q → g ≠ a → g ≠ m → g ≠ q →
      h !! g = Some [g0; g1; g2] →
      h !! a = Some [a0; a1; a2] →
      h !! m = Some [m0; m1; m2] →
      h !! q = Some [q0; q1; q2; q3] →
      returned_array
        (updateMARG (init kw0) g a m q kwargs (<[q := vneg [q0; q1; q2; q3]]> h))
      = vneg <$> returned_array (updateMARG (init kw0) g a m q kwargs h)).
Proof.
  split.
  - intros * Haq Hga Hgq Hg Ha Hq.
    set (h' := <[q := vneg [q0; q1; q2; q3]]> h).
    assert (h' !! g = Some [g0; g1; g2]) as Hg'
      by (unfold h'; by rewrite lookup_insert_ne).
    assert (h' !! a = Some [a0; a1; a2]) as Ha'
      by (unfold h'; by rewrite lookup_insert_ne).
    assert (h' !! q = Some [nneg q0; nneg q1; nneg q2; nneg q3]) as Hq'
      by (unfold h'; apply lookup_insert_eq).
    destruct (init_has_param kw0 kwargs "beta") as [b Hb]; [by left|].
    destruct (init_has_param kw0 kwargs "samplePeriod") as [s Hs]; [by right|].
    destruct (is_zero (norm [a0; a1; a2])) eqn:Hz.
    + rewrite (updateIMU_zero_accel _ _ _ _ _ _ _ Ha' Hz).
      rewrite (updateIMU_zero_accel _ _ _ _ _ _ _ Ha Hz).
      simpl. by rewrite Hq', Hq.
    + rewrite (run_updateIMU _ _ _ _ _ _ _ _ _ _ _ _ _ _ _ _ _ _
                 Hb Hs Haq Hga Hgq Hg' Ha' Hq' Hz).
      rewrite (run_updateIMU _ _ _ _ _ _ _ _ _ _ _ _ _ _ _ _ _ _
                 Hb Hs Haq Hga Hgq Hg Ha Hq Hz).
      cbn [returned_array]. rewrite !lookup_insert_eq. cbn [fmap option_fmap option_map].
      f_equal.
      change (norm [nneg q0; nneg q1; nneg q2; nneg q3])
        with (norm (vneg [q0; q1; q2; q3])).
      rewrite norm_vneg, !ndiv_neg_l, step_IMU_neg. apply q_next_neg.
  - intros * Ham Haq Hmq Hga Hgm Hgq Hg Ha Hm Hq.
    set (h' := <[q := vneg [q0; q1; q2; q3]]> h).
    assert (h' !! g = Some [g0; g1; g2]) as Hg'
      by (unfold h'; by rewrite lookup_insert_ne).
    assert (h' !! a = Some [a0; a1; a2]) as Ha'
      by (unfold h'; by rewrite lookup_insert_ne).
    assert (h' !! m = Some [m0; m1; m2]) as Hm'
      by (unfold h'; by rewrite lookup_insert_ne).
    assert (h' !! q = Some [nneg q0; nneg q1; nneg q2; nneg q3]) as Hq'
      by (unfold h'; apply lookup_insert_eq).
    destruct (init_has_param kw0 kwargs "beta") as [b Hb]; [by left|].
    destruct (init_has_param kw0 kwargs "samplePeriod") as [s Hs]; [by right|].
    destruct (is_zero (norm [a0; a1; a2])) eqn:Hza.
    { rewrite (updateMARG_zero_accel _ _ _ _ _ _ _ _ Ha' Hza).
      rewrite (updateMARG_zero_accel _ _ _ _ _ _ _ _ Ha Hza).
      simpl. by rewrite Hq', Hq. }
    destruct (is_zero (norm [m0; m1; m2])) eqn:Hzm.
    { rewrite (updateMARG_zero_mag _ _ _ _ _ _ _ _ _ Ha' Hm' Hza Hzm).
      rewrite (updateMARG_zero_mag _ _ _ _ _ _ _ _ _ Ha Hm Hza Hzm).
      cbn [returned_array]. rewrite !lookup_insert_ne by done.
      by rewrite Hq', Hq. }
    rewrite (run_updateMARG _ _ _ _ _ _ _ _ _ _ _ _ _ _ _ _ _ _ _ _ _ _
               Hb Hs Ham Haq Hmq Hga Hgm Hgq Hg' Ha' Hm' Hq' Hza Hzm).
    rewrite (run_updateMARG _ _ _ _ _ _ _ _ _ _ _ _ _ _ _ _ _ _ _ _ _ _
               Hb Hs Ham Haq Hmq Hga Hgm Hgq Hg Ha Hm Hq Hza Hzm).
    cbn [returned_array]. rewrite !lookup_insert_eq. cbn [fmap option_fmap option_map].
    f_equal.
    change (norm [nneg q0; nneg q1; nneg q2; nneg q3])
      with (norm (vneg [q0; q1; q2; q3])).
    rewrite norm_vneg, !ndiv_neg_l, step_MARG_neg. apply q_next_neg.
Qed.
End Antipodal.

(** ** A zero gain *)

Section ZeroGain.
Local Open Scope R_scope.

Lemma vsub_smul_zero (u s : list R) :
  length u = length s →
  vsub (Fin <$> u) (smul (Fin 0) (Fin <$> s)) = Fin <$> u.
Proof.
  revert s. induction u as [|x u IH]; intros [|y s] Hlen; try discriminate.
  - reflexivity.
  - injection Hlen as Hlen. unfold vsub, smul in *.
    cbn [fmap list_fmap zip_with]. f_equal; [|by apply IH].
    simpl. f_equal. ring.
Qed.

(** With [beta = 0] the correction term drops out of a finite step. *)
Lemma q_next_zero_gain (samplePeriod qw qx qy qz g0 g1 g2 : xreal)
    (step : list xreal) :
  finite qw → finite qx → finite qy → finite qz →
  finite g0 → finite g1 → finite g2 →
  all_finite step → length step = 4%nat →
  q_next (Fin 0) samplePeriod qw qx qy qz g0 g1 g2 step
  = gyro_integration samplePeriod [qw; qx; qy; qz] [g0; g1; g2].
Proof.
  intros Hqw Hqx Hqy Hqz Hg0 Hg1 Hg2 Hs Hlen.
  unfold q_next, q_raw, gyro_integration. do 3 f_equal.
  change (product [qw; qx; qy; qz] [zero; g0; g1; g2])
    with (hamilton qw qx qy qz zero g0 g1 g2).
  assert (all_finite (smul half (hamilton qw qx qy qz zero g0 g1 g2))) as Hp.
  { apply all_finite_smul; [exact I|]. by apply all_finite_hamilton. }
  apply all_finite_reals in Hp as [lp Hlp].
  apply all_finite_reals in Hs as [ls ->].
  rewrite Hlp. apply vsub_smul_zero.
  rewrite length_fmap in Hlen. rewrite Hlen.
  apply (f_equal length) in Hlp. rewrite length_fmap in Hlp.
  rewrite <- Hlp. reflexivity.
Qed.

(** X5: in exact arithmetic, with a gain [beta] of zero and finite inputs
    whose norms and whose descent direction are not zero, both methods
    return gyroscope-only integration of the normalised prior quaternion,
    [normalize(qn + 0.5 * product(qn, [0, gx, gy, gz]) * samplePeriod)]:
    the accelerometer and the magnetometer then have no effect on the
    result. *)
Theorem zero_gain_is_gyro_integration :
  (∀ (self kwargs : gmap string xreal) (g a q : loc)
     (samplePeriod q0 q1 q2 q3 a0 a1 a2 g0 g1 g2 : R)
     (h : gmap loc (list xreal)),
      (kwargs ∪ self) !! "beta" = Some (Fin 0) →
      (kwargs ∪ self) !! "samplePeriod" = Some (Fin samplePeriod) →
      a ≠ q → g ≠ a → g ≠ q →
      h !! g = Some [Fin g0; Fin g1; Fin g2] →
      h !! a = Some [Fin a0; Fin a1; Fin a2] →
      h !! q = Some [Fin q0; Fin q1; Fin q2; Fin q3] →
      let a_norm := norm [Fin a0; Fin a1; Fin a2] in
      let q_norm := norm [Fin q0; Fin q1; Fin q2; Fin q3] in
      is_zero a_norm = false →
      is_zero q_norm = false →
      is_zero (norm (gradient_IMU
                       (ndiv (Fin q0) q_norm) (ndiv (Fin q1) q_norm)
                       (ndiv (Fin q2) q_norm) (ndiv (Fin q3) q_norm)
                       (ndiv (Fin a0) a_norm) (ndiv (Fin a1) a_norm)
                       (ndiv (Fin a2) a_norm))) = false →
      returned_array (updateIMU self g a q kwargs h)
      = Some (gyro_integration (Fin samplePeriod)
                (normalize [Fin q0; Fin q1; Fin q2; Fin q3])
                [Fin g0; Fin g1; Fin g2])) ∧
  (∀ (self kwargs : gmap string xreal) (g a m q : loc)
     (samplePeriod q0 q1 q2 q3 a0 a1 a2 m0 m1 m2 g0 g1 g2 : R)
     (h : gmap loc (list xreal)),
      (kwargs ∪ self) !! "beta" = Some (Fin 0) →
      (kwargs ∪ self) !! "samplePeriod" = Some (Fin samplePeriod) →
      a ≠ m → a ≠ q → m ≠ q → g ≠ a → g ≠ m → g ≠ q →
      h !! g = Some [Fin g0; Fin g1; Fin g2] →
      h !! a = Some [Fin a0; Fin a1; Fin a2] →
      h !! m = Some [Fin m0; Fin m1; Fin m2] →
      h !! q = Some [Fin q0; Fin q1; Fin q2; Fin q3] →
      let a_norm := norm [Fin a0; Fin a1; Fin a2] in
      let m_norm := norm [Fin m0; Fin m1; Fin m2] in
      let q_norm := norm [Fin q0; Fin q1; Fin q2; Fin q3] in
      is_zero a_norm = false →
      is_zero m_norm = false →
      is_zero q_norm = false →
      is_zero (norm (gradient_MARG
                       (ndiv (Fin q0) q_norm) (ndiv (Fin q1) q_norm)
                       (ndiv (Fin q2) q_norm) (ndiv (Fin q3) q_norm)
                       (ndiv (Fin a0) a_norm) (ndiv (Fin a1) a_norm)
                       (ndiv (Fin a2) a_norm)
                       (ndiv (Fin m0) m_norm) (ndiv (Fin m1) m_norm)
                       (ndiv (Fin m2) m_norm))) = false →
      returned_array (updateMARG self g a m q kwargs h)
      = Some (gyro_integration (Fin samplePeriod)
                (normalize [Fin q0; Fin q1; Fin q2; Fin q3])
                [Fin g0; Fin g1; Fin g2])).
Proof.
  split.
  - intros * Hb Hs Haq Hga Hgq Hg Ha Hq a_norm q_norm Hza Hzq Hzs.
    assert (finite a_norm) by (unfold a_norm; finite_tac).
    assert (finite q_norm) by (unfold q_norm; finite_tac).
    rewrite (run_updateIMU _ _ _ _ _ _ _ _ _ _ _ _ _ _ _ _ _ _
               Hb Hs Haq Hga Hgq Hg Ha Hq Hza).
    cbn [returned_array]. rewrite lookup_insert_eq. f_equal.
    assert (all_finite (gradient_IMU
                       (ndiv (Fin q0) q_norm) (ndiv (Fin q1) q_norm)
                       (ndiv (Fin q2) q_norm) (ndiv (Fin q3) q_norm)
                       (ndiv (Fin a0) a_norm) (ndiv (Fin a1) a_norm)
                       (ndiv (Fin a2) a_norm))) as Hgr
      by (apply all_finite_gradient_IMU; finite_tac; done).
    apply q_next_zero_gain; try (finite_tac; done).
    apply all_finite_vdiv; [exact Hgr|by apply finite_norm|exact Hzs].
  - intros * Hb Hs Ham Haq Hmq Hga Hgm Hgq Hg Ha Hm Hq.
    intros a_norm m_norm q_norm Hza Hzm Hzq Hzs.
    assert (finite a_norm) by (unfold a_norm; finite_tac).
    assert (finite m_norm) by (unfold m_norm; finite_tac).
    assert (finite q_norm) by (unfold q_norm; finite_tac).
    rewrite (run_updateMARG _ _ _ _ _ _ _ _ _ _ _ _ _ _ _ _ _ _ _ _ _ _
               Hb Hs Ham Haq Hmq Hga Hgm Hgq Hg Ha Hm Hq Hza Hzm).
    cbn [returned_array]. rewrite lookup_insert_eq. f_equal.
    assert (all_finite (gradient_MARG
                       (ndiv (Fin q0) q_norm) (ndiv (Fin q1) q_norm)
                       (ndiv (Fin q2) q_norm) (ndiv (Fin q3) q_norm)
                       (ndiv (Fin a0) a_norm) (ndiv (Fin a1) a_norm)
                       (ndiv (Fin a2) a_norm)
                       (ndiv (Fin m0) m_norm) (ndiv (Fin m1) m_norm)
                       (ndiv (Fin m2) m_norm))) as Hgr
      by (apply all_finite_gradient_MARG; finite_tac; done).
    apply q_next_zero_gain; try (finite_tac; done).
    apply all_finite_vdiv; [exact Hgr|by apply finite_norm|exact Hzs].
Qed.
End ZeroGain.

(** ** One array passed twice *)

Section SharedArrays.
Context {num : Type} `{Number num}.

(** [updateIMU] when the gyroscope argument is the accelerometer array. *)
Lemma run_updateIMU_shared (self kwargs : gmap string num) (a q : loc)
    (beta samplePeriod q0 q1 q2 q3 a0 a1 a2 : num)
    (h : gmap loc (list num)) :
  (kwargs ∪ self) !! "beta" = Some beta →
  (kwargs ∪ self) !! "samplePeriod" = Some samplePeriod →
  a ≠ q →
  h !! a = Some [a0; a1; a2] →
  h !! q = Some [q0; q1; q2; q3] →
  is_zero (norm [a0; a1; a2]) = false →
  let a_norm := norm [a0; a1; a2] in
  let q_norm := norm [q0; q1; q2; q3] in
  updateIMU self a a q kwargs h
  = Returned q
      (<[q := q_next beta samplePeriod
                (ndiv q0 q_norm) (ndiv q1 q_norm) (ndiv q2 q_norm)
                (ndiv q3 q_norm)
                (ndiv a0 a_norm) (ndiv a1 a_norm) (ndiv a2 a_norm)
                (step_IMU (ndiv q0 q_norm) (ndiv q1 q_norm) (ndiv q2 q_norm)
                          (ndiv q3 q_norm)
                          (ndiv a0 a_norm) (ndiv a1 a_norm) (ndiv a2 a_norm))]>
         (<[a := normalize [a0; a1; a2]]> h)).
Proof.
  intros Hb Hs Haq Ha Hq Hz a_norm q_norm. unfold updateIMU.
  rewrite run_bind, (run_param _ _ _ _ _ Hb).
  rewrite run_bind, (run_param _ _ _ _ _ Hs).
  rewrite run_bind, (run_linalg_norm _ _ _ Ha), Hz.
  rewrite run_bind, (run_idiv _ _ _ _ Ha).
  set (h1 := <[a := vdiv [a0; a1; a2] (norm [a0; a1; a2])]> h).
  assert (h1 !! q = Some [q0; q1; q2; q3]) as Hq1
    by (unfold h1; rewrite lookup_insert_ne by done; exact Hq).
  rewrite run_bind, (run_linalg_norm _ _ _ Hq1).
  rewrite run_bind, (run_idiv _ _ _ _ Hq1).
  set (h2 := <[q := _]> h1).
  assert (h2 !! q = Some [ndiv q0 q_norm; ndiv q1 q_norm; ndiv q2 q_norm;
                          ndiv q3 q_norm])
    as Hq2 by (unfold h2; apply lookup_insert_eq).
  assert (h2 !! a = Some [ndiv a0 a_norm; ndiv a1 a_norm; ndiv a2 a_norm])
    as Ha2.
  { unfold h2, h1. rewrite lookup_insert_ne by done. apply lookup_insert_eq. }
  rewrite run_bind, (run_item _ 0 _ _ _ Hq2) by reflexivity.
  rewrite run_bind, (run_item _ 1 _ _ _ Hq2) by reflexivity.
  rewrite run_bind, (run_item _ 2 _ _ _ Hq2) by reflexivity.
  rewrite run_bind, (run_item _ 3 _ _ _ Hq2) by reflexivity.
  rewrite run_bind, (run_item _ 0 _ _ _ Ha2) by reflexivity.
  rewrite run_bind, (run_item _ 1 _ _ _ Ha2) by reflexivity.
  rewrite run_bind, (run_item _ 2 _ _ _ Ha2) by reflexivity.
  rewrite (run_integrate _ _ _ _ _ _ _ _ _ _ _ _ _ _ Hq2 Ha2) by reflexivity.
  unfold h2. rewrite insert_insert_eq. reflexivity.
Qed.

(** X6: the arrays are read after they have been normalised in place.
    When one array is passed both as gyroscope and as accelerometer
    sample, [updateIMU] integrates the normalised sample as angular rate:
    the result is the one of a call with separate arrays in which the
    gyroscope array holds [a / norm(a)], not [a]. *)
Theorem shared_array_is_integrated_normalized
    (kw0 kwargs : gmap string num) (g a q : loc)
    (q0 q1 q2 q3 a0 a1 a2 : num) (h : gmap loc (list num)) :
  a ≠ q → g ≠ a → g ≠ q →
  h !! a = Some [a0; a1; a2] →
  h !! q = Some [q0; q1; q2; q3] →
  is_zero (norm [a0; a1; a2]) = false →
  returned_array (updateIMU (init kw0) a a q kwargs h)
  = returned_array
      (updateIMU (init kw0) g a q kwargs (<[g := normalize [a0; a1; a2]]> h)).
Proof.
  intros Haq Hga Hgq Ha Hq Hz.
  destruct (init_has_param kw0 kwargs "beta") as [b Hb]; [by left|].
  destruct (init_has_param kw0 kwargs "samplePeriod") as [s Hs]; [by right|].
  rewrite (run_updateIMU_shared _ _ _ _ _ _ _ _ _ _ _ _ _ _ Hb Hs Haq Ha Hq Hz).
  set (h' := <[g := normalize [a0; a1; a2]]> h).
  assert (h' !! g = Some [ndiv a0 (norm [a0; a1; a2]);
                          ndiv a1 (norm [a0; a1; a2]);
                          ndiv a2 (norm [a0; a1; a2])]) as Hg'
    by (unfold h'; apply lookup_insert_eq).
  assert (h' !! a = Some [a0; a1; a2]) as Ha'
    by (unfold h'; by rewrite lookup_insert_ne).
  assert (h' !! q = Some [q0; q1; q2; q3]) as Hq'
    by (unfold h'; by rewrite lookup_insert_ne).
  rewrite (run_updateIMU _ _ _ _ _ _ _ _ _ _ _ _ _ _ _ _ _ _
             Hb Hs Haq Hga Hgq Hg' Ha' Hq' Hz).
  cbn [returned_array]. by rewrite !lookup_insert_eq.
Qed.
End SharedArrays.

(** ** The further theorems at concrete calls *)

Section FurtherWitnesses.
Import Examples.

(** A quaternion of three entries, an accelerometer sample of two and a
    gyroscope sample of two, in binary64. *)
Lemma updateIMU_short_array_raises_after_normalizing_witness :
  (updateIMU (init ∅) g a q ∅ (<[q := [2; 0; 0]%float]> sample)
   = Raised IndexError
       (<[q := vdiv [2; 0; 0]%float (norm [2; 0; 0]%float)]>
          (<[a := vdiv [3; 0; 4]%float (norm [3; 0; 4]%float)]>
             (<[q := [2; 0; 0]%float]> sample))))
  ∧ (updateIMU (init ∅) g a q ∅ (<[a := [3; 4]%float]> sample)
     = Raised IndexError
         (<[q := vdiv [2; 0; 0; 0]%float (norm [2; 0; 0; 0]%float)]>
            (<[a := vdiv [3; 4]%float (norm [3; 4]%float)]>
               (<[a := [3; 4]%float]> sample))))
  ∧ (updateIMU (init ∅) g a q ∅ (<[g := [0.5; 0.25]%float]> sample)
     = Raised IndexError
         (<[q := vdiv [2; 0; 0; 0]%float (norm [2; 0; 0; 0]%float)]>
            (<[a := vdiv [3; 0; 4]%float (norm [3; 0; 4]%float)]>
               (<[g := [0.5; 0.25]%float]> sample)))).
Proof.
  split; [|split].
  - apply (proj1 updateIMU_short_array_raises_after_normalizing
             ∅ ∅ g a q [3; 0; 4]%float [2; 0; 0]%float
             (<[q := [2; 0; 0]%float]> sample));
      first [ discriminate | reflexivity | simpl; lia ].
  - apply (proj1 (proj2 updateIMU_short_array_raises_after_normalizing)
             ∅ ∅ g a q [3; 4]%float 2%float 0%float 0%float 0%float
             (<[a := [3; 4]%float]> sample));
      first [ discriminate | reflexivity | simpl; lia ].
  - apply (proj2 (proj2 updateIMU_short_array_raises_after_normalizing)
             ∅ ∅ g a q [0.5; 0.25]%float
             3%float 0%float 4%float 2%float 0%float 0%float 0%float
             (<[g := [0.5; 0.25]%float]> sample));
      first [ discriminate | reflexivity | simpl; lia ].
Defined.

(** After a construction with [beta = 0.5] and one without arguments. *)
Lemma configuration_is_never_missing_witness :
  ∃ v, param (constructions [{[ "beta" := 0.5%float ]}; ∅]) ∅ "beta" sample
       = Returned v sample.
Proof.
  apply (proj2 (configuration_is_never_missing
                  [{[ "beta" := 0.5%float ]}; ∅]) ∅ "beta" sample).
  left. reflexivity.
Defined.

(** [Madgwick(beta=0.5)] followed by [Madgwick()]: the second instance
    reads [beta = 0.5]; its sample period is the default. *)
Lemma constructor_settings_are_shared_witness :
  param (constructions ([] ++ {[ "beta" := 0.5%float ]} :: [∅])) ∅ "beta" sample
  = Returned 0.5%float sample
  ∧ param (constructions [{[ "beta" := 0.5%float ]}; ∅]) ∅ "samplePeriod" sample
    = param defaults ∅ "samplePeriod" sample.
Proof.
  split.
  - apply (proj1 constructor_settings_are_shared
             [] [∅] {[ "beta" := 0.5%float ]} ∅ "beta" 0.5%float sample).
    + reflexivity.
    + repeat constructor.
    + reflexivity.
  - apply (proj2 constructor_settings_are_shared
             [{[ "beta" := 0.5%float ]}; ∅] ∅ "samplePeriod" sample).
    + repeat constructor.
    + reflexivity.
Defined.

Local Open Scope R_scope.

(** The prior [[2, 0, 0, 0]] and its negation. *)
Lemma negated_quaternion_gives_negated_result_witness :
  returned_array
    (updateIMU (init ∅) g a q real_config
       (<[q := vneg [Fin 2; Fin 0; Fin 0; Fin 0]]> real_sample))
  = vneg <$> returned_array (updateIMU (init ∅) g a q real_config real_sample)
  ∧ returned_array
      (updateMARG (init ∅) g a m q real_config
         (<[q := vneg [Fin 2; Fin 0; Fin 0; Fin 0]]> real_sample))
    = vneg <$> returned_array
                 (updateMARG (init ∅) g a m q real_config real_sample).
Proof.
  split.
  - apply (proj1 negated_quaternion_gives_negated_result ∅ real_config g a q
             (Fin 2) (Fin 0) (Fin 0) (Fin 0) (Fin 2) (Fin 0) (Fin 0)
             (Fin 1) (Fin 0) (Fin 0) real_sample);
      first [ discriminate | reflexivity ].
  - apply (proj2 negated_quaternion_gives_negated_result ∅ real_config g a m q
             (Fin 2) (Fin 0) (Fin 0) (Fin 0) (Fin 2) (Fin 0) (Fin 0)
             (Fin 2) (Fin 0) (Fin 0) (Fin 1) (Fin 0) (Fin 0) real_sample);
      first [ discriminate | reflexivity ].
Defined.

(** The sample with the gain set to zero by keyword. *)
Lemma zero_gain_is_gyro_integration_witness :
  let kwargs : gmap string xreal :=
    {[ "beta" := Fin 0; "samplePeriod" := Fin (1 / 256) ]} in
  returned_array (updateIMU (init ∅) g a q kwargs real_sample)
  = Some (gyro_integration (Fin (1 / 256))
            (normalize [Fin 2; Fin 0; Fin 0; Fin 0]) [Fin 1; Fin 0; Fin 0])
  ∧ returned_array (updateMARG (init ∅) g a m q kwargs real_sample)
    = Some (gyro_integration (Fin (1 / 256))
              (normalize [Fin 2; Fin 0; Fin 0; Fin 0]) [Fin 1; Fin 0; Fin 0]).
Proof.
  intros kwargs.
  pose proof norm_2_0_0 as Ha. pose proof norm_2_0_0_0 as Hq.
  pose proof is_zero_Fin_2 as H2.
  split.
  - apply (proj1 zero_gain_is_gyro_integration (init ∅) kwargs g a q
             (1 / 256) 2 0 0 0 2 0 0 1 0 0 real_sample);
      try done.
    + by rewrite Ha.
    + by rewrite Hq.
    + apply gradient_IMU_real_sample.
  - apply (proj2 zero_gain_is_gyro_integration (init ∅) kwargs g a m q
             (1 / 256) 2 0 0 0 2 0 0 2 0 0 1 0 0 real_sample);
      try done.
    + by rewrite Ha.
    + by rewrite Ha.
    + by rewrite Hq.
    + apply gradient_MARG_real_sample.
Defined.

(** The array [[2, 0, 0]] as gyroscope and as accelerometer sample. *)
Lemma shared_array_is_integrated_normalized_witness :
  returned_array (updateIMU (init ∅) a a q real_config real_sample)
  = returned_array
      (updateIMU (init ∅) g a q real_config
         (<[g := normalize [Fin 2; Fin 0; Fin 0]]> real_sample)).
Proof.
  apply (shared_array_is_integrated_normalized ∅ real_config g a q
           (Fin 2) (Fin 0) (Fin 0) (Fin 0) (Fin 2) (Fin 0) (Fin 0)
           real_sample);
    try first [ discriminate | reflexivity ].
  rewrite norm_2_0_0. apply is_zero_Fin_2.
Defined.
End FurtherWitnesses.

(** * Input routines: text *)

Section Text.
Import io.
Import Stdlib.Strings.Ascii.

Lemma append_nil_l (b : string) : "" +:+ b = b.
Proof. reflexivity. Qed.

Lemma append_cons (c : ascii) (a b : string) :
  String c a +:+ b = String c (a +:+ b).
Proof. reflexivity. Qed.

Lemma append_nil_r (a : string) : a +:+ "" = a.
Proof. induction a as [|c a IH]; [done|]. by rewrite append_cons, IH. Qed.

Lemma append_assoc (a b c : string) : (a +:+ b) +:+ c = a +:+ b +:+ c.
Proof.
  induction a as [|x a IH]; [done|]. by rewrite !append_cons, IH.
Qed.

Lemma startswith_spec (t s : string) :
  startswith t s = true ↔ ∃ v, t = s +:+ v.
Proof.
  revert t. induction s as [|c s IH]; intros [|d t]; simpl.
  - split; [intros _; by exists "" | done].
  - split; [intros _; by exists (String d t) | done].
  - split; [done | intros [v Hv]; discriminate].
  - rewrite andb_true_iff, bool_decide_eq_true, IH. split.
    + intros [-> [v ->]]. by exists v.
    + intros [v Hv]. rewrite append_cons in Hv.
      injection Hv as -> ->. eauto.
Qed.

Lemma contains_nil (s : string) : contains s "" = startswith "" s || false.
Proof. reflexivity. Qed.

Lemma contains_cons (s t : string) (d : ascii) :
  contains s (String d t) = startswith (String d t) s || contains s t.
Proof. reflexivity. Qed.

(** [s in t] holds exactly when [t] is [u + s + v] for some [u] and [v]. *)
Lemma contains_spec (s t : string) :
  contains s t = true ↔ ∃ u v, t = u +:+ s +:+ v.
Proof.
  induction t as [|d t IH].
  - rewrite contains_nil, orb_true_iff, startswith_spec. split.
    + intros [[v Hv]|]; [|done]. by exists "", v.
    + intros [[|x u] [v Hv]]; [left; by exists v | discriminate].
  - rewrite contains_cons, orb_true_iff, startswith_spec, IH. split.
    + intros [[v Hv]|[u [v Hv]]].
      * by exists "", v.
      * exists (String d u), v. by rewrite append_cons, Hv.
    + intros [[|x u] [v Hv]].
      * left. by exists v.
      * right. rewrite append_cons in Hv. injection Hv as -> ->. eauto.
Qed.

Lemma endswith_nil (s : string) : endswith "" s = bool_decide ("" = s) || false.
Proof. reflexivity. Qed.

Lemma endswith_cons (t s : string) (d : ascii) :
  endswith (String d t) s = bool_decide (String d t = s) || endswith t s.
Proof. reflexivity. Qed.

Lemma endswith_spec (t s : string) :
  endswith t s = true ↔ ∃ p, t = p +:+ s.
Proof.
  induction t as [|d t IH].
  - rewrite endswith_nil, orb_true_iff, bool_decide_eq_true. split.
    + intros [<-|]; [|done]. by exists "".
    + intros [[|x p] Hp]; [by left | discriminate].
  - rewrite endswith_cons, orb_true_iff, bool_decide_eq_true, IH. split.
    + intros [<-|[p ->]]; [by exists "" | by exists (String d p)].
    + intros [[|x p] Hp]; [by left|].
      right. rewrite append_cons in Hp. injection Hp as -> ->. eauto.
Qed.

Lemma lower_char_not_upper (c : ascii) : is_upper (lower_char c) = false.
Proof. destruct c as [[] [] [] [] [] [] [] []]; reflexivity. Qed.

Lemma lower_char_idemp (c : ascii) : lower_char (lower_char c) = lower_char c.
Proof. destruct c as [[] [] [] [] [] [] [] []]; reflexivity. Qed.

Lemma lower_idemp (s : string) : lower (lower s) = lower s.
Proof.
  induction s as [|c s IH]; [done|]. simpl. by rewrite lower_char_idemp, IH.
Qed.

(** No character of [h.lower()] is an upper-case letter. *)
Lemma lower_no_upper (h p r : string) (c : ascii) :
  lower h = p +:+ String c r → is_upper c = false.
Proof.
  revert h. induction p as [|x p IH]; intros [|d h] Hh; try discriminate.
  - rewrite append_nil_l in Hh. simpl in Hh. injection Hh as <- _.
    apply lower_char_not_upper.
  - rewrite append_cons in Hh. simpl in Hh. injection Hh as _ Hh. eauto.
Qed.
End Text.

(** * [find_index] *)

Section FindIndex.
Import io.
Import Stdlib.Strings.Ascii.

Lemma index_first (pre rest : list string) (h : string) :
  h ∉ pre → index (pre ++ h :: rest) h = Ok (length pre).
Proof.
  induction pre as [|x pre IH]; intros Hh; simpl.
  - by rewrite bool_decide_eq_true_2.
  - rewrite bool_decide_eq_false_2 by (intros ->; apply Hh; left).
    rewrite IH by (intros ?; apply Hh; by right). reflexivity.
Qed.

(** The loop at its first match and before it. *)
Lemma find_index_loop_match (pre rest : list string) (h s : string) :
  Forall (λ x, contains s (lower x) = false) pre →
  contains s (lower h) = true →
  find_index_loop (pre ++ h :: rest) (h :: rest) s = Ok (Some (length pre)).
Proof.
  intros Hpre Hh. simpl. rewrite Hh, index_first; [done|].
  intros Hin. rewrite Forall_forall in Hpre.
  specialize (Hpre _ Hin). congruence.
Qed.

Lemma find_index_loop_skip (header rest : list string) (h s : string) :
  contains s (lower h) = false →
  find_index_loop header (h :: rest) s = find_index_loop header rest s.
Proof. intros Hh. simpl. by rewrite Hh. Qed.

Lemma find_index_loop_least (pre rest : list string) (s : string) :
  Forall (λ x, contains s (lower x) = false) pre →
  ∃ r, find_index_loop (pre ++ rest) rest s = Ok r
       ∧ match r with
         | Some i =>
             ∃ h, (pre ++ rest) !! i = Some h
                  ∧ contains s (lower h) = true
                  ∧ ∀ j h', j < i → (pre ++ rest) !! j = Some h' →
                            contains s (lower h') = false
         | None => Forall (λ x, contains s (lower x) = false) (pre ++ rest)
         end.
Proof.
  revert pre. induction rest as [|h rest IH]; intros pre Hpre.
  - exists None. split; [done|]. by rewrite app_nil_r.
  - destruct (contains s (lower h)) eqn:Hh.
    + exists (Some (length pre)). split; [by apply find_index_loop_match|].
      exists h. split; [by apply list_lookup_middle|]. split; [done|].
      intros j h' Hj Hl. rewrite lookup_app_l in Hl by done.
      rewrite Forall_forall in Hpre. apply Hpre.
      by eapply list_elem_of_lookup_2.
    + rewrite find_index_loop_skip by done.
      rewrite (cons_middle h pre rest), app_assoc. apply IH.
      apply Forall_app. split; [done|]. by constructor.
Qed.

(** X7: [find_index] never raises, although [list.index] can: it returns
    the position of the first entry of [header] whose lower-case form
    contains [s] (so that the search [header.index(h)] for the entry just
    found adds nothing), and [None] exactly when no entry does. *)
Theorem find_index_returns_first_match (header : list string) (s : string) :
  ∃ r, find_index header s = Ok r
       ∧ match r with
         | Some i =>
             ∃ h, header !! i = Some h
                  ∧ contains s (lower h) = true
                  ∧ ∀ j h', j < i → header !! j = Some h' →
                            contains s (lower h') = false
         | None => ∀ h, h ∈ header → contains s (lower h) = false
         end.
Proof.
  destruct (find_index_loop_least [] header s) as [r [Hr Hspec]]; [done|].
  exists r. split; [exact Hr|]. destruct r; [exact Hspec|].
  simpl in Hspec. by rewrite Forall_forall in Hspec.
Qed.

Lemma find_index_loop_none (header rest : list string) (s : string) :
  Forall (λ x, contains s (lower x) = false) rest →
  find_index_loop header rest s = Ok None.
Proof.
  induction 1 as [|h rest Hh _ IH]; [done|].
  by rewrite find_index_loop_skip.
Qed.

(** X8: the search string is compared as it is given, only the header is
    converted to lower case: a search string with an upper-case letter in
    it is found in no header at all. *)
Theorem find_index_upper_case_is_never_found
    (header : list string) (s a b : string) (c : ascii) :
  s = a +:+ String c b → is_upper c = true →
  find_index header s = Ok None.
Proof.
  intros -> Hc. apply find_index_loop_none, Forall_forall. intros h _.
  apply not_true_is_false. intros [u [v Hv]]%contains_spec.
  rewrite append_assoc, append_cons, <- append_assoc in Hv.
  apply lower_no_upper in Hv. congruence.
Qed.

Lemma find_index_loop_lower (pre rest : list string) (s : string) :
  Forall (λ x, contains s (lower x) = false) pre →
  find_index_loop (lower <$> pre ++ rest) (lower <$> rest) s
  = find_index_loop (pre ++ rest) rest s.
Proof.
  revert pre. induction rest as [|h rest IH]; intros pre Hpre; [done|].
  destruct (contains s (lower h)) eqn:Hh.
  - rewrite find_index_loop_match by done.
    rewrite fmap_app, !fmap_cons, find_index_loop_match.
    + by rewrite length_fmap.
    + rewrite Forall_fmap. eapply Forall_impl; [exact Hpre|].
      intros x Hx. simpl. by rewrite lower_idemp.
    + by rewrite lower_idemp.
  - rewrite find_index_loop_skip by done.
    rewrite fmap_cons, find_index_loop_skip by (by rewrite lower_idemp).
    rewrite (cons_middle h pre rest), app_assoc. apply IH.
    apply Forall_app. split; [done|]. by constructor.
Qed.

(** X9: the case of the header does not matter: the header converted to
    lower case gives the same answer. *)
Theorem find_index_ignores_header_case (header : list string) (s : string) :
  find_index (lower <$> header) s = find_index header s.
Proof. by apply (find_index_loop_lower [] header s). Qed.
End FindIndex.

(** * [Data] *)

Section DataFacts.
Import io.
Import Stdlib.Strings.Ascii.
Context {num : Type}.
Implicit Types (d : dict num) (v : value num) (k l label : string).

Lemma labelled_elem label (ks : list string) l :
  l ∈ labelled label ks ↔ l ∈ ks ∧ contains label (lower l) = true.
Proof. unfold labelled. by rewrite !list_elem_of_In, filter_In. Qed.

Lemma labelled_nil label (ks : list string) :
  labelled label ks = [] ↔ ∀ k, k ∈ ks → contains label (lower k) = false.
Proof.
  split.
  - intros Hnil k Hk. apply not_true_is_false. intros Hc.
    assert (k ∈ labelled label ks) as Hin by (by apply labelled_elem).
    rewrite Hnil in Hin. by apply not_elem_of_nil in Hin.
  - intros Hno. destruct (labelled label ks) as [|l ls] eqn:Hl; [done|].
    assert (l ∈ labelled label ks) as Hin by (rewrite Hl; left).
    apply labelled_elem in Hin as [Hin Hc]. rewrite Hno in Hc; done.
Qed.

Lemma labelled_app label (ks1 ks2 : list string) :
  labelled label (ks1 ++ ks2) = labelled label ks1 ++ labelled label ks2.
Proof. apply List.filter_app. Qed.

Lemma keys_cons d k v : keys ((k, v) :: d) = k :: keys d.
Proof. reflexivity. Qed.

Lemma get_elem_of d k v : k ∈ keys d → (k, get d k v) ∈ d.
Proof.
  induction d as [|[k' v'] d IH]; intros Hk.
  - by apply not_elem_of_nil in Hk.
  - rewrite keys_cons in Hk. simpl. case_bool_decide as Hkk.
    + subst k'. left.
    + right. apply IH.
      apply elem_of_cons in Hk as [Hk|Hk]; [by subst|done].
Qed.

Lemma get_update_eq d k v v' : get (update d k v) k v' = v.
Proof.
  induction d as [|[k' w] d IH]; simpl.
  - by rewrite bool_decide_eq_true_2.
  - case_bool_decide as Hkk; simpl.
    + by rewrite bool_decide_eq_true_2.
    + by rewrite bool_decide_eq_false_2.
Qed.

Lemma update_cons d k k' v w :
  update ((k', w) :: d) k v
  = if bool_decide (k' = k) then (k', v) :: d else (k', w) :: update d k v.
Proof. reflexivity. Qed.

Lemma keys_update_elem d k v : k ∈ keys (update d k v).
Proof.
  induction d as [|[k' w] d IH].
  - left.
  - rewrite update_cons. case_bool_decide as Hkk; rewrite keys_cons.
    + subst k'. left.
    + by right.
Qed.

(** [update] keeps the keys, or adds [k] at the end. *)
Lemma keys_update d k v :
  keys (update d k v)
  = if bool_decide (k ∈ keys d) then keys d else keys d ++ [k].
Proof.
  induction d as [|[k' w] d IH].
  - rewrite bool_decide_eq_false_2 by apply not_elem_of_nil. reflexivity.
  - rewrite update_cons, (keys_cons d k' w).
    destruct (decide (k' = k)) as [->|Hkk].
    + rewrite bool_decide_eq_true_2 by done.
      rewrite keys_cons, bool_decide_eq_true_2 by left. done.
    + rewrite (bool_decide_eq_false_2 (k' = k)) by done.
      rewrite keys_cons, IH.
      destruct (decide (k ∈ keys d)) as [Hin|Hin].
      * rewrite !bool_decide_eq_true_2; [done|by right|done].
      * rewrite !bool_decide_eq_false_2; [done| |done].
        intros [?|?]%elem_of_cons; by subst.
Qed.

Lemma get_insert_ne (d1 d2 : dict num) k l v v' :
  l ≠ k → get (d1 ++ (k, v) :: d2) l v' = get (d1 ++ d2) l v'.
Proof.
  intros Hlk. induction d1 as [|[k' w] d1 IH]; simpl.
  - by rewrite bool_decide_eq_false_2 by congruence.
  - by rewrite IH.
Qed.

(** [Data_init] by cases. *)
Lemma Data_init_eq d :
  Data_init d =
  match labelled "rad" (keys d) with
  | [] => Raise IndexError
  | rad :: _ =>
      match unpack_shape (first_labelled d (labelled "acc" (keys d))) with
      | Raise e => Raise e
      | Ok (n, c) =>
          Ok {| qts := PyNone;
                in_rads := get d rad (PyBool false);
                time := first_labelled d (labelled "time" (keys d));
                time_ref := match labelled "time" (keys d) with
                            | _ :: l :: _ => Some (get d l PyNone)
                            | _ => None
                            end;
                acc := first_labelled d (labelled "acc" (keys d));
                gyr := first_labelled d (labelled "gyr" (keys d));
                mag := first_labelled d (labelled "mag" (keys d));
                q_ref := first_labelled d (labelled "qts" (keys d));
                num_samples := n;
                num_axes := c |}
      end
  end.
Proof.
  unfold Data_init.
  destruct (labelled "rad" (keys d)) as [|rad rads]; [done|].
  destruct (labelled "time" (keys d)) as [|t0 [|t1 ts]];
    destruct (unpack_shape _) as [[n c]|e]; reflexivity.
Qed.

Lemma Data_init_IndexError d :
  Data_init d = Raise IndexError ↔ labelled "rad" (keys d) = [].
Proof.
  rewrite Data_init_eq.
  destruct (labelled "rad" (keys d)) as [|rad rads]; [done|].
  split; [|done].
  destruct (first_labelled d (labelled "acc" (keys d))) as [| |a|];
    simpl; try done.
  by destruct (shape a) as [|? [|? [|? ?]]].
Qed.

(** X10: what [Data] needs.  The constructor raises [IndexError] exactly
    when no key of the dictionary contains [rad], whatever else the
    dictionary holds; with such a key but none that contains [acc] it
    raises [AttributeError] (on [None.shape]); and when it succeeds,
    [qts] is [None] and [acc] is an array of exactly two dimensions filed
    under a key that contains [acc], whose shape gives [num_samples] and
    [num_axes].  Accelerometer data are thus mandatory, all other data
    optional. *)
Theorem Data_needs_rad_and_acc d :
  (Data_init d = Raise IndexError
   ↔ ∀ k, k ∈ keys d → contains "rad" (lower k) = false)
  ∧ ((∃ k, k ∈ keys d ∧ contains "rad" (lower k) = true) →
     (∀ k, k ∈ keys d → contains "acc" (lower k) = false) →
     Data_init d = Raise AttributeError)
  ∧ (∀ D, Data_init d = Ok D →
       qts D = PyNone
       ∧ ∃ k a, (k, PyArray a) ∈ d
                ∧ contains "acc" (lower k) = true
                ∧ acc D = PyArray a
                ∧ shape a = [num_samples D; num_axes D]).
Proof.
  split; [|rewrite Data_init_eq; split].
  - by rewrite <- labelled_nil, Data_init_IndexError.
  - intros [k [Hk Hc]] Hacc.
    apply labelled_nil in Hacc. rewrite Hacc.
    destruct (labelled "rad" (keys d)) as [|rad rads] eqn:Hr; [|done].
    assert (k ∈ labelled "rad" (keys d)) as Hin by (by apply labelled_elem).
    rewrite Hr in Hin. by apply not_elem_of_nil in Hin.
  - intros D HD.
    destruct (labelled "rad" (keys d)) as [|rad rads]; [done|].
    destruct (labelled "acc" (keys d)) as [|l ls] eqn:Hl; [done|].
    assert (l ∈ labelled "acc" (keys d)) as Hin by (rewrite Hl; left).
    apply labelled_elem in Hin as [Hin Hc].
    pose proof (get_elem_of d l PyNone Hin) as Hget.
    simpl in HD.
    destruct (get d l PyNone) as [| |a|] eqn:Hg; simpl in HD; try done.
    destruct (shape a) as [|n [|c [|? ?]]] eqn:Hs; try done.
    injection HD as <-. simpl. split; [done|].
    by exists l, a.
Qed.

Lemma labelled_insert (ks1 ks2 : list string) k label :
  contains label (lower k) = false →
  labelled label (ks1 ++ k :: ks2) = labelled label (ks1 ++ ks2).
Proof.
  intros Hk. rewrite !labelled_app. f_equal.
  unfold labelled. simpl. by rewrite Hk.
Qed.

Lemma keys_insert (d1 d2 : dict num) k v :
  keys (d1 ++ (k, v) :: d2) = keys d1 ++ k :: keys d2.
Proof. unfold keys. by rewrite fmap_app, fmap_cons. Qed.

Lemma keys_app (d1 d2 : dict num) : keys (d1 ++ d2) = keys d1 ++ keys d2.
Proof. unfold keys. by rewrite fmap_app. Qed.

Lemma get_insert_labelled (d1 d2 : dict num) k l label v v' :
  contains label (lower k) = false →
  l ∈ labelled label (keys (d1 ++ d2)) →
  get (d1 ++ (k, v) :: d2) l v' = get (d1 ++ d2) l v'.
Proof.
  intros Hk [_ Hl]%labelled_elem. apply get_insert_ne. congruence.
Qed.

Lemma first_labelled_insert (d1 d2 : dict num) k label v :
  contains label (lower k) = false →
  first_labelled (d1 ++ (k, v) :: d2) (labelled label (keys (d1 ++ d2)))
  = first_labelled (d1 ++ d2) (labelled label (keys (d1 ++ d2))).
Proof.
  intros Hk. destruct (labelled label (keys (d1 ++ d2))) as [|l ls] eqn:Hl;
    [done|].
  simpl. apply (get_insert_labelled _ _ _ _ label); [done|].
  rewrite Hl. left.
Qed.

(** X11: an entry whose key contains none of [time], [acc], [gyr], [mag],
    [qts] and [rad] is ignored, wherever it stands in the dictionary (the
    entries that [loadmat] adds under [__header__], [__version__] and
    [__globals__] are of this kind). *)
Theorem Data_ignores_other_entries (d1 d2 : dict num) k v :
  Forall (λ label, contains label (lower k) = false)
         ["time"; "acc"; "gyr"; "mag"; "qts"; "rad"] →
  Data_init (d1 ++ (k, v) :: d2) = Data_init (d1 ++ d2).
Proof.
  intros Hk.
  apply Forall_cons_1 in Hk as [Htime Hk].
  apply Forall_cons_1 in Hk as [Hacc Hk].
  apply Forall_cons_1 in Hk as [Hgyr Hk].
  apply Forall_cons_1 in Hk as [Hmag Hk].
  apply Forall_cons_1 in Hk as [Hqts Hk].
  apply Forall_cons_1 in Hk as [Hrad _].
  rewrite !Data_init_eq, keys_insert.
  rewrite !(labelled_insert (keys d1) (keys d2) k) by done.
  rewrite <- !keys_app.
  rewrite !first_labelled_insert by done.
  destruct (labelled "rad" (keys (d1 ++ d2))) as [|rad rads] eqn:Hr; [done|].
  rewrite (get_insert_labelled d1 d2 k rad "rad") by (done || rewrite Hr; left).
  destruct (labelled "time" (keys (d1 ++ d2))) as [|t0 [|t1 ts]] eqn:Ht;
    try done.
  rewrite (get_insert_labelled d1 d2 k t1 "time");
    [done|done|rewrite Ht; right; left].
Qed.
End DataFacts.

(** * [loadETH] *)

Section LoadETH.
Import io.
Import Stdlib.Strings.Ascii.
Context {num : Type}.
Implicit Types (w : world num) (a : ndarray num).

Lemma symmetric_difference_elem (A B : gset string) (x : string) :
  x ∈ symmetric_difference A B ↔ (x ∈ A ∧ x ∉ B) ∨ (x ∈ B ∧ x ∉ A).
Proof. unfold symmetric_difference. set_solver. Qed.

Lemma text_files_elem (names : list string) (f : string) :
  f ∈ (list_to_set (List.filter (λ f, endswith f ".txt") names) : gset string)
  ↔ f ∈ names ∧ endswith f ".txt" = true.
Proof.
  by rewrite elem_of_list_to_set, list_elem_of_In, filter_In, <- list_elem_of_In.
Qed.

Lemma expected_files_are_text (f : string) :
  f ∈ expected_files → endswith f ".txt" = true.
Proof.
  unfold expected_files. rewrite !elem_of_cons, elem_of_nil.
  intros [->|[->|[->|[->|[->|[]]]]]]; reflexivity.
Qed.

(** The set [missing] of line 87. *)
Lemma missing_elem (names : list string) (x : string) :
  x ∈ symmetric_difference
        (list_to_set (List.filter (λ f, endswith f ".txt") names))
        (list_to_set expected_files)
  ↔ (x ∈ names ∧ endswith x ".txt" = true ∧ x ∉ expected_files)
    ∨ (x ∈ expected_files ∧ x ∉ names).
Proof.
  rewrite symmetric_difference_elem, text_files_elem, elem_of_list_to_set.
  split.
  - intros [[[Hx Ht] Hn]|[He Hn]]; [by left|]. right. split; [done|].
    intros Hx. apply Hn. split; [done|]. by apply expected_files_are_text.
  - intros [(Hx & Ht & Hn)|[He Hn]]; [by left|]. right. split; [done|].
    by intros [Hx _].
Qed.

(** X12: [loadETH] loads nothing unless the names in the directory that
    end in [.txt] are exactly the five expected ones.  A path that is no
    directory exits with [Invalid path]; a directory with one of the five
    missing, or with any further [.txt] file in it (although nothing is
    missing then), exits with the report of missing files, which lists
    the further files along with the missing ones.  Names that do not
    end in [.txt] are not looked at. *)
Theorem loadETH_wants_exactly_the_five_text_files :
  (∀ w path, isdir w path = false →
     loadETH w path = Raise (SystemExit (Message "Invalid path")))
  ∧ (∀ w path names f,
       isdir w path = true → listdir w path = Ok names →
       (f ∈ names ∧ endswith f ".txt" = true ∧ f ∉ expected_files)
       ∨ (f ∈ expected_files ∧ f ∉ names) →
       ∃ missing,
         loadETH w path = Raise (SystemExit (Incomplete missing))
         ∧ f ∈ missing
         ∧ ∀ x, x ∈ missing
                ↔ (x ∈ names ∧ endswith x ".txt" = true ∧ x ∉ expected_files)
                  ∨ (x ∈ expected_files ∧ x ∉ names)).
Proof.
  split.
  - intros w path Hdir. unfold loadETH. by rewrite Hdir.
  - intros w path names f Hdir Hls Hf. unfold loadETH. rewrite Hdir, Hls.
    cbn [mbind result_bind].
    set (missing := symmetric_difference _ _).
    assert (f ∈ missing) as Hin by (by apply missing_elem).
    rewrite bool_decide_eq_true_2
      by (intros He; rewrite He in Hin; by apply elem_of_empty in Hin).
    exists missing. split; [done|]. split; [done|].
    intros x. apply missing_elem.
Qed.

Lemma column_2d a (n c i : nat) :
  shape a = [n; c] → i < c →
  column a i = Ok {| shape := [n]; flat := gather n (c * 1) (i * 1) 1 (flat a) |}.
Proof.
  intros Hs Hi. unfold column. rewrite Hs.
  apply Nat.ltb_lt in Hi. by rewrite Hi.
Qed.

Lemma columns_2d a (n c i j : nat) :
  shape a = [n; c] →
  columns a i j
  = Ok {| shape := [n; j `min` c - i `min` c];
          flat := gather n (c * 1) (i `min` c * 1)
                         ((j `min` c - i `min` c) * 1) (flat a) |}.
Proof. intros Hs. unfold columns. by rewrite Hs. Qed.

(** X13: what [loadETH] returns for a complete directory.  Whenever the
    two files are read as arrays of two dimensions with at least one
    column, the call succeeds: the times are the first columns of
    [imu.txt] and [groundtruth.txt], [acc] is columns 1 to 3 and [gyr]
    columns 4 to 6 of [imu.txt], [q_ref] is [groundtruth.txt] from column
    4 on, [in_rads] is [False], and [mag] and [qts] are [None].  Neither
    the number of columns of either file nor the equality of their
    numbers of rows is checked: [num_axes] is 3 only if [imu.txt] has
    four columns or more. *)
Theorem loadETH_complete_directory w path names (imu truth : ndarray num)
    (n c n' c' : nat) :
  isdir w path = true → listdir w path = Ok names →
  (∀ f, f ∈ names ∧ endswith f ".txt" = true ↔ f ∈ expected_files) →
  loadtxt w (path_join path "imu.txt") = Ok imu →
  loadtxt w (path_join path "groundtruth.txt") = Ok truth →
  shape imu = [n; c] → 0 < c →
  shape truth = [n'; c'] → 0 < c' →
  ∃ t acc gyr t' q,
    column imu 0 = Ok t ∧ columns imu 1 4 = Ok acc ∧ columns imu 4 7 = Ok gyr
    ∧ column truth 0 = Ok t' ∧ columns_from truth 4 = Ok q
    ∧ loadETH w path
      = Ok {| qts := PyNone; in_rads := PyBool false;
              time := PyArray t; time_ref := Some (PyArray t');
              acc := PyArray acc; gyr := PyArray gyr; mag := PyNone;
              q_ref := PyArray q;
              num_samples := n; num_axes := 4 `min` c - 1 |}.
Proof.
  intros Hdir Hls Hfiles Himu Htruth Hs Hc Hs' Hc'.
  assert (symmetric_difference
            (list_to_set (List.filter (λ f, endswith f ".txt") names))
            (list_to_set expected_files) = ∅) as Hmissing.
  { apply set_eq. intros x. rewrite missing_elem, elem_of_empty.
    split; [|done]. intros [(Hx & Ht & Hn)|[He Hn]].
    - apply Hn, Hfiles. done.
    - apply Hfiles in He as [Hx _]. done. }
  eexists _, _, _, _, _.
  split; [by apply (column_2d imu n c)|].
  split; [by apply (columns_2d imu n c)|].
  split; [by apply (columns_2d imu n c)|].
  split; [by apply (column_2d truth n' c')|].
  split; [unfold columns_from; rewrite Hs'; by apply (columns_2d truth n' c')|].
  unfold loadETH. rewrite Hdir, Hls. cbn [mbind result_bind].
  rewrite Hmissing, bool_decide_eq_false_2 by (by intros []).
  rewrite Himu. cbn [mbind result_bind].
  rewrite (column_2d imu n c 0) by done. cbn [mbind result_bind].
  rewrite !(columns_2d imu n c) by done. cbn [mbind result_bind].
  rewrite Htruth. cbn [mbind result_bind].
  rewrite (column_2d truth n' c' 0) by done. cbn [mbind result_bind].
  unfold columns_from. rewrite Hs', (columns_2d truth n' c') by done.
  cbn [mbind result_bind].
  rewrite Data_init_eq.
  replace (1 `min` c) with 1 by lia.
  reflexivity.
Qed.
End LoadETH.

(** * [load] *)

Section Extension.
Import io.
Import Stdlib.Strings.Ascii.

Lemma split_cons (sep c : ascii) (s : string) :
  split sep (String c s)
  = if bool_decide (c = sep) then "" :: split sep s
    else match split sep s with
         | w :: ws => String c w :: ws
         | [] => [String c ""]
         end.
Proof. reflexivity. Qed.

Lemma split_nonempty (sep : ascii) (s : string) :
  ∃ w ws, split sep s = w :: ws.
Proof.
  induction s as [|c s [w [ws IH]]]; [by exists "", []|].
  rewrite split_cons, IH. case_bool_decide; eauto.
Qed.

Lemma startswith_char (sep c : ascii) (e : string) :
  startswith (String c e) (String sep "") = bool_decide (sep = c).
Proof. simpl. destruct e; by rewrite andb_true_r. Qed.

Lemma contains_char_cons (sep c : ascii) (e : string) :
  contains (String sep "") (String c e) = false
  ↔ c ≠ sep ∧ contains (String sep "") e = false.
Proof.
  rewrite contains_cons, startswith_char, orb_false_iff, bool_decide_eq_false.
  split; intros [Hc He]; (split; [congruence|done]).
Qed.

(** A string without the separator is one piece. *)
Lemma split_free (sep : ascii) (e : string) :
  contains (String sep "") e = false → split sep e = [e].
Proof.
  induction e as [|c e IH]; [done|].
  intros [Hc He]%contains_char_cons.
  by rewrite split_cons, bool_decide_eq_false_2, IH.
Qed.

(** What follows the last separator is split on its own. *)
Lemma split_app_sep (sep : ascii) (a b : string) :
  ∃ w ws, split sep (a +:+ String sep b) = w :: ws
          ∧ ws ≠ [] ∧ last ws = last (split sep b).
Proof.
  induction a as [|c a (w & ws & IH & Hne & Hlast)].
  - rewrite append_nil_l, split_cons, bool_decide_eq_true_2 by done.
    destruct (split_nonempty sep b) as (w & ws & Hb).
    exists "", (split sep b). by rewrite Hb.
  - rewrite append_cons, split_cons, IH. case_bool_decide.
    + exists "", (w :: ws). split; [done|]. split; [done|].
      rewrite <- Hlast. by destruct ws.
    + by exists (String c w), ws.
Qed.

Lemma last_split (sep : ascii) (s e : string) :
  last (split sep s) = Some e
  ↔ contains (String sep "") e = false
    ∧ (s = e ∨ ∃ p, s = p +:+ String sep e).
Proof.
  split.
  - revert e. induction s as [|c s IH]; intros e Hlast.
    + injection Hlast as <-. by split; [|left].
    + rewrite split_cons in Hlast.
      destruct (split_nonempty sep s) as (w & ws & Hs).
      case_bool_decide as Hc.
      * subst c. rewrite Hs in Hlast, IH.
        change (last ("" :: w :: ws)) with (last (w :: ws)) in Hlast.
        destruct (IH e Hlast) as [He [->|[p ->]]].
        -- split; [done|]. right. by exists "".
        -- split; [done|]. right. by exists (String sep p).
      * rewrite Hs in Hlast, IH. destruct ws as [|x ws].
        -- injection Hlast as <-.
           destruct (IH w eq_refl) as [Hw [->|[p ->]]].
           ++ split; [by apply contains_char_cons|by left].
           ++ destruct (split_app_sep sep p w) as (? & ? & Hsp & Hne & _).
              rewrite Hsp in Hs. by injection Hs as _ ->.
        -- change (last (String c w :: x :: ws)) with (last (w :: x :: ws))
             in Hlast.
           destruct (IH e Hlast) as [He [->|[p ->]]].
           ++ rewrite split_free in Hs by done. discriminate.
           ++ split; [done|]. right. by exists (String c p).
  - intros [He [->|[p ->]]].
    + by rewrite split_free.
    + destruct (split_app_sep sep p e) as (w & ws & -> & Hne & Hlast).
      rewrite split_free in Hlast by done.
      destruct ws; [done|]. exact Hlast.
Qed.

(** [s.split(sep)[-1]] is [e], for an [e] without the separator, exactly
    when [s] is [e] or ends in the separator and [e]. *)
Lemma extension_is (sep : ascii) (s e : string) :
  contains (String sep "") e = false →
  list_last (split sep s) = Ok e ↔ s = e ∨ endswith s (String sep e) = true.
Proof.
  intros He. rewrite endswith_spec. unfold list_last.
  destruct (last (split sep s)) as [e'|] eqn:Hlast.
  - split.
    + intros [= ->]. by apply last_split in Hlast as [_ ?].
    + intros Hs. assert (last (split sep s) = Some e) as Hl
        by (by apply last_split).
      congruence.
  - apply last_None in Hlast.
    destruct (split_nonempty sep s) as (? & ? & ?). congruence.
Qed.

Lemma extension_exists (sep : ascii) (s : string) :
  ∃ e, list_last (split sep s) = Ok e.
Proof.
  destruct (split_nonempty sep s) as (w & ws & Hs). unfold list_last.
  rewrite Hs. destruct (last (w :: ws)) as [e|] eqn:Hl; [by exists e|].
  by apply last_None in Hl.
Qed.
End Extension.

Section Load.
Import io.
Import Stdlib.Strings.Ascii.
Context {num : Type}.
Implicit Types (w : world num) (a : ndarray num) (d : dict num).

Lemma bind_Ok {A B : Type} (m : result A) (f : A → result B) (b : B) :
  m ≫= f = Ok b → ∃ x, m = Ok x ∧ f x = Ok b.
Proof. destruct m as [x|e]; [by exists x | done]. Qed.

Lemma fmap_Some_ne {A : Type} (m : result A) : Some <$> m ≠ Ok None.
Proof. by destruct m. Qed.

Lemma is_mat (s : string) :
  list_last (split "." s) = Ok "mat" ↔ s = "mat" ∨ endswith s ".mat" = true.
Proof. by apply (extension_is "." s "mat"). Qed.

Lemma is_csv (s : string) :
  list_last (split "." s) = Ok "csv" ↔ s = "csv" ∨ endswith s ".csv" = true.
Proof. by apply (extension_is "." s "csv"). Qed.

(** X14: the dispatch of [load].  A name that is no file exits; for a
    file, [load] returns [None] exactly when the name, stripped of
    surrounding white space, neither is [mat] or [csv] nor ends in [.mat]
    or [.csv].  The comparison is exact, so that [DATA.CSV] gives [None],
    while a file called just [csv] is read as a CSV file. *)
Theorem load_returns_None_iff w (file_name : string) :
  (isfile w file_name = false →
   load w file_name
   = Raise (SystemExit (Message ("[ERROR] The file " +:+ file_name
                                 +:+ " does not exist."))))
  ∧ (load w file_name = Ok None
     ↔ isfile w file_name = true
       ∧ strip file_name ≠ "mat" ∧ endswith (strip file_name) ".mat" = false
       ∧ strip file_name ≠ "csv" ∧ endswith (strip file_name) ".csv" = false).
Proof.
  unfold load. split; [by intros ->|].
  destruct (isfile w file_name); [|by split; [|intros []]].
  cbn [negb].
  destruct (extension_exists "." (strip file_name)) as [ext Hext].
  rewrite Hext. cbn [mbind result_bind].
  pose proof (is_mat (strip file_name)) as Hmat.
  pose proof (is_csv (strip file_name)) as Hcsv.
  rewrite Hext in Hmat, Hcsv.
  case_bool_decide as Hm; [|case_bool_decide as Hc].
  - subst ext. split.
    + intros (d & _ & Hd)%bind_Ok. by apply fmap_Some_ne in Hd.
    + intros (_ & Hne & Hend & _).
      destruct (proj1 Hmat eq_refl); congruence.
  - subst ext. split.
    + intros Hload. repeat apply bind_Ok in Hload as (? & _ & Hload).
      first [ by apply fmap_Some_ne in Hload | discriminate ].
    + intros (_ & _ & _ & Hne & Hend).
      destruct (proj1 Hcsv eq_refl); congruence.
  - split; [intros _|done]. split; [done|].
    repeat split.
    + intros Hs. apply Hm. assert (Ok ext = Ok "mat") as [=] by (apply Hmat; by left).
      done.
    + apply not_true_is_false. intros Hs. apply Hm.
      assert (Ok ext = Ok "mat") as [=] by (apply Hmat; by right). done.
    + intros Hs. apply Hc. assert (Ok ext = Ok "csv") as [=] by (apply Hcsv; by left).
      done.
    + apply not_true_is_false. intros Hs. apply Hc.
      assert (Ok ext = Ok "csv") as [=] by (apply Hcsv; by right). done.
Qed.

Lemma column_nd a (n c : nat) (rest : list nat) :
  shape a = n :: c :: rest → 0 < c → ∃ x, column a 0 = Ok x.
Proof.
  intros Hs Hc. unfold column. rewrite Hs.
  apply Nat.ltb_lt in Hc. rewrite Hc. eauto.
Qed.

Lemma columns_at_cases a (n c : nat) (rest : list nat) (idx : option nat)
    (width : nat) :
  shape a = n :: c :: rest →
  match idx with
  | None => columns_at a idx width = Raise TypeError
  | Some _ => ∃ x, columns_at a idx width = Ok x
  end.
Proof.
  intros Hs. destruct idx as [i|]; [|done].
  unfold columns_at, columns. rewrite Hs. eauto.
Qed.

Lemma find_index_Ok (header : list string) (s : string) :
  ∃ r, find_index header s = Ok r
       ∧ ((∀ h, h ∈ header → contains s (lower h) = false) → r = None).
Proof.
  destruct (find_index_loop_least [] header s) as [r [Hr Hspec]]; [done|].
  exists r. split; [exact Hr|]. intros Hno.
  destruct r as [i|]; [|done]. destruct Hspec as (h & Hh & Hc & _).
  rewrite Hno in Hc; [done|]. by eapply list_elem_of_lookup_2.
Qed.

(** X15: a CSV file must name all four kinds of columns.  When no field
    of the first line contains [acc], or none [gyr], or none [mag], or
    none [orient] (in any case of letters), [load] raises [TypeError], at
    [None + 3] or [None + 4]: a recording without magnetometer or
    without reference orientations cannot be loaded. *)
Theorem load_csv_needs_all_four_columns w (file_name line label : string)
    (all_lines : list string) (data : ndarray num) (n c : nat)
    (rest : list nat) :
  isfile w file_name = true →
  strip file_name = "csv" ∨ endswith (strip file_name) ".csv" = true →
  readlines w file_name = Ok all_lines →
  all_lines !! 0 = Some line →
  genfromtxt w (drop 2 all_lines) = Ok data →
  shape data = n :: c :: rest → 0 < c →
  label ∈ ["acc"; "gyr"; "mag"; "orient"] →
  (∀ h, h ∈ split ";" (strip line) → contains label (lower h) = false) →
  load w file_name = Raise TypeError.
Proof.
  intros Hfile Hext Hread Hline Hdata Hs Hc Hlabel Hno.
  apply is_csv in Hext.
  unfold load. rewrite Hfile, Hext. cbn [negb mbind result_bind].
  rewrite bool_decide_eq_false_2, bool_decide_eq_true_2 by done.
  rewrite Hread. cbn [mbind result_bind].
  unfold list_item at 1. rewrite Hline. cbn [mbind result_bind].
  set (header := split ";" (strip line)) in *.
  destruct (find_index_Ok header "acc") as (ra & -> & Ha).
  destruct (find_index_Ok header "gyr") as (rg & -> & Hg).
  destruct (find_index_Ok header "mag") as (rm & -> & Hm).
  destruct (find_index_Ok header "orient") as (rq & -> & Hq).
  cbn [mbind result_bind]. rewrite Hdata. cbn [mbind result_bind].
  destruct (column_nd data n c rest Hs Hc) as [t ->].
  cbn [mbind result_bind].
  pose proof (columns_at_cases data n c rest ra 3 Hs) as Ca.
  pose proof (columns_at_cases data n c rest rg 3 Hs) as Cg.
  pose proof (columns_at_cases data n c rest rm 3 Hs) as Cm.
  pose proof (columns_at_cases data n c rest rq 4 Hs) as Cq.
  rewrite !elem_of_cons, elem_of_nil in Hlabel.
  destruct Hlabel as [->|[->|[->|[->|[]]]]].
  - rewrite (Ha Hno) in *. by rewrite Ca.
  - rewrite (Hg Hno) in *. destruct ra; [destruct Ca as [? ->]|rewrite Ca];
      cbn [mbind result_bind]; by rewrite ?Cg.
  - rewrite (Hm Hno) in *. destruct ra; [destruct Ca as [? ->]|rewrite Ca];
      cbn [mbind result_bind]; [|done].
    destruct rg; [destruct Cg as [? ->]|rewrite Cg];
      cbn [mbind result_bind]; by rewrite ?Cm.
  - rewrite (Hq Hno) in *. destruct ra; [destruct Ca as [? ->]|rewrite Ca];
      cbn [mbind result_bind]; [|done].
    destruct rg; [destruct Cg as [? ->]|rewrite Cg];
      cbn [mbind result_bind]; [|done].
    destruct rm; [destruct Cm as [? ->]|rewrite Cm];
      cbn [mbind result_bind]; by rewrite ?Cq.
Qed.

(** X16: what [load] returns for a CSV file.  The first line is split at
    the semicolons and names the columns; the second line is not read at
    all; the lines from the third on are the data.  When the four kinds
    of columns are found at [ia], [ig], [im] and [iq] and the data form
    an array of two dimensions with at least one column, [time] is column
    0 whatever the first line calls it, [acc], [gyr] and [mag] are the
    three columns from [ia], [ig] and [im] on, [q_ref] the four columns
    from [iq] on, cut off at the last column; [in_rads] is [True],
    [qts] is [None] and [time_ref] is not set. *)
Theorem load_csv_result w (file_name line : string)
    (all_lines : list string) (data : ndarray num) (n c ia ig im iq : nat) :
  isfile w file_name = true →
  strip file_name = "csv" ∨ endswith (strip file_name) ".csv" = true →
  readlines w file_name = Ok all_lines →
  all_lines !! 0 = Some line →
  find_index (split ";" (strip line)) "acc" = Ok (Some ia) →
  find_index (split ";" (strip line)) "gyr" = Ok (Some ig) →
  find_index (split ";" (strip line)) "mag" = Ok (Some im) →
  find_index (split ";" (strip line)) "orient" = Ok (Some iq) →
  genfromtxt w (drop 2 all_lines) = Ok data →
  shape data = [n; c] → 0 < c →
  ∃ t acc gyr mag q,
    column data 0 = Ok t
    ∧ columns data ia (ia + 3) = Ok acc
    ∧ columns data ig (ig + 3) = Ok gyr
    ∧ columns data im (im + 3) = Ok mag
    ∧ columns data iq (iq + 4) = Ok q
    ∧ load w file_name
      = Ok (Some {| qts := PyNone; in_rads := PyBool true;
                    time := PyArray t; time_ref := None;
                    acc := PyArray acc; gyr := PyArray gyr;
                    mag := PyArray mag; q_ref := PyArray q;
                    num_samples := n;
                    num_axes := (ia + 3) `min` c - ia `min` c |}).
Proof.
  intros Hfile Hext Hread Hline Ha Hg Hm Hq Hdata Hs Hc.
  apply is_csv in Hext.
  eexists _, _, _, _, _.
  split; [by apply (column_2d data n c)|].
  split; [by apply (columns_2d data n c)|].
  split; [by apply (columns_2d data n c)|].
  split; [by apply (columns_2d data n c)|].
  split; [by apply (columns_2d data n c)|].
  unfold load. rewrite Hfile, Hext. cbn [negb mbind result_bind].
  rewrite bool_decide_eq_false_2, bool_decide_eq_true_2 by done.
  rewrite Hread. cbn [mbind result_bind].
  unfold list_item at 1. rewrite Hline. cbn [mbind result_bind].
  rewrite Ha, Hg, Hm, Hq. cbn [mbind result_bind].
  rewrite Hdata. cbn [mbind result_bind].
  rewrite (column_2d data n c 0) by done. cbn [mbind result_bind].
  unfold columns_at. rewrite !(columns_2d data n c) by done.
  cbn [mbind result_bind].
  rewrite Data_init_eq. reflexivity.
Qed.

(** X17: a MAT file.  [load] files [False] under [rads] before it builds
    the [Data] object, so that the look-up [rad_labels[0]] cannot raise
    [IndexError]; and when no variable of the file other than [rads]
    itself has [rad] in its lower-case name, [in_rads] is [False],
    whatever the file says under [rads]. *)
Theorem load_mat_is_never_in_radians w (file_name : string) d :
  isfile w file_name = true →
  strip file_name = "mat" ∨ endswith (strip file_name) ".mat" = true →
  loadmat w file_name = Ok d →
  load w file_name ≠ Raise IndexError
  ∧ ∀ D, load w file_name = Ok (Some D) →
         (∀ k, k ∈ keys d → contains "rad" (lower k) = true → k = "rads") →
         in_rads D = PyBool false.
Proof.
  intros Hfile Hext Hmat. apply is_mat in Hext.
  assert (load w file_name
          = Some <$> Data_init (update d "rads" (PyBool false))) as ->.
  { unfold load. rewrite Hfile, Hext. cbn [negb mbind result_bind].
    rewrite bool_decide_eq_true_2 by done. by rewrite Hmat. }
  set (d' := update d "rads" (PyBool false)).
  assert ("rads" ∈ labelled "rad" (keys d')) as Hin.
  { apply labelled_elem. split; [apply keys_update_elem|reflexivity]. }
  split.
  - destruct (Data_init d') as [D|e] eqn:HD; [done|].
    intros [= ->]. apply Data_init_IndexError in HD.
    rewrite HD in Hin. by apply not_elem_of_nil in Hin.
  - intros D HD Hkeys. rewrite Data_init_eq in HD.
    destruct (labelled "rad" (keys d')) as [|rad rads] eqn:Hr;
      [by apply not_elem_of_nil in Hin|].
    assert (rad = "rads") as ->.
    { assert (rad ∈ labelled "rad" (keys d')) as Hrad by (rewrite Hr; left).
      apply labelled_elem in Hrad as [Hk Hc].
      unfold d' in Hk. rewrite keys_update in Hk.
      case_bool_decide.
      - by apply Hkeys.
      - apply elem_of_app in Hk as [Hk|Hk%list_elem_of_singleton];
          [by apply Hkeys | done]. }
    destruct (unpack_shape _) as [[n c]|e]; [|done].
    injection HD as <-. cbn [in_rads]. apply get_update_eq.
Qed.
End Load.

(** * The theorems on the input routines at example files *)

Section InputWitnesses.
Import io.
Import io_examples.
Import Stdlib.Strings.Ascii.

Ltac decided :=
  lazymatch goal with
  | |- ?P => let d := constr:(_ : Decision P) in
             apply (@bool_decide_unpack P d); vm_compute; exact I
  end.

Lemma find_index_returns_first_match_witness :
  ∃ r, find_index ["Time"; "Acc_X"; "acc_y"] "acc" = Ok r
       ∧ match r with
         | Some i =>
             ∃ h, ["Time"; "Acc_X"; "acc_y"] !! i = Some h
                  ∧ contains "acc" (lower h) = true
                  ∧ ∀ j h', j < i → ["Time"; "Acc_X"; "acc_y"] !! j = Some h' →
                            contains "acc" (lower h') = false
         | None => ∀ h, h ∈ ["Time"; "Acc_X"; "acc_y"] →
                        contains "acc" (lower h) = false
         end.
Proof. exact (find_index_returns_first_match ["Time"; "Acc_X"; "acc_y"] "acc"). Defined.

Lemma find_index_upper_case_is_never_found_witness :
  find_index ["Time"; "Acc_X"; "acc_y"] "Acc" = Ok None.
Proof.
  apply (find_index_upper_case_is_never_found
           ["Time"; "Acc_X"; "acc_y"] "Acc" "" "cc" "A"); reflexivity.
Defined.

Lemma Data_needs_rad_and_acc_witness :
  Data_init [("rads", PyBool true); ("gyr", PyArray imu)]
  = Raise AttributeError.
Proof.
  apply (proj1 (proj2 (Data_needs_rad_and_acc
                         [("rads", PyBool true); ("gyr", PyArray imu)]))).
  - exists "rads". split; [left | reflexivity].
  - intros k Hk. revert k Hk. apply Forall_forall. decided.
Defined.

Lemma Data_ignores_other_entries_witness :
  Data_init ([("__header__", PyObject 1)] ++ ("__version__", PyObject 2)
             :: [("__globals__", PyObject 3); ("acc", PyArray imu);
                 ("rads", PyBool true)])
  = Data_init ([("__header__", PyObject 1)]
               ++ [("__globals__", PyObject 3); ("acc", PyArray imu);
                   ("rads", PyBool true)]).
Proof.
  apply (Data_ignores_other_entries
           [("__header__", PyObject 1)]
           [("__globals__", PyObject 3); ("acc", PyArray imu);
            ("rads", PyBool true)]
           "__version__" (PyObject 2)).
  decided.
Defined.

(** A directory with the five files and a file [notes.txt]. *)
Lemma loadETH_wants_exactly_the_five_text_files_witness :
  ∃ missing,
    loadETH (directory ("notes.txt" :: complete)) "rec"
    = Raise (SystemExit (Incomplete missing))
    ∧ "notes.txt" ∈ missing
    ∧ ∀ x, x ∈ missing
           ↔ (x ∈ "notes.txt" :: complete ∧ endswith x ".txt" = true
              ∧ x ∉ expected_files)
             ∨ (x ∈ expected_files ∧ x ∉ "notes.txt" :: complete).
Proof.
  apply (proj2 loadETH_wants_exactly_the_five_text_files
           (directory ("notes.txt" :: complete)) "rec"
           ("notes.txt" :: complete) "notes.txt");
    [reflexivity | reflexivity |].
  left. split; [left|]. split; [reflexivity|decided].
Defined.

Lemma loadETH_complete_directory_witness :
  ∃ t acc gyr t' q,
    column imu 0 = Ok t ∧ columns imu 1 4 = Ok acc ∧ columns imu 4 7 = Ok gyr
    ∧ column truth 0 = Ok t' ∧ columns_from truth 4 = Ok q
    ∧ loadETH (directory complete) "rec"
      = Ok {| qts := PyNone; in_rads := PyBool false;
              time := PyArray t; time_ref := Some (PyArray t');
              acc := PyArray acc; gyr := PyArray gyr; mag := PyNone;
              q_ref := PyArray q;
              num_samples := 2; num_axes := 4 `min` 7 - 1 |}.
Proof.
  apply (loadETH_complete_directory (directory complete) "rec" complete
           imu truth 2 7 2 8);
    try first [ reflexivity | lia ].
  intros f. split.
  - intros [Hf Ht]. revert f Hf Ht.
    apply (proj1 (Forall_forall
                    (λ f, endswith f ".txt" = true → f ∈ expected_files)
                    complete)).
    decided.
  - revert f.
    apply (proj1 (Forall_forall
                    (λ f, f ∈ complete ∧ endswith f ".txt" = true)
                    expected_files)).
    decided.
Defined.

Lemma load_returns_None_iff_witness :
  load (csv_file full_header) "notes.txt" = Ok None.
Proof.
  apply (proj2 (load_returns_None_iff (csv_file full_header) "notes.txt")).
  repeat split; first [ reflexivity | discriminate ].
Defined.

Lemma load_csv_needs_all_four_columns_witness :
  load (csv_file header_without_mag) "rec.csv" = Raise TypeError.
Proof.
  apply (load_csv_needs_all_four_columns
           (csv_file header_without_mag) "rec.csv"
           (header_without_mag +:+ newline) "mag"
           [header_without_mag +:+ newline; "s;g;g;g" +:+ newline;
            "0;0;0;1" +:+ newline; "1;0;0;1" +:+ newline]
           table 2 14 []);
    try first [ reflexivity | lia | (right; reflexivity) | decided ].
  apply Forall_forall. decided.
Defined.

Lemma load_csv_result_witness :
  ∃ t acc gyr mag q,
    column table 0 = Ok t
    ∧ columns table 1 (1 + 3) = Ok acc
    ∧ columns table 4 (4 + 3) = Ok gyr
    ∧ columns table 7 (7 + 3) = Ok mag
    ∧ columns table 10 (10 + 4) = Ok q
    ∧ load (csv_file full_header) "rec.csv"
      = Ok (Some {| qts := PyNone; in_rads := PyBool true;
                    time := PyArray t; time_ref := None;
                    acc := PyArray acc; gyr := PyArray gyr;
                    mag := PyArray mag; q_ref := PyArray q;
                    num_samples := 2;
                    num_axes := (1 + 3) `min` 14 - 1 `min` 14 |}).
Proof.
  apply (load_csv_result
           (csv_file full_header) "rec.csv" (full_header +:+ newline)
           [full_header +:+ newline; "s;g;g;g" +:+ newline;
            "0;0;0;1" +:+ newline; "1;0;0;1" +:+ newline]
           table 2 14 1 4 7 10);
    first [ reflexivity | lia | (right; reflexivity) ].
Defined.

Lemma load_mat_is_never_in_radians_witness :
  load mat_file "rec.mat" ≠ Raise IndexError
  ∧ ∃ D, load mat_file "rec.mat" = Ok (Some D) ∧ in_rads D = PyBool false.
Proof.
  assert (isfile mat_file "rec.mat" = true) as Hfile by reflexivity.
  assert (strip "rec.mat" = "mat" ∨ endswith (strip "rec.mat") ".mat" = true)
    as Hext by (right; reflexivity).
  assert (loadmat mat_file "rec.mat" = Ok variables) as Hmat by reflexivity.
  pose proof (load_mat_is_never_in_radians mat_file "rec.mat" variables
                Hfile Hext Hmat) as [Hne Hin].
  split; [exact Hne|]. eexists. split; [reflexivity|].
  apply Hin; [reflexivity|].
  apply (proj1 (Forall_forall
                  (λ k, contains "rad" (lower k) = true → k = "rads")
                  (keys variables))).
  decided.
Defined.
End InputWitnesses.
